(** * The three-body simulation core: numbers, vectors, accelerator,
      RK4 stepper, fixed-step accumulators, energy diagnostic and the
      heatmap stability sweep.

    JavaScript numbers are IEEE 754 binary64 values; they are modelled by
    Rocq's primitive [float], whose operations are the same correctly
    rounded binary64 operations.  An access to a property of [undefined]
    (an array read out of range followed by a field read or a method call)
    raises a [TypeError] in the source; the model returns [None] there. *)

From Stdlib Require Import Floats ZArith Lia.
From stdpp Require Import base option list.

Set Warnings "-inexact-float".

(** ** JavaScript number operations used by the source *)

Module JS.
Local Open Scope float_scope.

(** [a > b] and [a >= b]. *)
Definition gt (a b : float) : bool := b <? a.
Definition ge (a b : float) : bool := b <=? a.

(** [a ** 2], taken as the correctly rounded square. *)
Definition sq (a : float) : float := a * a.

(** Truthiness of a number: [0], [-0] and [NaN] are falsy. *)
Definition falsy (a : float) : bool := is_zero a || is_nan a.

(** [o || d] for a numeric property that may be absent. *)
Definition or_default (o : option float) (d : float) : float :=
  match o with
  | Some v => if falsy v then d else v
  | None => d
  end.

(** [Math.max(a, b)]: [NaN] if either argument is [NaN]; [+0] is larger
    than [-0]. *)
Definition Math_max (a b : float) : float :=
  if is_nan a || is_nan b then nan
  else if a <? b then b
  else if b <? a then a
  else if is_zero a && get_sign a then b
  else a.

(** The integer denoted by [Math.round(a)] for a finite [a]: the nearest
    integer, ties towards plus infinity.  [None] for [NaN] and the
    infinities, which [Math.round] returns unchanged. *)
Definition Math_round (a : float) : option Z :=
  match Prim2SF a with
  | S754_zero _ => Some 0%Z
  | S754_finite s m e =>
      let n := if s then Z.neg m else Z.pos m in
      Some (if (0 <=? e)%Z then (n * 2 ^ e)%Z
            else ((n + 2 ^ (- e - 1)) / 2 ^ (- e))%Z)
  | _ => None
  end.

(** The integer denoted by [Math.floor(a)] for a finite [a]; [None] for
    [NaN] and the infinities, which [Math.floor] returns unchanged. *)
Definition Math_floor (a : float) : option Z :=
  match Prim2SF a with
  | S754_zero _ => Some 0%Z
  | S754_finite s m e =>
      let n := if s then Z.neg m else Z.pos m in
      Some (if (0 <=? e)%Z then (n * 2 ^ e)%Z else (n / 2 ^ (- e))%Z)
  | _ => None
  end.

(** The integer denoted by [Math.ceil(a)] for a finite [a]; [None] for
    [NaN] and the infinities, which [Math.ceil] returns unchanged. *)
Definition Math_ceil (a : float) : option Z :=
  match Prim2SF a with
  | S754_zero _ => Some 0%Z
  | S754_finite s m e =>
      let n := if s then Z.neg m else Z.pos m in
      Some (if (0 <=? e)%Z then (n * 2 ^ e)%Z else (- ((- n) / 2 ^ (- e)))%Z)
  | _ => None
  end.
End JS.

(** ** class Vector *)

Module Vector.
Local Open Scope float_scope.

Record t : Type := mk { x : float; y : float; z : float }.

Definition add (a v : t) : t := mk (x a + x v) (y a + y v) (z a + z v).
Definition sub (a v : t) : t := mk (x a - x v) (y a - y v) (z a - z v).
Definition mult (a : t) (s : float) : t := mk (x a * s) (y a * s) (z a * s).
Definition mag (a : t) : float := sqrt (x a * x a + y a * y a + z a * z a).
Definition dist (a v : t) : float :=
  sqrt (JS.sq (x a - x v) + JS.sq (y a - y v) + JS.sq (z a - z v)).
Definition clone (a : t) : t := mk (x a) (y a) (z a).

Definition zero : t := mk 0 0 0.
End Vector.

(** ** Bodies

    Every object of the source that stands for a mass point has the
    properties [pos], [vel] and [mass]; the live bodies installed by
    [loadConfig] and the configuration entries also carry the rendering
    hints [radius] and [color], which the integrator's cloned state
    entries do not have. *)

Record Body : Type := mkBody {
  pos : Vector.t;
  vel : Vector.t;
  mass : float;
  radius : option float;
  color : option float
}.

Definition set_pos (p : Vector.t) (b : Body) : Body :=
  mkBody p (vel b) (mass b) (radius b) (color b).
Definition set_vel (v : Vector.t) (b : Body) : Body :=
  mkBody (pos b) v (mass b) (radius b) (color b).
Definition set_mass (m : float) (b : Body) : Body :=
  mkBody (pos b) (vel b) m (radius b) (color b).

(** ** Counted loops

    [for (let i = lo; i < lo + count; i++) body], for a body that neither
    assigns [i] nor changes the bound.  [None] propagates a [TypeError]. *)

Fixpoint for_range {St : Type} (i count : nat)
    (body : nat → St → option St) (s : St) : option St :=
  match count with
  | O => Some s
  | S c => s' ← body i s; for_range (S i) c body s'
  end.

(** ** PhysicsEngine.getAccelerations *)

Section Accelerator.
Local Open Scope float_scope.
Variables G softening : float.

(** The body of the inner loop, for one pair [i < j]. *)
Definition accumulatePair (state : list Body) (i j : nat)
    (acc : list Vector.t) : option (list Vector.t) :=
  si ← state !! i;
  sj ← state !! j;
  let rVec := Vector.sub (pos sj) (pos si) in
  let rMag := Vector.mag rVec in
  let distSq := rMag * rMag + JS.sq softening in
  let fVal := G * mass si * mass sj / distSq in
  let fVec := Vector.mult rVec (fVal / rMag) in
  ai ← acc !! i;
  let acc1 := <[ i := Vector.add ai (Vector.mult fVec (1 / mass si)) ]> acc in
  aj ← acc1 !! j;
  Some (<[ j := Vector.sub aj (Vector.mult fVec (1 / mass sj)) ]> acc1).

Definition getAccelerations (state : list Body) : option (list Vector.t) :=
  let n := length state in
  let acc := replicate n Vector.zero in
  for_range 0 n (λ i acc,
    for_range (S i) (n - S i) (λ j acc, accumulatePair state i j acc) acc) acc.

(** *** The accelerator as the specification words it *)

(** Softened force of the pair [(bi, bj)]: separation [r = pos_j - pos_i],
    distance [d = |r|], magnitude [F = G m_i m_j / (d^2 + eps^2)],
    direction [r / d]; the vector is [r] scaled by [F / d]. *)
Definition separation (bi bj : Body) : Vector.t := Vector.sub (pos bj) (pos bi).
Definition forceMagnitude (bi bj : Body) : float :=
  let d := Vector.mag (separation bi bj) in
  G * mass bi * mass bj / (d * d + softening * softening).
Definition forceVector (bi bj : Body) : Vector.t :=
  let d := Vector.mag (separation bi bj) in
  Vector.mult (separation bi bj) (forceMagnitude bi bj / d).

(** What body [k] receives from its pair with body [j]: the pair
    [(k, j)] adds [F_vec / m_k] when [k < j], the pair [(j, k)]
    subtracts [F_vec / m_k] when [j < k]. *)
Definition contribution (state : list Body) (k : nat)
    (cur : Vector.t) (j : nat) : Vector.t :=
  match state !! k, state !! j with
  | Some bk, Some bj =>
      if (k <? j)%nat then
        Vector.add cur (Vector.mult (forceVector bk bj) (1 / mass bk))
      else if (j <? k)%nat then
        Vector.sub cur (Vector.mult (forceVector bj bk) (1 / mass bk))
      else cur
  | _, _ => cur
  end.

(** The pulls on body [k] from the bodies [0 .. upto - 1], summed in
    increasing order of the partner's index. *)
Definition pull (state : list Body) (k upto : nat) : Vector.t :=
  foldl (contribution state k) Vector.zero (seq 0 upto).

Definition accelerations (state : list Body) : list Vector.t :=
  (λ k, pull state k (length state)) <$> seq 0 (length state).
End Accelerator.


(** ** Invariant of the accelerator's loops *)

Section AcceleratorInvariant.
Variables G softening : float.

(** How far the sum of body [k] has got when the outer loop is at [i] and
    the inner loop at [j]. *)
Definition progress (n i j k : nat) : nat :=
  if (k <? i)%nat then n
  else if (k =? i)%nat then j
  else if (k <? j)%nat then S i
  else i.

Definition partial_sums (state : list Body) (reach : nat → nat)
    (acc : list Vector.t) : Prop :=
  length acc = length state ∧
  ∀ k, (k < length state)%nat →
       acc !! k = Some (pull G softening state k (reach k)).
End AcceleratorInvariant.

(** ** Auxiliary notions on binary64 values, in the terms of their
    specification ([spec_float]) *)

(** Lexicographic comparison of exponent and mantissa. *)
Definition lexcmp (e1 : Z) (m1 : positive) (e2 : Z) (m2 : positive) : comparison :=
  match (e1 ?= e2)%Z with
  | Lt => Lt
  | Gt => Gt
  | Eq => Pos.compare_cont Eq m1 m2
  end.

(** Zero of either sign, or positive. *)
Definition nonneg (x : spec_float) : bool :=
  match x with
  | S754_zero _ => true
  | S754_infinity s | S754_finite s _ _ => negb s
  | S754_nan => false
  end.

(** A rounded result carries the sign [sx]. *)
Definition signed_like (sx : bool) (r : spec_float) : Prop :=
  match r with
  | S754_zero s | S754_infinity s | S754_finite s _ _ => s = sx
  | S754_nan => False
  end.

(** ** Loops and array helpers *)

(** [while (cond) body], run for at most [fuel] iterations.  [None] when
    the loop has not finished within [fuel] iterations, or when its body
    raised. *)
Fixpoint while_loop {St : Type} (fuel : nat) (cond : St → bool)
    (body : St → option St) (s : St) : option St :=
  match fuel with
  | O => None
  | S f => if cond s then s' ← body s; while_loop f cond body s' else Some s
  end.

(** [arr.map((a, i) => f(a, i))] for a callback that may raise. *)
Fixpoint map_index {A B : Type} (f : A → nat → option B) (i : nat)
    (arr : list A) : option (list B) :=
  match arr with
  | [] => Some []
  | a :: rest => b ← f a i; bs ← map_index f (S i) rest; Some (b :: bs)
  end.

(** ** The RK4 step: [PhysicsEngine.step(dt)] of js/physics.js and
    [PhysicsEngine.integrate(dt)] of the stand-alone scripts *)

Section Integrator.
Local Open Scope float_scope.
Variables G softening : float.

(** [this.bodies.map(b => ({pos: b.pos.clone(), vel: b.vel.clone(), mass: b.mass}))] *)
Definition cloneState (bodies : list Body) : list Body :=
  (λ b, mkBody (Vector.clone (pos b)) (Vector.clone (vel b)) (mass b) None None)
    <$> bodies.

(** [state.map((s, i) => ({pos: s.pos.add(v[i].mult(h)),
                            vel: s.vel.add(a[i].mult(h)), mass: s.mass}))] *)
Definition stage (state : list Body) (v a : list Vector.t) (h : float)
    : option (list Body) :=
  map_index (λ s i,
    vi ← v !! i;
    ai ← a !! i;
    Some (mkBody (Vector.add (pos s) (Vector.mult vi h))
                 (Vector.add (vel s) (Vector.mult ai h))
                 (mass s) None None)) 0 state.

(** [a1[i].add(a2[i].mult(2)).add(a3[i].mult(2)).add(a4[i]).mult(dt / 6)] *)
Definition weighted (k1 k2 k3 k4 : Vector.t) (dt : float) : Vector.t :=
  Vector.mult
    (Vector.add (Vector.add (Vector.add k1 (Vector.mult k2 2)) (Vector.mult k3 2)) k4)
    (dt / 6).

(** The body of the loop that updates the original bodies. *)
Definition commit (a1 a2 a3 a4 v1 v2 v3 v4 : list Vector.t) (dt : float)
    (i : nat) (bodies : list Body) : option (list Body) :=
  a1i ← a1 !! i; a2i ← a2 !! i; a3i ← a3 !! i; a4i ← a4 !! i;
  let dv := weighted a1i a2i a3i a4i dt in
  v1i ← v1 !! i; v2i ← v2 !! i; v3i ← v3 !! i; v4i ← v4 !! i;
  let dx := weighted v1i v2i v3i v4i dt in
  b ← bodies !! i;
  let b1 := set_vel (Vector.add (vel b) dv) b in
  let b2 := set_pos (Vector.add (pos b1) dx) b1 in
  Some (<[ i := b2 ]> bodies).

Definition rk4Step (dt : float) (bodies : list Body) : option (list Body) :=
  let state := cloneState bodies in
  a1 ← getAccelerations G softening state;
  let v1 := vel <$> state in
  s2 ← stage state v1 a1 (dt * 0.5);
  a2 ← getAccelerations G softening s2;
  let v2 := vel <$> s2 in
  s3 ← stage state v2 a2 (dt * 0.5);
  a3 ← getAccelerations G softening s3;
  let v3 := vel <$> s3 in
  s4 ← stage state v3 a3 dt;
  a4 ← getAccelerations G softening s4;
  let v4 := vel <$> s4 in
  for_range 0 (length bodies) (commit a1 a2 a3 a4 v1 v2 v3 v4 dt) bodies.

(** *** The RK4 step as the specification words it *)

(** The base state advanced by [(v, a) * h]. *)
Definition advanced (state : list Body) (v a : list Vector.t) (h : float)
    : list Body :=
  (λ '(s, (vi, ai)),
     mkBody (Vector.add (pos s) (Vector.mult vi h))
            (Vector.add (vel s) (Vector.mult ai h)) (mass s) None None)
    <$> zip state (zip v a).

Record Stages : Type := mkStages {
  a1 : list Vector.t; v1 : list Vector.t;
  a2 : list Vector.t; v2 : list Vector.t;
  a3 : list Vector.t; v3 : list Vector.t;
  a4 : list Vector.t; v4 : list Vector.t
}.

Definition rk4Stages (dt : float) (bodies : list Body) : Stages :=
  let base := cloneState bodies in
  let a1 := accelerations G softening base in
  let v1 := vel <$> base in
  let s2 := advanced base v1 a1 (dt * 0.5) in
  let a2 := accelerations G softening s2 in
  let v2 := vel <$> s2 in
  let s3 := advanced base v2 a2 (dt * 0.5) in
  let a3 := accelerations G softening s3 in
  let v3 := vel <$> s3 in
  let s4 := advanced base v3 a3 dt in
  let a4 := accelerations G softening s4 in
  let v4 := vel <$> s4 in
  mkStages a1 v1 a2 v2 a3 v3 a4 v4.

End Integrator.

(** ** Invariant of the loop that updates the original bodies *)

Section CommitInvariant.
Variables k1 k2 k3 k4 w1 w2 w3 w4 : list Vector.t.
Variable dt : float.
Variable bodies : list Body.

(** Body [i] holds its final update. *)
Definition updated (cur : list Body) (i : nat) (b : Body) : Prop :=
  ∃ a1i a2i a3i a4i v1i v2i v3i v4i,
    k1 !! i = Some a1i ∧ k2 !! i = Some a2i ∧
    k3 !! i = Some a3i ∧ k4 !! i = Some a4i ∧
    w1 !! i = Some v1i ∧ w2 !! i = Some v2i ∧
    w3 !! i = Some v3i ∧ w4 !! i = Some v4i ∧
    cur !! i =
      Some (mkBody (Vector.add (pos b) (weighted v1i v2i v3i v4i dt))
                   (Vector.add (vel b) (weighted a1i a2i a3i a4i dt))
                   (mass b) (radius b) (color b)).

Definition committed_to (i : nat) (cur : list Body) : Prop :=
  length cur = length bodies ∧
  (∀ k, i ≤ k → cur !! k = bodies !! k) ∧
  (∀ k b, k < i → bodies !! k = Some b → updated cur k b).
End CommitInvariant.

(** [n] RK4 sub-steps of size [h] in a row. *)
Fixpoint rk4Steps (G softening h : float) (n : nat) (bodies : list Body)
    : option (list Body) :=
  match n with
  | O => Some bodies
  | S n' => bodies' ← rk4Step G softening h bodies; rk4Steps G softening h n' bodies'
  end.

(** ** [PhysicsEngine.getTotalEnergy] *)

Section Energy.
Local Open Scope float_scope.
Variable G : float.

(** [ke += 0.5 * m * (vel.mag() ** 2)] *)
Definition addKinetic (b : Body) (ke : float) : float :=
  ke + 0.5 * mass b * JS.sq (Vector.mag (vel b)).

(** [pe -= (G * m_i * m_j) / bodies[i].pos.dist(bodies[j].pos)] *)
Definition subPotential (bodies : list Body) (i j : nat) (pe : float)
    : option float :=
  bi ← bodies !! i;
  bj ← bodies !! j;
  Some (pe - G * mass bi * mass bj / Vector.dist (pos bi) (pos bj)).

Definition totalEnergy (bodies : list Body) : option float :=
  let n := length bodies in
  '(ke, pe) ← for_range 0 n (λ i '(ke, pe),
      bi ← bodies !! i;
      let ke' := addKinetic bi ke in
      pe' ← for_range (S i) (n - S i) (subPotential bodies i) pe;
      Some (ke', pe')) (0, 0);
  Some (ke + pe).

(** *** The energy as the specification words it *)

Definition kinetic (b : Body) : float :=
  0.5 * mass b * JS.sq (Vector.mag (vel b)).

(** [-G m_i m_j / d(i,j)], with the unsoftened distance. *)
Definition potential (bi bj : Body) : float :=
  - (G * mass bi * mass bj / Vector.dist (pos bi) (pos bj)).

(** All pairs [(b_i, b_j)] with [i < j], in lexicographic order. *)
Fixpoint pairs (bodies : list Body) : list (Body * Body) :=
  match bodies with
  | [] => []
  | b :: rest => (pair b <$> rest) ++ pairs rest
  end.

Definition kineticSum (bodies : list Body) : float :=
  foldl (λ s b, s + kinetic b) 0 bodies.
Definition potentialSum (bodies : list Body) : float :=
  foldl (λ s '(bi, bj), s + potential bi bj) 0 (pairs bodies).
End Energy.

(** [isUnstable]: [for (let b of this.bodies) if (b.pos.mag() > threshold)
    return true;] and [return false] after the loop. *)
Fixpoint anyBeyond (threshold : float) (bodies : list Body) : bool :=
  match bodies with
  | [] => false
  | b :: rest =>
      if JS.gt (Vector.mag (pos b)) threshold then true
      else anyBeyond threshold rest
  end.

(** ** js/physics.js: class PhysicsEngine

    A method is a function of the receiver [this] that returns its result
    and the receiver after the call. *)

Module Physics.
Local Open Scope float_scope.

Record PhysicsEngine : Type := mk {
  bodies : list Body;
  G : float;
  softening : float
}.

Definition method (A : Type) : Type := PhysicsEngine → option (A * PhysicsEngine).

(** [constructor(bodies, G = 1000, softening = 5)] *)
Definition new (bodies : list Body) (G softening : option float) : PhysicsEngine :=
  mk bodies (default 1000 G) (default 5 softening).

Definition step (dt : float) : method unit := λ this,
  bodies' ← rk4Step (G this) (softening this) dt (bodies this);
  Some (tt, mk bodies' (G this) (softening this)).

Definition getTotalEnergy : method float := λ this,
  e ← totalEnergy (G this) (bodies this);
  Some (e, this).

(** [isUnstable(threshold = 5000)] *)
Definition isUnstable (threshold : option float) : method bool := λ this,
  Some (anyBeyond (default 5000 threshold) (bodies this), this).
End Physics.

(** ** js/explorer.js: the simulation loop of [MatrixExplorer.createMiniSim]

    [for (let i = 0; i < simSteps; i++) { physics.step(0.1); ...
     if (physics.isUnstable(3000)) { stable = false; break; } }];
    the result is the final value of [stable]. *)

Module MatrixExplorer.
Local Open Scope float_scope.

Fixpoint simLoop (remaining : nat) (physics : Physics.PhysicsEngine)
    : option (bool * Physics.PhysicsEngine) :=
  match remaining with
  | O => Some (true, physics)
  | S r =>
      '(_, physics1) ← Physics.step 0.1 physics;
      '(unstable, physics2) ← Physics.isUnstable (Some 3000) physics1;
      if unstable : bool then Some (false, physics2) else simLoop r physics2
  end.

Definition createMiniSim (config : list Body) : option (bool * Physics.PhysicsEngine) :=
  let bodies := (λ b, mkBody (Vector.mk (Vector.x (pos b)) (Vector.y (pos b)) (Vector.z (pos b)))
                             (Vector.mk (Vector.x (vel b)) (Vector.y (vel b)) (Vector.z (vel b)))
                             (mass b) None None) <$> config in
  simLoop 800 (Physics.new bodies (Some 1000) (Some 5)).
End MatrixExplorer.

(** ** The stand-alone simulation script and verify_consistency.js:
    class PhysicsEngine with the floating accumulator *)

Module Sim.
Local Open Scope float_scope.

Record PhysicsEngine : Type := mk {
  bodies : list Body;
  G : float;
  softening : float;
  dt : float;
  fixedDt : float;
  accumulator : float
}.

Definition method (A : Type) : Type := PhysicsEngine → option (A * PhysicsEngine).

Definition set_bodies (bs : list Body) (this : PhysicsEngine) : PhysicsEngine :=
  mk bs (G this) (softening this) (dt this) (fixedDt this) (accumulator this).
Definition set_dt (d : float) (this : PhysicsEngine) : PhysicsEngine :=
  mk (bodies this) (G this) (softening this) d (fixedDt this) (accumulator this).
Definition set_accumulator (a : float) (this : PhysicsEngine) : PhysicsEngine :=
  mk (bodies this) (G this) (softening this) (dt this) (fixedDt this) a.

Definition new : PhysicsEngine := mk [] 1000 5 0.15 0.01 0.

(** The object built for one configuration entry [c]. *)
Definition install (c : Body) : Body :=
  mkBody (Vector.mk (Vector.x (pos c)) (Vector.y (pos c)) (Vector.z (pos c)))
         (Vector.mk (Vector.x (vel c)) (Vector.y (vel c)) (Vector.z (vel c)))
         (mass c)
         (Some (JS.or_default (radius c) 5))
         (Some (JS.or_default (color c) 16777215)).

Definition loadConfig (config : list Body) : method unit := λ this,
  Some (tt, set_bodies (install <$> config) this).

Definition integrate (h : float) : method unit := λ this,
  bodies' ← rk4Step (G this) (softening this) h (bodies this);
  Some (tt, set_bodies bodies' this).

(** [step()]: the accumulator loop, run for at most [fuel] sub-steps. *)
Definition step (fuel : nat) : method unit := λ this,
  let this1 := set_accumulator (accumulator this + dt this) this in
  this' ← while_loop fuel
    (λ this, JS.ge (accumulator this) (fixedDt this))
    (λ this,
       '(_, this2) ← integrate (fixedDt this) this;
       Some (set_accumulator (accumulator this2 - fixedDt this2) this2))
    this1;
  Some (tt, this').

Definition getTotalEnergy : method float := λ this,
  e ← totalEnergy (G this) (bodies this);
  Some (e, this).

(** [sim.dt = d; sim.step();] for every [d] of a sequence of visual
    increments. *)
Fixpoint run (fuel : nat) (dts : list float) (this : PhysicsEngine)
    : option PhysicsEngine :=
  match dts with
  | [] => Some this
  | d :: rest => '(_, this') ← step fuel (set_dt d this); run fuel rest this'
  end.

(** The accumulator loop of [step] with the integration left out: how
    many times the body runs and the accumulator it leaves, within [fuel]
    passes. *)
Fixpoint passes (fuel : nat) (acc h : float) : option (nat * float) :=
  match fuel with
  | O => None
  | S f =>
      if JS.ge acc h then '(n, r) ← passes f (acc - h) h; Some (S n, r)
      else Some (O, acc)
  end.

(** The same for a sequence of visual increments: the passes of all the
    calls together and the last accumulator. *)
Fixpoint runPasses (fuel : nat) (dts : list float) (acc h : float)
    : option (nat * float) :=
  match dts with
  | [] => Some (O, acc)
  | d :: rest =>
      '(n, r) ← passes fuel (acc + d) h;
      '(m, r') ← runPasses fuel rest r h;
      Some ((n + m)%nat, r')
  end.

(** [getTotalState()]: [sum += b.pos.x + b.pos.y + b.pos.z] over the
    bodies. *)
Definition stateSum (bodies : list Body) : float :=
  foldl (λ sum b, sum + (Vector.x (pos b) + Vector.y (pos b) + Vector.z (pos b)))
        0 bodies.
Definition getTotalState : method float := λ this,
  Some (stateSum (bodies this), this).

(** [for (let i = 0; i < n; i++) sim.step();] *)
Fixpoint frames (fuel n : nat) (this : PhysicsEngine) : option PhysicsEngine :=
  match n with
  | O => Some this
  | S k => '(_, this') ← step fuel this; frames fuel k this'
  end.

(** The script of verify_consistency.js run on a configuration: 100
    frames at [dt = 0.15] against 50 frames at [dt = 0.30], and the test
    [diff < 1e-5] on the two state sums ([true] prints SUCCESS). *)
Definition determinismCheck (fuel : nat) (config : list Body) : option bool :=
  '(_, sim1) ← loadConfig config new;
  sim1 ← frames fuel 100 (set_dt 0.15 sim1);
  '(_, sim2) ← loadConfig config new;
  sim2 ← frames fuel 50 (set_dt 0.30 sim2);
  '(state1, _) ← getTotalState sim1;
  '(state2, _) ← getTotalState sim2;
  let diff := abs (state1 - state2) in
  Some (diff <? 1e-5).
End Sim.

(** ** Integer-valued numbers

    The microsecond accumulators hold integer-valued numbers.  Additions
    and subtractions of such numbers are exact as long as the results stay
    within [-2^53, 2^53]; the model computes in [Z] and gives no result
    when an accumulated value leaves that range. *)

Definition exactInt (n : Z) : option Z :=
  if (Z.abs n <=? 2 ^ 53)%Z then Some n else None.

(** The exact value of a finite number in units of [2^-1074], of which
    every finite binary64 value is an integer multiple; the exact total of
    a sequence of increments. *)
Definition units (a : float) : Z :=
  match Prim2SF a with
  | S754_finite s m e => ((if s then Z.neg m else Z.pos m) * 2 ^ (e + 1074))%Z
  | _ => 0%Z
  end.
Definition exactTotal (dts : list float) : Z := foldr (λ d s, units d + s)%Z 0%Z dts.

(** The microsecond counts [us] of the increments [dts], none negative. *)
Definition microseconds (dts : list float) (us : list Z) : Prop :=
  Forall2 (λ d u, JS.Math_round (d * 1000000)%float = Some u ∧ (0 ≤ u)%Z) dts us.
Definition total (us : list Z) : Z := foldr Z.add 0%Z us.

(** ** The energy-drift script: class PhysicsEngine with the
    integer-microsecond accumulator *)

Module SimUs.
Local Open Scope float_scope.

Record PhysicsEngine : Type := mk {
  bodies : list Body;
  G : float;
  softening : float;
  dt : float;
  fixedDt : float;
  fixedStepUs : Z;
  accumulatorUs : Z
}.

Definition method (A : Type) : Type := PhysicsEngine → option (A * PhysicsEngine).

Definition set_bodies (bs : list Body) (this : PhysicsEngine) : PhysicsEngine :=
  mk bs (G this) (softening this) (dt this) (fixedDt this)
     (fixedStepUs this) (accumulatorUs this).
Definition set_dt (d : float) (this : PhysicsEngine) : PhysicsEngine :=
  mk (bodies this) (G this) (softening this) d (fixedDt this)
     (fixedStepUs this) (accumulatorUs this).
Definition set_accumulatorUs (a : Z) (this : PhysicsEngine) : PhysicsEngine :=
  mk (bodies this) (G this) (softening this) (dt this) (fixedDt this)
     (fixedStepUs this) a.

Definition new : PhysicsEngine := mk [] 1000 5 0.45 0.01 10000 0.

Definition loadConfig (config : list Body) : method unit := λ this,
  Some (tt, set_bodies (Sim.install <$> config) this).

Definition integrate (h : float) : method unit := λ this,
  bodies' ← rk4Step (G this) (softening this) h (bodies this);
  Some (tt, set_bodies bodies' this).

Definition step (fuel : nat) : method unit := λ this,
  dtUs ← JS.Math_round (dt this * 1000000);
  acc ← exactInt (accumulatorUs this + dtUs);
  let this1 := set_accumulatorUs acc this in
  this' ← while_loop fuel
    (λ this, (fixedStepUs this <=? accumulatorUs this)%Z)
    (λ this,
       '(_, this2) ← integrate (fixedDt this) this;
       Some (set_accumulatorUs (accumulatorUs this2 - fixedStepUs this2) this2))
    this1;
  Some (tt, this').

(** [sim.dt = d; sim.step();] for every [d] of a sequence of visual
    increments. *)
Fixpoint run (fuel : nat) (dts : list float) (this : PhysicsEngine)
    : option PhysicsEngine :=
  match dts with
  | [] => Some this
  | d :: rest => '(_, this') ← step fuel (set_dt d this); run fuel rest this'
  end.
End SimUs.

(** ** debug_verify.js: class IntegerAccumulatorTest *)

Module IntegerAccumulatorTest.
Local Open Scope float_scope.

Record t : Type := mk {
  fixedStepUs : Z;
  accumulatorUs : Z;
  stepsTaken : Z
}.

Definition new : t := mk 10000 0 0.

Definition step (fuel : nat) (dt : float) (this : t) : option t :=
  dtUs ← JS.Math_round (dt * 1000000);
  acc ← exactInt (accumulatorUs this + dtUs);
  while_loop fuel
    (λ this, (fixedStepUs this <=? accumulatorUs this)%Z)
    (λ this, Some (mk (fixedStepUs this)
                      (accumulatorUs this - fixedStepUs this)
                      (stepsTaken this + 1)))
    (mk (fixedStepUs this) acc (stepsTaken this)).

(** [for (...) sim.step(dt)] over a sequence of increments. *)
Fixpoint run (fuel : nat) (dts : list float) (this : t) : option t :=
  match dts with
  | [] => Some this
  | dt :: rest => this' ← step fuel dt this; run fuel rest this'
  end.

(** The drift script that follows js/physics.js, with its constants
    [targetTime], [slowDt] and [fastDt] as arguments:
    [frames = Math.ceil(targetTime / dt)] calls of [step(dt)] on a fresh
    object for each of the two increments; the result is the pair of the
    two [stepsTaken], which the script compares. *)
Definition driftTest (fuel : nat) (targetTime slowDt fastDt : float)
    : option (Z * Z) :=
  slowFrames ← JS.Math_ceil (targetTime / slowDt);
  slowSim ← run fuel (replicate (Z.to_nat slowFrames) slowDt) new;
  fastFrames ← JS.Math_ceil (targetTime / fastDt);
  fastSim ← run fuel (replicate (Z.to_nat fastFrames) fastDt) new;
  Some (stepsTaken slowSim, stepsTaken fastSim).
End IntegerAccumulatorTest.

(** ** class VisualEngine: the trail history of one body

    [initBodies] fills the history with [trailLen = 1000] references to
    the body's position; [update] appends the current position and drops
    the oldest.  The position objects are never mutated by the engines
    (every update assigns a new [Vector]), so a history is a list of
    values. *)

Module VisualEngine.
Definition trailLen : nat := 1000.

(** [new Array(trailLen).fill(b.pos)] *)
Definition initHistory (p : Vector.t) : list Vector.t := replicate trailLen p.

(** js/visuals.js: [history.push(b.pos.clone()); history.shift();] *)
Definition updateHistory (history : list Vector.t) (p : Vector.t)
    : list Vector.t :=
  drop 1 (history ++ [Vector.clone p]).

(** The stand-alone script:
    [history.push(b.pos); if (history.length > 1000) history.shift();] *)
Definition updateHistoryBounded (history : list Vector.t) (p : Vector.t)
    : list Vector.t :=
  let pushed := history ++ [p] in
  if (1000 <? length pushed)%nat then drop 1 pushed else pushed.
End VisualEngine.

(** ** class HeatmapExplorer: the stability sweep *)

Module HeatmapExplorer.
Local Open Scope float_scope.

(** A number after [JSON.parse(JSON.stringify(.))]: [-0] is written as
    [0]; [NaN] and the infinities are written as [null], which every
    arithmetic operation of the sweep reads as [0]. *)
Definition jsonNumber (a : float) : float :=
  if is_finite a then (if is_zero a then 0 else a) else 0.
Definition jsonVector (v : Vector.t) : Vector.t :=
  Vector.mk (jsonNumber (Vector.x v)) (jsonNumber (Vector.y v)) (jsonNumber (Vector.z v)).
Definition jsonBody (b : Body) : Body :=
  mkBody (jsonVector (pos b)) (jsonVector (vel b)) (jsonNumber (mass b))
         (jsonNumber <$> radius b) (jsonNumber <$> color b).

(** A parameter name, as [applyParam] reads it after [type.split('_')]:
    ['mass_<n>'], or ['pos_<axis>_<n>'] and ['vel_<axis>_<n>']. *)
Inductive axis : Type := ax_x | ax_y | ax_z.
Inductive vecField : Type := f_pos | f_vel.
Inductive param : Type :=
  | MassOf (n : nat)
  | ComponentOf (f : vecField) (a : axis) (n : nat).

Record t : Type := mk {
  res : float;
  centerX : float;
  centerY : float;
  zoom : float;
  baseRange : float;
  xAxis : param;
  yAxis : param;
  baseConfig : option (list Body)
}.

Definition new : t :=
  mk 200 0 0 1 8 (ComponentOf f_vel ax_x 3) (ComponentOf f_vel ax_y 3) None.

Definition addComponent (a : axis) (val : float) (v : Vector.t) : Vector.t :=
  match a with
  | ax_x => Vector.mk (Vector.x v + val) (Vector.y v) (Vector.z v)
  | ax_y => Vector.mk (Vector.x v) (Vector.y v + val) (Vector.z v)
  | ax_z => Vector.mk (Vector.x v) (Vector.y v) (Vector.z v + val)
  end.

(** [bodies[parseInt(n) - 1]...  += val] *)
Definition applyParam (bodies : list Body) (type : param) (val : float)
    : option (list Body) :=
  match type with
  | MassOf O | ComponentOf _ _ O => None
  | MassOf (S i) =>
      b ← bodies !! i;
      Some (<[ i := set_mass (mass b + val) b ]> bodies)
  | ComponentOf f_pos a (S i) =>
      b ← bodies !! i;
      Some (<[ i := set_pos (addComponent a val (pos b)) b ]> bodies)
  | ComponentOf f_vel a (S i) =>
      b ← bodies !! i;
      Some (<[ i := set_vel (addComponent a val (vel b)) b ]> bodies)
  end.

(** [const steps = 1000, dt = 0.2, G = 1000, esc = 6000 * 6000] *)
Definition steps : float := 1000.
Definition dt : float := 0.2.
Definition G : float := 1000.
Definition esc : float := 6000 * 6000.

(** The body of the loop over [b]: [if (a === b) continue; ...
    ax += f * (dx / d); ay += f * (dy / d); az += f * (dz / d)]. *)
Definition pullFrom (bodies : list Body) (a b : nat)
    (acc : float * float * float) : option (float * float * float) :=
  if (a =? b)%nat then Some acc
  else
    bb ← bodies !! b;
    ba ← bodies !! a;
    let dx := Vector.x (pos bb) - Vector.x (pos ba) in
    let dy := Vector.y (pos bb) - Vector.y (pos ba) in
    let dz := Vector.z (pos bb) - Vector.z (pos ba) in
    let d2 := dx * dx + dy * dy + dz * dz + 25 in
    let d := sqrt d2 in
    let f := G * mass bb / d2 in
    let '(ax, ay, az) := acc in
    Some (ax + f * (dx / d), ay + f * (dy / d), az + f * (dz / d)).

(** The acceleration of body [a], as the loop over [b] leaves it. *)
Definition sweepAcceleration (bodies : list Body) (a : nat)
    : option (float * float * float) :=
  for_range 0 3 (pullFrom bodies a) (0, 0, 0).

(** The body of the first loop over [a]: the velocity of [bodies[a]] is
    updated in place. *)
Definition kick (a : nat) (bodies : list Body) : option (list Body) :=
  '(ax, ay, az) ← sweepAcceleration bodies a;
  ba ← bodies !! a;
  Some (<[ a := set_vel (Vector.mk (Vector.x (vel ba) + ax * dt)
                                   (Vector.y (vel ba) + ay * dt)
                                   (Vector.z (vel ba) + az * dt)) ba ]> bodies).

(** The body of the second loop over [a]: the position is updated in
    place and [maxD2] follows. *)
Definition drift (a : nat) (st : list Body * float) : option (list Body * float) :=
  ba ← st.1 !! a;
  let p := Vector.mk (Vector.x (pos ba) + Vector.x (vel ba) * dt)
                     (Vector.y (pos ba) + Vector.y (vel ba) * dt)
                     (Vector.z (pos ba) + Vector.z (vel ba) * dt) in
  Some (<[ a := set_pos p ba ]> st.1,
        JS.Math_max st.2 (JS.sq (Vector.x p) + JS.sq (Vector.y p) + JS.sq (Vector.z p))).

(** One iteration of the loop over [i], up to the escape test: the bodies
    after it and the value of [maxD2]. *)
Definition sweepStep (bodies : list Body) : option (list Body * float) :=
  kicked ← for_range 0 3 kick bodies;
  for_range 0 3 drift (kicked, 0).

(** [for (let i = 0; i < steps; i++) { ...; if (maxD2 > esc) return i / steps; }
     return 1.0;] with [remaining] iterations to go. *)
Fixpoint sweep (remaining : nat) (i : float) (bodies : list Body) : option float :=
  match remaining with
  | O => Some 1
  | S r =>
      '(bodies', maxD2) ← sweepStep bodies;
      if JS.gt maxD2 esc then Some (i / steps) else sweep r (i + 1) bodies'
  end.

(** The perturbed clone of the base configuration for one grid cell. *)
Definition perturbed (gridX gridY : float) (this : t) : option (list Body) :=
  let range := baseRange this / zoom this in
  let valX := centerX this + (gridX / res this - 0.5) * 2 * range in
  let valY := centerY this + (gridY / res this - 0.5) * 2 * range in
  base ← baseConfig this;
  let bodies := jsonBody <$> base in
  bodies1 ← applyParam bodies (xAxis this) valX;
  applyParam bodies1 (yAxis this) valY.

Definition simStability (gridX gridY : float) (this : t) : option float :=
  bodies ← perturbed gridX gridY this;
  sweep 1000 0 bodies.

(** [drawPixel(x, y, score)]: the channels of the fill style
    [rgb(r,g,0)] and the rectangle filled.  [this.pixelSize] is passed as
    an argument; a channel is [None] when the source's number is [NaN] or
    an infinity. *)
Record Pixel : Type := mkPixel {
  red : option Z;
  green : option Z;
  blue : Z;
  rectX : float;
  rectY : float;
  rectW : float;
  rectH : float
}.

Definition drawPixel (pixelSize x y score : float) : Pixel :=
  let r := if score <? 0.5 then Some 255%Z
           else JS.Math_floor ((1 - score) * 510) in
  let g := if score <? 0.5 then JS.Math_floor (score * 510)
           else Some 255%Z in
  mkPixel r g 0 (x * pixelSize) (y * pixelSize) pixelSize pixelSize.

(** The two computed channels are bytes and one of them is 255. *)
Definition color_ok (score : float) : bool :=
  match red (drawPixel 0 0 0 score), green (drawPixel 0 0 0 score) with
  | Some r, Some g =>
      ((0 <=? r) && (r <=? 255) && (0 <=? g) && (g <=? 255)
       && ((r =? 255) || (g =? 255)))%Z
  | _, _ => false
  end.

(** *** The sweep step as a formula *)

(** Softened pull of [bb] on [ba], normalised by the softened distance. *)
Definition softPull (ba bb : Body) : float * float * float :=
  let dx := Vector.x (pos bb) - Vector.x (pos ba) in
  let dy := Vector.y (pos bb) - Vector.y (pos ba) in
  let dz := Vector.z (pos bb) - Vector.z (pos ba) in
  let d2 := dx * dx + dy * dy + dz * dz + 25 in
  let d := sqrt d2 in
  let f := G * mass bb / d2 in
  (f * (dx / d), f * (dy / d), f * (dz / d)).

Definition plus3 (u w : float * float * float) : float * float * float :=
  (u.1.1 + w.1.1, u.1.2 + w.1.2, u.2 + w.2).

(** Semi-implicit Euler: velocity from the accelerations at the old
    positions, then position from the new velocity. *)
Definition eulerBody (acc : float * float * float) (b : Body) : Body :=
  let v := Vector.mk (Vector.x (vel b) + acc.1.1 * dt)
                     (Vector.y (vel b) + acc.1.2 * dt)
                     (Vector.z (vel b) + acc.2 * dt) in
  let p := Vector.mk (Vector.x (pos b) + Vector.x v * dt)
                     (Vector.y (pos b) + Vector.y v * dt)
                     (Vector.z (pos b) + Vector.z v * dt) in
  mkBody p v (mass b) (radius b) (color b).

Definition squaredDistance (b : Body) : float :=
  JS.sq (Vector.x (pos b)) + JS.sq (Vector.y (pos b)) + JS.sq (Vector.z (pos b)).

(** The bodies after [k] iterations of the sweep loop. *)
Fixpoint bodiesAfter (k : nat) (bodies : list Body) : option (list Body) :=
  match k with
  | O => Some bodies
  | S k' => r ← sweepStep bodies; bodiesAfter k' r.1
  end.

(** Whether the iteration with index [k] (the first has index 0) ends
    with [maxD2 > esc]. *)
Definition escapesAt (k : nat) (bodies : list Body) : bool :=
  match bodiesAfter k bodies ≫= sweepStep with
  | Some r => JS.gt r.2 esc
  | None => false
  end.

(** The squared distances from the origin of the three bodies at the end
    of the iteration with index [k]. *)
Definition distancesAt (k : nat) (bodies : list Body) : list float :=
  match bodiesAfter k bodies ≫= sweepStep with
  | Some r => squaredDistance <$> take 3 r.1
  | None => []
  end.

(** Some body's squared distance exceeds the escape threshold; none of
    the squared distances is [NaN]. *)
Definition someBodyBeyond (k : nat) (bodies : list Body) : bool :=
  existsb (λ d, JS.gt d esc) (distancesAt k bodies).
Definition noNaN (k : nat) (bodies : list Body) : bool :=
  forallb (λ d, negb (is_nan d)) (distancesAt k bodies).

(** The index a parameter name carries, counted from 1. *)
Definition paramIndex (type : param) : nat :=
  match type with
  | MassOf n | ComponentOf _ _ n => n
  end.

(** What [applyParam] does to the body it addresses. *)
Definition perturbBody (type : param) (val : float) (b : Body) : Body :=
  match type with
  | MassOf _ => set_mass (mass b + val) b
  | ComponentOf f_pos a _ => set_pos (addComponent a val (pos b)) b
  | ComponentOf f_vel a _ => set_vel (addComponent a val (vel b)) b
  end.

(** The number [k] as the loop counter holds it. *)
Definition counter (k : nat) : float := of_uint63 (Uint63.of_Z (Z.of_nat k)).
(** The loop counter after [k] increments is the number [k], and the
    score [k / steps] lies in [0, 1], for every [k] the loop can reach. *)
Definition counter_ok (k : nat) : bool :=
  PrimFloat.Leibniz.eqb (Nat.iter k (λ c, c + 1) 0) (counter k)
  && (0 <=? counter k / steps) && (counter k / steps <=? 1).
End HeatmapExplorer.

(** ** js/explorer.js: [MatrixExplorer.generateGrid]

    The grid of 3 rows and 5 columns of variations of the base
    configuration; [variations] is the array the two loops fill, before
    [createMiniSim] is called on each entry.  The label is the pair of
    the two velocity offsets that it prints. *)

Module MatrixExplorerGrid.
Local Open Scope float_scope.

Record Variation : Type := mkVariation {
  config : list Body;
  label : float * float;
  id : nat
}.

(** The body of the loop over [c]:
    [config[2].vel.x += dvx; config[2].vel.y += dvy; variations.push(...)]
    with [dvx = (c - Math.floor(cols / 2)) * 0.4] and
    [dvy = (r - Math.floor(rows / 2)) * 0.4]. *)
Definition addVariation (baseConfig : list Body) (r c : nat)
    (variations : list Variation) : option (list Variation) :=
  let config := HeatmapExplorer.jsonBody <$> baseConfig in
  let dvx := (HeatmapExplorer.counter c - 2) * 0.4 in
  let dvy := (HeatmapExplorer.counter r - 1) * 0.4 in
  b ← config !! 2%nat;
  let config1 :=
    <[ 2%nat := set_vel (Vector.mk (Vector.x (vel b) + dvx) (Vector.y (vel b))
                               (Vector.z (vel b))) b ]> config in
  b1 ← config1 !! 2%nat;
  let config2 :=
    <[ 2%nat := set_vel (Vector.mk (Vector.x (vel b1)) (Vector.y (vel b1) + dvy)
                               (Vector.z (vel b1))) b1 ]> config1 in
  Some (variations ++ [mkVariation config2 (dvx, dvy) (length variations)]).

Definition generateGrid (baseConfig : list Body) : option (list Variation) :=
  for_range 0 3 (λ r variations,
    for_range 0 5 (λ c variations, addVariation baseConfig r c variations)
              variations) [].

(** The configuration of the cell in row [r] and column [c]: the copy of
    the base with the velocity of the third body shifted. *)
Definition shifted (baseConfig : list Body) (r c : nat) : list Body :=
  let config := HeatmapExplorer.jsonBody <$> baseConfig in
  match config !! 2%nat with
  | Some b =>
      <[ 2%nat := set_vel
                (Vector.mk (Vector.x (vel b) + (HeatmapExplorer.counter c - 2) * 0.4)
                           (Vector.y (vel b) + (HeatmapExplorer.counter r - 1) * 0.4)
                           (Vector.z (vel b))) b ]> config
  | None => config
  end.
End MatrixExplorerGrid.

(** ** js/main.js: the animation frame

    The module state that the frame reads and writes: the engine
    ([undefined] until a configuration is loaded), the pause flag, the
    speed set by the slider, and the number whose [toFixed(1)] is shown as
    the energy. *)

Module Main.
Local Open Scope float_scope.

Record State : Type := mk {
  physics : option Physics.PhysicsEngine;
  isPaused : bool;
  simulationSpeed : float;
  energyVal : option float
}.

(** [animate()], one frame:
    [if (!isPaused && physics) { const subSteps = 4;
       const dt = (simulationSpeed * 0.1) / subSteps;
       for (let i = 0; i < subSteps; i++) physics.step(dt);
       energyVal = physics.getTotalEnergy() }]. *)
Definition animate (s : State) : option State :=
  match physics s with
  | Some p =>
      if isPaused s then Some s
      else
        let dt := simulationSpeed s * 0.1 / 4 in
        p' ← for_range 0 4 (λ _ p, '(_, p') ← Physics.step dt p; Some p') p;
        '(e, p'') ← Physics.getTotalEnergy p';
        Some (mk (Some p'') (isPaused s) (simulationSpeed s) (Some e))
  | None => Some s
  end.
End Main.

(** The configuration every script starts from. *)
Definition INITIAL_CONFIG : list Body :=
  [ mkBody (Vector.mk (-100) 0 0) (Vector.mk 0 5 0.5) 20 None None;
    mkBody (Vector.mk 100 0 0) (Vector.mk 0 (-5) (-0.5)) 20 None None;
    mkBody (Vector.mk 0 (-150) 50) (Vector.mk 4 0 0) 15 None None ]%float.

(** All components finite. *)
Definition finiteVector (v : Vector.t) : bool :=
  is_finite (Vector.x v) && is_finite (Vector.y v) && is_finite (Vector.z v).

(** A body as the data model wants it: finite position and velocity, a
    finite and strictly positive mass. *)
Definition wellFormed (b : Body) : bool :=
  finiteVector (pos b) && finiteVector (vel b)
  && is_finite (mass b) && (0 <? mass b)%float.


(** A configuration in which the first two bodies coincide exactly and
    the second has a mass whose product with [G] overflows. *)
Definition COINCIDENT_CONFIG : list Body :=
  [ mkBody (Vector.mk (-100) 0 0) (Vector.mk 0 5 0.5) 20 None None;
    mkBody (Vector.mk (-100) 0 0) (Vector.mk 0 (-5) (-0.5)) 1e306 None None;
    mkBody (Vector.mk 0 (-150) 50) (Vector.mk 4 0 0) 15 None None ]%float.

(** The vector whose three components are not numbers. *)
Definition nanVector : Vector.t := Vector.mk nan nan nan.

(** Some component is not a number. *)
Definition hasNaN (v : Vector.t) : bool :=
  is_nan (Vector.x v) || is_nan (Vector.y v) || is_nan (Vector.z v).

(** An explorer whose base configuration is [COINCIDENT_CONFIG]. *)
Definition COINCIDENT_EXPLORER : HeatmapExplorer.t :=
  HeatmapExplorer.mk 200 0 0 1 8
    (HeatmapExplorer.ComponentOf HeatmapExplorer.f_vel HeatmapExplorer.ax_x 3)
    (HeatmapExplorer.ComponentOf HeatmapExplorer.f_vel HeatmapExplorer.ax_y 3)
    (Some COINCIDENT_CONFIG).
(** ** Loop reasoning *)

Lemma for_range_inv {St : Type} (P : nat → St → Prop)
    (body : nat → St → option St) (count i : nat) (s : St) :
  P i s →
  (∀ j t, i ≤ j < i + count → P j t → ∃ t', body j t = Some t' ∧ P (S j) t') →
  ∃ s', for_range i count body s = Some s' ∧ P (i + count) s'.
Proof.
  revert i s. induction count as [|c IH]; intros i s Hs Hstep; simpl.
  - exists s. split; [done|]. by rewrite Nat.add_0_r.
  - destruct (Hstep i s) as (t & Hb & Ht); [lia|done|].
    rewrite Hb. simpl.
    destruct (IH (S i) t Ht) as (s' & Hr & Hs').
    + intros j u Hj Hu. apply Hstep; [lia|done].
    + exists s'. split; [done|]. by replace (i + S c) with (S i + c) by lia.
Qed.

Section AcceleratorFacts.
Local Open Scope float_scope.
Variables G softening : float.

Lemma pull_S state k m :
  pull G softening state k (S m)
  = contribution G softening state k (pull G softening state k m) m.
Proof. unfold pull. by rewrite seq_S, foldl_app. Qed.

Lemma pull_self state k :
  pull G softening state k (S k) = pull G softening state k k.
Proof.
  rewrite pull_S. unfold contribution.
  destruct (state !! k); [|done].
  by rewrite Nat.ltb_irrefl.
Qed.

Lemma accumulatePair_inv state i j acc :
  (i < j < length state)%nat →
  partial_sums G softening state (progress (length state) i j) acc →
  ∃ acc', accumulatePair G softening state i j acc = Some acc' ∧
          partial_sums G softening state (progress (length state) i (S j)) acc'.
Proof.
  intros Hij [Hlen Hacc].
  destruct (lookup_lt_is_Some_2 state i) as [si Hsi]; [lia|].
  destruct (lookup_lt_is_Some_2 state j) as [sj Hsj]; [lia|].
  pose proof (Hacc i ltac:(lia)) as Hi.
  pose proof (Hacc j ltac:(lia)) as Hj.
  unfold progress in Hi, Hj.
  replace (i <? i)%nat with false in Hi by (symmetry; apply Nat.ltb_ge; lia).
  rewrite Nat.eqb_refl in Hi.
  replace (j <? i)%nat with false in Hj by (symmetry; apply Nat.ltb_ge; lia).
  replace (j =? i)%nat with false in Hj by (symmetry; apply Nat.eqb_neq; lia).
  rewrite Nat.ltb_irrefl in Hj.
  unfold accumulatePair. rewrite Hsi, Hsj. simpl. rewrite Hi. simpl.
  rewrite list_lookup_insert_ne by lia. rewrite Hj. simpl.
  eexists. split; [done|]. split.
  { by rewrite !length_insert. }
  intros k Hk. unfold progress.
  destruct (decide (k = j)) as [->|Hkj].
  - rewrite list_lookup_insert_eq by (rewrite length_insert; lia).
    replace (j <? i)%nat with false by (symmetry; apply Nat.ltb_ge; lia).
    replace (j =? i)%nat with false by (symmetry; apply Nat.eqb_neq; lia).
    replace (j <? S j)%nat with true by (symmetry; apply Nat.ltb_lt; lia).
    rewrite pull_S. unfold contribution. rewrite Hsi, Hsj.
    replace (j <? i)%nat with false by (symmetry; apply Nat.ltb_ge; lia).
    replace (i <? j)%nat with true by (symmetry; apply Nat.ltb_lt; lia).
    done.
  - rewrite list_lookup_insert_ne by lia.
    destruct (decide (k = i)) as [->|Hki].
    + rewrite list_lookup_insert_eq by lia.
      replace (i <? i)%nat with false by (symmetry; apply Nat.ltb_ge; lia).
      rewrite Nat.eqb_refl.
      rewrite pull_S. unfold contribution. rewrite Hsi, Hsj.
      replace (i <? j)%nat with true by (symmetry; apply Nat.ltb_lt; lia).
      done.
    + rewrite list_lookup_insert_ne by lia.
      rewrite (Hacc k Hk). unfold progress.
      destruct (k <? i)%nat eqn:E1; [done|].
      replace (k =? i)%nat with false by (symmetry; apply Nat.eqb_neq; lia).
      destruct (k <? j)%nat eqn:E2.
      * apply Nat.ltb_lt in E2.
        by replace (k <? S j)%nat with true by (symmetry; apply Nat.ltb_lt; lia).
      * apply Nat.ltb_ge in E2.
        by replace (k <? S j)%nat with false by (symmetry; apply Nat.ltb_ge; lia).
Qed.

Lemma inner_loop_inv state i acc :
  (i < length state)%nat →
  partial_sums G softening state (progress (length state) i i) acc →
  ∃ acc',
    for_range (S i) (length state - S i)
      (λ j acc, accumulatePair G softening state i j acc) acc = Some acc' ∧
    partial_sums G softening state (progress (length state) (S i) (S i)) acc'.
Proof.
  intros Hi [Hlen Hacc].
  destruct (for_range_inv
              (λ j acc, partial_sums G softening state (progress (length state) i j) acc)
              (λ j acc, accumulatePair G softening state i j acc)
              (length state - S i) (S i) acc) as (acc' & Hrun & [Hlen' Hacc']).
  - split; [done|]. intros k Hk. rewrite (Hacc k Hk). unfold progress.
    destruct (k <? i)%nat eqn:E1; [done|].
    destruct (k =? i)%nat eqn:E2.
    + apply Nat.eqb_eq in E2. subst k. by rewrite pull_self.
    + apply Nat.ltb_ge in E1. apply Nat.eqb_neq in E2.
      replace (k <? i)%nat with false by (symmetry; apply Nat.ltb_ge; lia).
      by replace (k <? S i)%nat with false by (symmetry; apply Nat.ltb_ge; lia).
  - intros j t Hj Ht. apply accumulatePair_inv; [lia|done].
  - exists acc'. split; [done|]. split; [done|].
    intros k Hk. rewrite (Hacc' k Hk). unfold progress.
    replace (S i + (length state - S i))%nat with (length state) by lia.
    destruct (k <? i)%nat eqn:E1.
    + apply Nat.ltb_lt in E1.
      by replace (k <? S i)%nat with true by (symmetry; apply Nat.ltb_lt; lia).
    + apply Nat.ltb_ge in E1.
      destruct (k =? i)%nat eqn:E2.
      * apply Nat.eqb_eq in E2. subst k.
        by replace (i <? S i)%nat with true by (symmetry; apply Nat.ltb_lt; lia).
      * apply Nat.eqb_neq in E2.
        replace (k <? length state)%nat with true by (symmetry; apply Nat.ltb_lt; lia).
        replace (k <? S i)%nat with false by (symmetry; apply Nat.ltb_ge; lia).
        destruct (k =? S i)%nat eqn:E3; [|done].
        apply Nat.eqb_eq in E3. by subst k.
Qed.

(** The loops of [getAccelerations] never fail and compute, for every
    body, the ordered sum of its pairwise pulls. *)
Lemma getAccelerations_accelerations state :
  getAccelerations G softening state = Some (accelerations G softening state).
Proof.
  unfold getAccelerations.
  destruct (for_range_inv
              (λ i acc, partial_sums G softening state (progress (length state) i i) acc)
              (λ i acc, for_range (S i) (length state - S i)
                          (λ j acc, accumulatePair G softening state i j acc) acc)
              (length state) 0 (replicate (length state) Vector.zero))
    as (acc' & Hrun & [Hlen Hacc]).
  - split; [by rewrite length_replicate|].
    intros k Hk. rewrite lookup_replicate_2 by done.
    unfold progress. simpl. destruct k; done.
  - intros i t Hi Ht. apply inner_loop_inv; [lia|done].
  - rewrite Hrun. f_equal. apply list_eq. intros k.
    unfold accelerations. rewrite list_lookup_fmap.
    destruct (decide (k < length state)%nat) as [Hk|Hk].
    + rewrite (Hacc k Hk). rewrite lookup_seq_lt by done. simpl.
      unfold progress. simpl.
      by replace (k <? length state)%nat with true by (symmetry; apply Nat.ltb_lt; lia).
    + rewrite lookup_ge_None_2 by lia.
      by rewrite lookup_seq_ge by lia.
Qed.
End AcceleratorFacts.

(** ** The RK4 step *)

Lemma length_accelerations G softening state :
  length (accelerations G softening state) = length state.
Proof. unfold accelerations. by rewrite length_fmap, length_seq. Qed.

Lemma length_cloneState bodies : length (cloneState bodies) = length bodies.
Proof. unfold cloneState. by rewrite length_fmap. Qed.

Lemma length_advanced state v a h :
  length v = length state → length a = length state →
  length (advanced state v a h) = length state.
Proof.
  intros Hv Ha. unfold advanced.
  rewrite length_fmap, !length_zip. lia.
Qed.

Lemma stage_from state v a h i :
  length (drop i v) = length state → length (drop i a) = length state →
  map_index (λ s k,
      vi ← v !! k;
      ai ← a !! k;
      Some (mkBody (Vector.add (pos s) (Vector.mult vi h))
                   (Vector.add (vel s) (Vector.mult ai h))
                   (mass s) None None)) i state
  = Some (advanced state (drop i v) (drop i a) h).
Proof.
  revert i. induction state as [|s rest IH]; intros i Hv Ha; [done|].
  simpl in Hv, Ha. rewrite length_drop in Hv, Ha.
  destruct (lookup_lt_is_Some_2 v i) as [vi Hvi]; [lia|].
  destruct (lookup_lt_is_Some_2 a i) as [ai Hai]; [lia|].
  simpl. rewrite Hvi, Hai. simpl.
  rewrite (IH (S i)) by (rewrite length_drop; lia). simpl.
  by rewrite (drop_S _ _ _ Hvi), (drop_S _ _ _ Hai).
Qed.

Lemma stage_advanced state v a h :
  length v = length state → length a = length state →
  stage state v a h = Some (advanced state v a h).
Proof. intros Hv Ha. unfold stage. by rewrite stage_from. Qed.

Section CommitLoop.
Variables k1 k2 k3 k4 w1 w2 w3 w4 : list Vector.t.
Variable dt : float.
Variable bodies : list Body.
Hypothesis Hk1 : length k1 = length bodies.
Hypothesis Hk2 : length k2 = length bodies.
Hypothesis Hk3 : length k3 = length bodies.
Hypothesis Hk4 : length k4 = length bodies.
Hypothesis Hw1 : length w1 = length bodies.
Hypothesis Hw2 : length w2 = length bodies.
Hypothesis Hw3 : length w3 = length bodies.
Hypothesis Hw4 : length w4 = length bodies.

Local Abbreviation updated := (updated k1 k2 k3 k4 w1 w2 w3 w4 dt).
Local Abbreviation committed_to := (committed_to k1 k2 k3 k4 w1 w2 w3 w4 dt bodies).

Lemma commit_inv i cur :
  i < length bodies → committed_to i cur →
  ∃ cur', commit k1 k2 k3 k4 w1 w2 w3 w4 dt i cur = Some cur' ∧
          committed_to (S i) cur'.
Proof.
  intros Hi (Hlen & Hrest & Hdone).
  destruct (lookup_lt_is_Some_2 k1 i) as [a1i E1]; [lia|].
  destruct (lookup_lt_is_Some_2 k2 i) as [a2i E2]; [lia|].
  destruct (lookup_lt_is_Some_2 k3 i) as [a3i E3]; [lia|].
  destruct (lookup_lt_is_Some_2 k4 i) as [a4i E4]; [lia|].
  destruct (lookup_lt_is_Some_2 w1 i) as [v1i F1]; [lia|].
  destruct (lookup_lt_is_Some_2 w2 i) as [v2i F2]; [lia|].
  destruct (lookup_lt_is_Some_2 w3 i) as [v3i F3]; [lia|].
  destruct (lookup_lt_is_Some_2 w4 i) as [v4i F4]; [lia|].
  destruct (lookup_lt_is_Some_2 bodies i) as [b Hb]; [lia|].
  unfold commit. rewrite E1, E2, E3, E4, F1, F2, F3, F4. simpl.
  rewrite (Hrest i) by lia. rewrite Hb. simpl.
  eexists. split; [done|]. split; [by rewrite length_insert|]. split.
  - intros k Hk. rewrite list_lookup_insert_ne by lia. apply Hrest. lia.
  - intros k b' Hk Hb'. destruct (decide (k = i)) as [->|Hne].
    + assert (b' = b) as -> by congruence.
      exists a1i, a2i, a3i, a4i, v1i, v2i, v3i, v4i.
      rewrite list_lookup_insert_eq by lia. done.
    + destruct (Hdone k b') as (x1 & x2 & x3 & x4 & y1 & y2 & y3 & y4 & H);
        [lia|done|].
      exists x1, x2, x3, x4, y1, y2, y3, y4.
      rewrite list_lookup_insert_ne by lia. done.
Qed.

Lemma commit_loop :
  ∃ bodies',
    for_range 0 (length bodies) (commit k1 k2 k3 k4 w1 w2 w3 w4 dt) bodies
      = Some bodies' ∧
    length bodies' = length bodies ∧
    ∀ i b, bodies !! i = Some b → updated bodies' i b.
Proof.
  destruct (for_range_inv committed_to (commit k1 k2 k3 k4 w1 w2 w3 w4 dt)
              (length bodies) 0 bodies) as (bodies' & Hrun & Hlen & _ & Hdone).
  - split; [done|]. split; [done|]. intros k b Hk. lia.
  - intros j t Hj Ht. apply commit_inv; [lia|done].
  - exists bodies'. split; [done|]. split; [done|].
    intros i b Hb. apply Hdone; [|done].
    apply lookup_lt_Some in Hb. lia.
Qed.
End CommitLoop.

Lemma rk4Step_stages G softening dt bodies :
  let st := rk4Stages G softening dt bodies in
  rk4Step G softening dt bodies
  = for_range 0 (length bodies)
      (commit (a1 st) (a2 st) (a3 st) (a4 st) (v1 st) (v2 st) (v3 st) (v4 st) dt)
      bodies ∧
  length (a1 st) = length bodies ∧ length (a2 st) = length bodies ∧
  length (a3 st) = length bodies ∧ length (a4 st) = length bodies ∧
  length (v1 st) = length bodies ∧ length (v2 st) = length bodies ∧
  length (v3 st) = length bodies ∧ length (v4 st) = length bodies.
Proof.
  simpl. unfold rk4Step.
  set (base := cloneState bodies).
  assert (Hbase : length base = length bodies) by apply length_cloneState.
  rewrite getAccelerations_accelerations. simpl.
  set (k1 := accelerations G softening base).
  assert (Hk1 : length k1 = length base) by apply length_accelerations.
  assert (Hw1 : length (vel <$> base) = length base) by apply length_fmap.
  rewrite stage_advanced by done. simpl.
  set (s2 := advanced base (vel <$> base) k1 _).
  assert (Hs2 : length s2 = length base) by (by apply length_advanced).
  rewrite getAccelerations_accelerations. simpl.
  set (k2 := accelerations G softening s2).
  assert (Hk2 : length k2 = length base)
    by (unfold k2; by rewrite length_accelerations).
  assert (Hw2 : length (vel <$> s2) = length base) by (by rewrite length_fmap).
  rewrite stage_advanced by done. simpl.
  set (s3 := advanced base (vel <$> s2) k2 _).
  assert (Hs3 : length s3 = length base) by (by apply length_advanced).
  rewrite getAccelerations_accelerations. simpl.
  set (k3 := accelerations G softening s3).
  assert (Hk3 : length k3 = length base)
    by (unfold k3; by rewrite length_accelerations).
  assert (Hw3 : length (vel <$> s3) = length base) by (by rewrite length_fmap).
  rewrite stage_advanced by done. simpl.
  set (s4 := advanced base (vel <$> s3) k3 dt).
  assert (Hs4 : length s4 = length base) by (by apply length_advanced).
  rewrite getAccelerations_accelerations. simpl.
  set (k4 := accelerations G softening s4).
  assert (Hk4 : length k4 = length base)
    by (unfold k4; by rewrite length_accelerations).
  assert (Hw4 : length (vel <$> s4) = length base) by (by rewrite length_fmap).
  repeat split; congruence.
Qed.

(** ** Facts of binary64 arithmetic *)

Section FloatFacts.
Local Open Scope float_scope.

(** Subtracting is adding the opposite: the two roundings agree. *)
Lemma SFsub_SFadd_opp x y :
  SFsub prec emax x y = SFadd prec emax x (SFopp y).
Proof.
  destruct x as [sx|sx| |sx mx ex], y as [sy|sy| |sy my ey]; simpl;
    try reflexivity;
    destruct sx, sy; reflexivity.
Qed.

Lemma sub_add_opp (a b : float) : a - b = a + - b.
Proof.
  apply Prim2SF_inj.
  rewrite sub_spec, add_spec, opp_spec. apply SFsub_SFadd_opp.
Qed.
End FloatFacts.

Section FloatOrder.

Lemma lexcmp_spec e1 m1 e2 m2 :
  CompareSpec (e1 = e2 ∧ m1 = m2)
              (e1 < e2 ∨ e1 = e2 ∧ Z.pos m1 < Z.pos m2)%Z
              (e2 < e1 ∨ e1 = e2 ∧ Z.pos m2 < Z.pos m1)%Z
              (lexcmp e1 m1 e2 m2).
Proof.
  unfold lexcmp. destruct (Z.compare_spec e1 e2) as [He|He|He].
  - change (Pos.compare_cont Eq m1 m2) with (m1 ?= m2)%positive.
    destruct (Pos.compare_spec m1 m2) as [Hm|Hm|Hm]; constructor; lia.
  - constructor; lia.
  - constructor; lia.
Qed.

Lemma SFcompare_finite s1 m1 e1 s2 m2 e2 :
  SFcompare (S754_finite s1 m1 e1) (S754_finite s2 m2 e2)
  = Some (match s1, s2 with
          | true, false => Lt
          | false, true => Gt
          | false, false => lexcmp e1 m1 e2 m2
          | true, true => CompOpp (lexcmp e1 m1 e2 m2)
          end).
Proof.
  unfold lexcmp. simpl. destruct s1, s2; try reflexivity.
  by destruct (e1 ?= e2)%Z.
Qed.

Lemma lexcmp_antisym e1 m1 e2 m2 :
  lexcmp e2 m2 e1 m1 = CompOpp (lexcmp e1 m1 e2 m2).
Proof.
  destruct (lexcmp_spec e1 m1 e2 m2), (lexcmp_spec e2 m2 e1 m1);
    simpl; try reflexivity; lia.
Qed.

Lemma SFcompare_antisym x y :
  SFcompare y x = CompOpp <$> SFcompare x y.
Proof.
  destruct x as [sx|sx| |sx mx ex], y as [sy|sy| |sy my ey];
    try (simpl; try destruct sx; try destruct sy; reflexivity).
  rewrite !SFcompare_finite. simpl. f_equal.
  rewrite (lexcmp_antisym ex mx ey my).
  by destruct sx, sy.
Qed.

Lemma SFcompare_total x y :
  x ≠ S754_nan → y ≠ S754_nan → ∃ c, SFcompare x y = Some c.
Proof.
  intros Hx Hy.
  destruct x as [sx|sx| |sx mx ex], y as [sy|sy| |sy my ey];
    try congruence; simpl; eauto.
Qed.

Lemma SFcompare_Lt_trans x y z :
  SFcompare x y = Some Lt → SFcompare y z = Some Lt → SFcompare x z = Some Lt.
Proof.
  destruct x as [sx|sx| |sx mx ex], y as [sy|sy| |sy my ey],
           z as [sz|sz| |sz mz ez];
    rewrite ?SFcompare_finite;
    try (simpl; try destruct sx; try destruct sy; try destruct sz;
         simpl; congruence).
  destruct sx, sy, sz; try congruence; intros H1 H2;
    injection H1 as H1; injection H2 as H2; f_equal;
    destruct (lexcmp_spec ex mx ey my), (lexcmp_spec ey my ez mz),
             (lexcmp_spec ex mx ez mz); simpl in *; try congruence; lia.
Qed.

Lemma SFcompare_Eq_r x y z :
  SFcompare y z = Some Eq → SFcompare x y = SFcompare x z.
Proof.
  destruct x as [sx|sx| |sx mx ex], y as [sy|sy| |sy my ey],
           z as [sz|sz| |sz mz ez];
    rewrite ?SFcompare_finite;
    try (simpl; try destruct sx; try destruct sy; try destruct sz;
         simpl; congruence).
  destruct sx, sy, sz; try congruence; intros H2;
    injection H2 as H2; f_equal;
    destruct (lexcmp_spec ex mx ey my), (lexcmp_spec ey my ez mz),
             (lexcmp_spec ex mx ez mz); simpl in *; try congruence; lia.
Qed.
End FloatOrder.

Section FloatSigns.

Lemma iter_pos_inv {A : Type} (P : A → Prop) (f : A → A) :
  (∀ a, P a → P (f a)) → ∀ p a, P a → P (SpecFloat.iter_pos f p a).
Proof.
  intros Hf. induction p as [p IH|p IH|]; intros a Ha; simpl; auto.
Qed.

Lemma shr_1_nonneg mrs : (0 ≤ shr_m mrs)%Z → (0 ≤ shr_m (shr_1 mrs))%Z.
Proof.
  destruct mrs as [m r s]. simpl.
  destruct m as [|p|p]; [done| |lia].
  intros _. destruct p; simpl; lia.
Qed.

Lemma shr_fexp_nonneg m e l :
  (0 ≤ m)%Z → (0 ≤ shr_m (shr_fexp prec emax m e l).1)%Z.
Proof.
  intros Hm. unfold shr_fexp, shr.
  assert (H0 : (0 ≤ shr_m (shr_record_of_loc m l))%Z).
  { destruct l as [|[]]; simpl; done. }
  destruct (fexp prec emax (Zdigits2 m + e) - e)%Z; simpl; try done.
  apply (iter_pos_inv (λ mrs, (0 ≤ shr_m mrs)%Z)); [apply shr_1_nonneg|done].
Qed.

Lemma round_nearest_even_nonneg m l :
  (0 ≤ m)%Z → (0 ≤ round_nearest_even m l)%Z.
Proof.
  intros Hm. destruct l as [|[]]; simpl; try lia.
  destruct (Z.even m); lia.
Qed.

Lemma binary_round_aux_sign sx mx ex lx :
  (0 ≤ mx)%Z → signed_like sx (binary_round_aux prec emax sx mx ex lx).
Proof.
  intros Hm. unfold binary_round_aux.
  pose proof (shr_fexp_nonneg mx ex lx Hm) as H1.
  destruct (shr_fexp prec emax mx ex lx) as [mrs' e'] eqn:E1. simpl in H1.
  pose proof (shr_fexp_nonneg
                (round_nearest_even (shr_m mrs') (loc_of_shr_record mrs'))
                e' loc_Exact (round_nearest_even_nonneg _ _ H1)) as H2.
  destruct (shr_fexp prec emax _ e' loc_Exact) as [mrs'' e''] eqn:E2.
  simpl in H2.
  destruct (shr_m mrs'') as [|p|p]; simpl; [done| |lia].
  by destruct (e'' <=? emax - prec)%Z.
Qed.

Lemma binary_round_sign sx mx ex :
  signed_like sx (binary_round prec emax sx mx ex).
Proof.
  unfold binary_round.
  destruct (shl_align mx ex _) as [mz ez].
  by apply binary_round_aux_sign.
Qed.

Lemma binary_normalize_nonneg m e :
  (0 ≤ m)%Z → nonneg (binary_normalize prec emax m e false) = true.
Proof.
  intros Hm. destruct m as [|p|p]; simpl; [done| |lia].
  pose proof (binary_round_sign false p e) as H.
  destruct (binary_round prec emax false p e); simpl in *; subst; done.
Qed.

Lemma SFadd_nonneg x y :
  nonneg x = true → nonneg y = true → nonneg (SFadd prec emax x y) = true.
Proof.
  destruct x as [sx|sx| |sx mx ex], y as [sy|sy| |sy my ey]; simpl;
    try done; try (destruct sx, sy; done).
  intros Hx Hy. destruct sx, sy; try done.
  apply binary_normalize_nonneg. simpl. lia.
Qed.

Lemma SFmul_nonneg x y :
  nonneg x = true → nonneg y = true →
  SFmul prec emax x y = S754_nan ∨ nonneg (SFmul prec emax x y) = true.
Proof.
  destruct x as [sx|sx| |sx mx ex], y as [sy|sy| |sy my ey]; simpl;
    try done; try (destruct sx, sy; simpl; auto; done); auto.
  intros Hx Hy. destruct sx, sy; try done. right.
  pose proof (binary_round_aux_sign false (Z.pos (mx * my)) (ex + ey) loc_Exact
                ltac:(lia)) as H.
  simpl. destruct (binary_round_aux _ _ _ _ _ _); simpl in *; subst; done.
Qed.
End FloatSigns.

Section FloatDifference.

Lemma digits2_pos_bounds m :
  (2 ^ (Z.pos (digits2_pos m) - 1) ≤ Z.pos m < 2 ^ Z.pos (digits2_pos m))%Z.
Proof.
  induction m as [p IH|p IH|]; simpl digits2_pos.
  - rewrite Pos2Z.inj_succ, (Pos2Z.inj_xI p).
    replace (Z.succ (Z.pos (digits2_pos p)) - 1)%Z
      with (Z.succ (Z.pos (digits2_pos p) - 1)) by lia.
    rewrite !Z.pow_succ_r by lia. lia.
  - rewrite Pos2Z.inj_succ, (Pos2Z.inj_xO p).
    replace (Z.succ (Z.pos (digits2_pos p)) - 1)%Z
      with (Z.succ (Z.pos (digits2_pos p) - 1)) by lia.
    rewrite !Z.pow_succ_r by lia. lia.
  - simpl. lia.
Qed.

Lemma valid_finite_bounds s m e :
  valid_binary (S754_finite s m e) = true →
  (Z.pos m < 2 ^ 53 ∧ -1074 ≤ e ∧ (-1074 < e → 2 ^ 52 ≤ Z.pos m))%Z.
Proof.
  simpl. unfold bounded, canonical_mantissa, fexp, SpecFloat.emin, prec, emax.
  intros H. apply andb_prop in H as [H _]. apply Z.eqb_eq in H.
  pose proof (digits2_pos_bounds m) as [Hlo Hhi].
  set (d := Z.pos (digits2_pos m)) in *.
  assert (Hd : (d ≤ 53)%Z) by lia.
  split; [|split].
  - eapply Z.lt_le_trans; [exact Hhi|]. apply Z.pow_le_mono_r; lia.
  - lia.
  - intros He. assert (d = 53)%Z as Hd53 by lia.
    rewrite Hd53 in Hlo. exact Hlo.
Qed.

Lemma iter_xO_pow m d : Z.pos (Pos.iter xO m d) = (Z.pos m * 2 ^ Z.pos d)%Z.
Proof.
  induction d as [|d IH] using Pos.peano_ind.
  - simpl. lia.
  - rewrite Pos.iter_succ, (Pos2Z.inj_xO (Pos.iter xO m d)), IH, Pos2Z.inj_succ.
    rewrite Z.pow_succ_r by lia. lia.
Qed.

Lemma SFsub_nonneg x mh eh :
  valid_binary x = true → valid_binary (S754_finite false mh eh) = true →
  SFleb (S754_finite false mh eh) x = true →
  nonneg (SFsub prec emax x (S754_finite false mh eh)) = true.
Proof.
  intros Vx Vh Hle. unfold SFleb in Hle.
  destruct x as [sx|sx| |sx mx ex];
    try (simpl in *; first [done | by destruct sx]).
  rewrite SFcompare_finite in Hle.
  destruct sx; [done|].
  destruct (valid_finite_bounds _ _ _ Vx) as (Hmx & Hex & Hnx).
  destruct (valid_finite_bounds _ _ _ Vh) as (Hmh & Heh & Hnh).
  simpl. apply binary_normalize_nonneg. simpl.
  destruct (lexcmp_spec eh mh ex mx) as [[-> ->]|Hlt|Hgt]; [| |done].
  - rewrite Z.min_id. unfold shl_align. rewrite Z.sub_diag. simpl. lia.
  - destruct Hlt as [Hlt|[-> Hlt]].
    + rewrite Z.min_r by lia. unfold shl_align.
      rewrite Z.sub_diag.
      destruct (eh - ex)%Z as [|d|d] eqn:Ed; try lia. simpl.
      rewrite iter_xO_pow.
      assert (2 ≤ 2 ^ Z.pos d)%Z.
      { change 2%Z with (2 ^ 1)%Z at 1. apply Z.pow_le_mono_r; lia. }
      specialize (Hnx ltac:(lia)). nia.
    + rewrite Z.min_id. unfold shl_align. rewrite Z.sub_diag. simpl. lia.
Qed.
End FloatDifference.

Section FloatLevel.
Local Open Scope float_scope.

Lemma leb_0_nonneg a : (0 <=? a) = nonneg (Prim2SF a).
Proof.
  rewrite FloatAxioms.leb_spec. change (Prim2SF 0) with (S754_zero false).
  unfold SFleb. destruct (Prim2SF a) as [s|s| |s m e]; simpl; try done;
    by destruct s.
Qed.

Lemma add_nonneg a b :
  (0 <=? a) = true → (0 <=? b) = true → (0 <=? a + b) = true.
Proof.
  rewrite !leb_0_nonneg, add_spec. apply SFadd_nonneg.
Qed.

Lemma finite_positive_spec h :
  is_finite h = true → (0 <? h) = true →
  ∃ m e, Prim2SF h = S754_finite false m e.
Proof.
  unfold is_finite, is_nan, is_infinity. intros Hfin Hpos.
  rewrite !FloatAxioms.eqb_spec, abs_spec in Hfin. rewrite FloatAxioms.ltb_spec in Hpos.
  change (Prim2SF 0) with (S754_zero false) in Hpos.
  change (Prim2SF infinity) with (S754_infinity false) in Hfin.
  destruct (Prim2SF h) as [s|s| |s m e].
  - by vm_compute in Hpos.
  - destruct s; by vm_compute in Hfin.
  - by vm_compute in Hpos.
  - destruct s; [by vm_compute in Hpos|eauto].
Qed.

Lemma sub_nonneg x h :
  is_finite h = true → (0 <? h) = true → (h <=? x) = true →
  (0 <=? x - h) = true.
Proof.
  intros Hfin Hpos Hle.
  destruct (finite_positive_spec h Hfin Hpos) as (m & e & Hh).
  rewrite leb_0_nonneg, sub_spec, Hh.
  rewrite FloatAxioms.leb_spec, Hh in Hle.
  apply SFsub_nonneg; [apply Prim2SF_valid| |done].
  rewrite <- Hh. apply Prim2SF_valid.
Qed.

Lemma not_leb_ltb h x :
  (0 <? h) = true → (0 <=? x) = true → (h <=? x) = false → (x <? h) = true.
Proof.
  intros Hh Hx Hle.
  rewrite leb_0_nonneg in Hx. rewrite FloatAxioms.ltb_spec in Hh. rewrite FloatAxioms.leb_spec in Hle.
  rewrite FloatAxioms.ltb_spec.
  change (Prim2SF 0) with (S754_zero false) in Hh.
  unfold SFltb, SFleb in *.
  rewrite (SFcompare_antisym (Prim2SF h) (Prim2SF x)).
  destruct (SFcompare_total (Prim2SF h) (Prim2SF x)) as [c Hc].
  - intros E. rewrite E in Hh. done.
  - intros E. rewrite E in Hx. done.
  - rewrite Hc in Hle |- *. by destruct c.
Qed.
End FloatLevel.

(** ** Comparisons, [Math.max] and products with zero *)

Section FloatCompare.
Local Open Scope float_scope.

Lemma SFcompare_refl x : x ≠ S754_nan → SFcompare x x = Some Eq.
Proof.
  intros Hx. destruct x as [s|s| |s m e]; try done.
  - by destruct s.
  - rewrite SFcompare_finite.
    destruct (lexcmp_spec e m e m) as [_|H|H]; [by destruct s| |]; lia.
Qed.

Lemma is_nan_spec a :
  is_nan a = match Prim2SF a with S754_nan => true | _ => false end.
Proof.
  unfold is_nan. rewrite FloatAxioms.eqb_spec. unfold SFeqb.
  destruct (Prim2SF a) as [s|s| |s m e] eqn:E; try done;
    by rewrite SFcompare_refl.
Qed.

Lemma not_nan_spec a : is_nan a = false → Prim2SF a ≠ S754_nan.
Proof. rewrite is_nan_spec. intros H E. by rewrite E in H. Qed.

Lemma ltb_trans t a b :
  (t <? a) = true → (a <? b) = true → (t <? b) = true.
Proof.
  rewrite !FloatAxioms.ltb_spec. unfold SFltb. intros H1 H2.
  destruct (SFcompare (Prim2SF t) (Prim2SF a)) as [[]|] eqn:E1; try done.
  destruct (SFcompare (Prim2SF a) (Prim2SF b)) as [[]|] eqn:E2; try done.
  by rewrite (SFcompare_Lt_trans _ _ _ E1 E2).
Qed.

Lemma ltb_neither t a b :
  is_nan a = false → is_nan b = false →
  (a <? b) = false → (b <? a) = false → (t <? a) = (t <? b).
Proof.
  intros Ha Hb. rewrite !FloatAxioms.ltb_spec. unfold SFltb. intros H1 H2.
  destruct (SFcompare_total (Prim2SF a) (Prim2SF b)) as [c Hc];
    [by apply not_nan_spec|by apply not_nan_spec|].
  rewrite (SFcompare_antisym (Prim2SF a) (Prim2SF b)), Hc in H2.
  rewrite Hc in H1.
  destruct c; try done.
  by rewrite (SFcompare_Eq_r (Prim2SF t) _ _ Hc).
Qed.

Lemma Math_max_gt a b t :
  is_nan a = false → is_nan b = false →
  is_nan (JS.Math_max a b) = false ∧
  JS.gt (JS.Math_max a b) t = JS.gt a t || JS.gt b t.
Proof.
  intros Ha Hb. unfold JS.Math_max, JS.gt. rewrite Ha, Hb. simpl.
  destruct (a <? b) eqn:Hab.
  - split; [done|]. destruct (t <? a) eqn:Hta; [|done].
    by rewrite (ltb_trans _ _ _ Hta Hab).
  - destruct (b <? a) eqn:Hba.
    + split; [done|]. destruct (t <? b) eqn:Htb; [|by rewrite orb_false_r].
      rewrite (ltb_trans _ _ _ Htb Hba). done.
    + pose proof (ltb_neither t a b Ha Hb Hab Hba) as E.
      rewrite E, orb_diag. by destruct (is_zero a && get_sign a).
Qed.

Lemma ltb_nan_r t : (t <? nan) = false.
Proof.
  rewrite FloatAxioms.ltb_spec. change (Prim2SF nan) with S754_nan.
  unfold SFltb. by destruct (Prim2SF t).
Qed.

(** A result of [Math.max] that exceeds something is one of the
    arguments. *)
Lemma Math_max_gt_arg a b t :
  JS.gt (JS.Math_max a b) t = true → JS.gt a t = true ∨ JS.gt b t = true.
Proof.
  unfold JS.Math_max.
  unfold JS.gt at 1.
  destruct (is_nan a || is_nan b); [by rewrite ltb_nan_r|]. fold (JS.gt).
  destruct (a <? b); [auto|]. destruct (b <? a); [auto|].
  destruct (is_zero a && get_sign a); auto.
Qed.

End FloatCompare.

(** ** The energy loops *)

Section EnergyFacts.
Local Open Scope float_scope.
Variable G : float.

Lemma drop_cons_lookup {A : Type} (l : list A) (j : nat) (a : A) (rest : list A) :
  drop j l = a :: rest → l !! j = Some a ∧ drop (S j) l = rest.
Proof.
  intros H. assert (Hj : l !! j = Some a).
  { rewrite <- (Nat.add_0_r j), <- lookup_drop, H. done. }
  split; [done|]. rewrite (drop_S _ _ _ Hj) in H. congruence.
Qed.

Lemma subPotential_add bodies i j bi bj pe :
  bodies !! i = Some bi → bodies !! j = Some bj →
  subPotential G bodies i j pe = Some (pe + potential G bi bj).
Proof.
  intros Hi Hj. unfold subPotential. rewrite Hi, Hj. simpl.
  f_equal. unfold potential. apply sub_add_opp.
Qed.

Lemma potential_row bodies i bi suffix : ∀ j pe,
  bodies !! i = Some bi → drop j bodies = suffix →
  for_range j (length suffix) (subPotential G bodies i) pe
  = Some (foldl (λ s bj, s + potential G bi bj) pe suffix).
Proof.
  induction suffix as [|bj rest IH]; intros j pe Hi Hj; [done|].
  destruct (drop_cons_lookup _ _ _ _ Hj) as [Hbj Hrest].
  simpl. rewrite (subPotential_add _ _ _ _ _ _ Hi Hbj). simpl.
  by rewrite (IH (S j)).
Qed.

Lemma energy_rows bodies suffix : ∀ i ke pe,
  drop i bodies = suffix →
  for_range i (length suffix) (λ i '(ke, pe),
      bi ← bodies !! i;
      let ke' := addKinetic bi ke in
      pe' ← for_range (S i) (length bodies - S i) (subPotential G bodies i) pe;
      Some (ke', pe')) (ke, pe)
  = Some (foldl (λ s b, s + kinetic b) ke suffix,
          foldl (λ s '(bi, bj), s + potential G bi bj) pe (pairs suffix)).
Proof.
  induction suffix as [|bi rest IH]; intros i ke pe Hi; [done|].
  destruct (drop_cons_lookup _ _ _ _ Hi) as [Hbi Hrest].
  assert (Hlen : (length bodies - S i)%nat = length rest).
  { rewrite <- Hrest, length_drop. done. }
  simpl. rewrite Hbi. simpl. rewrite Hlen.
  rewrite (potential_row bodies i bi rest (S i) pe Hbi Hrest). simpl.
  rewrite (IH (S i)) by done. f_equal. f_equal.
  rewrite foldl_app, foldl_fmap. done.
Qed.

Lemma totalEnergy_sums bodies :
  totalEnergy G bodies = Some (kineticSum bodies + potentialSum G bodies).
Proof.
  pose proof (energy_rows bodies bodies 0 0 0 eq_refl) as H.
  unfold totalEnergy. cbv zeta in H |- *. by rewrite H.
Qed.
End EnergyFacts.

(** ** The escape predicate *)

Lemma anyBeyond_exists threshold bodies :
  anyBeyond threshold bodies = true ↔
  ∃ b, b ∈ bodies ∧ JS.gt (Vector.mag (pos b)) threshold = true.
Proof.
  induction bodies as [|b rest IH]; simpl.
  - split; [done|]. intros (b & Hb & _). by apply elem_of_nil in Hb.
  - destruct (JS.gt (Vector.mag (pos b)) threshold) eqn:E.
    + split; [|done]. intros _. exists b. split; [left|done].
    + rewrite IH. split.
      * intros (c & Hc & Hgt). exists c. split; [by right|done].
      * intros (c & Hc & Hgt). apply elem_of_cons in Hc as [->|Hc].
        -- congruence.
        -- by exists c.
Qed.

(** ** The heatmap sweep *)

Section SweepFacts.
Local Open Scope float_scope.
Import HeatmapExplorer.


(** The three accelerations and the three updated bodies of one sweep
    step on [b0; b1; b2]. *)
Lemma sweepStep_three b0 b1 b2 rest :
  let acc0 := plus3 (plus3 (0, 0, 0) (softPull b0 b1)) (softPull b0 b2) in
  let acc1 := plus3 (plus3 (0, 0, 0) (softPull b1 b0)) (softPull b1 b2) in
  let acc2 := plus3 (plus3 (0, 0, 0) (softPull b2 b0)) (softPull b2 b1) in
  let e0 := eulerBody acc0 b0 in
  let e1 := eulerBody acc1 b1 in
  let e2 := eulerBody acc2 b2 in
  sweepStep (b0 :: b1 :: b2 :: rest)
  = Some (e0 :: e1 :: e2 :: rest,
          JS.Math_max
            (JS.Math_max (JS.Math_max 0 (squaredDistance e0)) (squaredDistance e1))
            (squaredDistance e2)).
Proof. reflexivity. Qed.

Lemma sweepStep_total bodies :
  (3 ≤ length bodies)%nat →
  ∃ r, sweepStep bodies = Some r ∧ length r.1 = length bodies.
Proof.
  intros Hlen.
  destruct bodies as [|b0 [|b1 [|b2 rest]]]; simpl in Hlen; try lia.
  eexists. split; [apply sweepStep_three|]. done.
Qed.
End SweepFacts.

Section SweepLoop.
Local Open Scope float_scope.
Import HeatmapExplorer.

Lemma escapesAt_0 bodies r :
  sweepStep bodies = Some r → escapesAt 0 bodies = JS.gt r.2 esc.
Proof. intros H. unfold escapesAt. simpl. by rewrite H. Qed.

Lemma escapesAt_S bodies r k :
  sweepStep bodies = Some r → escapesAt (S k) bodies = escapesAt k r.1.
Proof. intros H. unfold escapesAt. simpl. by rewrite H. Qed.

Lemma sweep_outcome remaining : ∀ i bodies,
  (3 ≤ length bodies)%nat →
  ∃ score, sweep remaining i bodies = Some score ∧
    ((∃ k, (k < remaining)%nat ∧
           (∀ j, (j < k)%nat → escapesAt j bodies = false) ∧
           escapesAt k bodies = true ∧
           score = Nat.iter k (λ c, c + 1) i / steps) ∨
     ((∀ j, (j < remaining)%nat → escapesAt j bodies = false) ∧ score = 1)).
Proof.
  induction remaining as [|r IH]; intros i bodies Hlen.
  - exists 1. split; [done|]. right. split; [|done]. intros j Hj. lia.
  - destruct (sweepStep_total bodies Hlen) as ([bodies' maxD2] & Hstep & Hlen').
    simpl in Hlen'. simpl. rewrite Hstep. simpl.
    destruct (JS.gt maxD2 esc) eqn:Hesc.
    + exists (i / steps). split; [done|]. left. exists 0%nat.
      split; [lia|]. split; [intros j Hj; lia|].
      split; [|done]. by rewrite (escapesAt_0 _ _ Hstep).
    + destruct (IH (i + 1) bodies') as (score & Hrun & Hscore); [lia|].
      exists score. split; [done|].
      destruct Hscore as [(k & Hk & Hbefore & Hat & ->)|[Hnone ->]].
      * left. exists (S k). split; [lia|]. split; [|split].
        -- intros [|j] Hj.
           ++ by rewrite (escapesAt_0 _ _ Hstep).
           ++ rewrite (escapesAt_S _ _ _ Hstep). apply Hbefore. lia.
        -- by rewrite (escapesAt_S _ _ _ Hstep).
        -- by rewrite Nat.iter_succ_r.
      * right. split; [|done]. intros [|j] Hj.
        -- by rewrite (escapesAt_0 _ _ Hstep).
        -- rewrite (escapesAt_S _ _ _ Hstep). apply Hnone. lia.
Qed.

Lemma counter_checked : forallb counter_ok (seq 0 1000) = true.
Proof. vm_compute. reflexivity. Qed.

Lemma counter_spec k :
  (k < 1000)%nat →
  Nat.iter k (λ c, c + 1) 0 = counter k ∧
  (0 <=? counter k / steps) = true ∧ (counter k / steps <=? 1) = true.
Proof.
  intros Hk. pose proof counter_checked as H.
  rewrite forallb_forall in H. specialize (H k).
  assert (Hin : In k (seq 0 1000)) by (apply in_seq; lia).
  specialize (H Hin). unfold counter_ok in H.
  apply andb_prop in H as [H H3]. apply andb_prop in H as [H1 H2].
  apply FloatAxioms.Leibniz.eqb_spec in H1. done.
Qed.
End SweepLoop.

Section EscapeTest.
Local Open Scope float_scope.
Import HeatmapExplorer.

Lemma gt_zero_esc : JS.gt 0 esc = false.
Proof. reflexivity. Qed.

(** The test [maxD2 > esc] against the three squared distances. *)
Lemma escape_test bodies r :
  sweepStep bodies = Some r →
  let ds := squaredDistance <$> take 3 r.1 in
  (JS.gt r.2 esc = true → existsb (λ d, JS.gt d esc) ds = true) ∧
  (forallb (λ d, negb (is_nan d)) ds = true →
   JS.gt r.2 esc = existsb (λ d, JS.gt d esc) ds).
Proof.
  destruct bodies as [|b0 [|b1 [|b2 rest]]]; try done.
  rewrite sweepStep_three. intros [= <-]. simpl.
  set (d0 := squaredDistance _). set (d1 := squaredDistance _).
  set (d2 := squaredDistance _). split.
  - intros H.
    apply Math_max_gt_arg in H as [H| ->]; [|by rewrite !orb_true_r].
    apply Math_max_gt_arg in H as [H| ->]; [|by rewrite !orb_true_r].
    apply Math_max_gt_arg in H as [H| ->]; [|done].
    by rewrite gt_zero_esc in H.
  - intros H.
    apply andb_prop in H as [H0 H]. apply andb_prop in H as [H1 H].
    apply andb_prop in H as [H2 _].
    apply negb_true_iff in H0, H1, H2.
    destruct (Math_max_gt 0 d0 esc eq_refl H0) as [N0 E0].
    destruct (Math_max_gt _ d1 esc N0 H1) as [N1 E1].
    destruct (Math_max_gt _ d2 esc N1 H2) as [_ E2].
    rewrite E2, E1, E0, gt_zero_esc. simpl.
    by rewrite orb_false_r, orb_assoc.
Qed.

Lemma escapesAt_someBodyBeyond k bodies :
  (escapesAt k bodies = true → someBodyBeyond k bodies = true) ∧
  (noNaN k bodies = true → escapesAt k bodies = someBodyBeyond k bodies).
Proof.
  unfold escapesAt, someBodyBeyond, noNaN, distancesAt.
  destruct (bodiesAfter k bodies ≫= sweepStep) as [r|] eqn:E; [|done].
  destruct (bodiesAfter k bodies) as [bs|]; [|done]. simpl in E.
  apply (escape_test bs r E).
Qed.
End EscapeTest.

(** ** The accumulators *)

Lemma while_loop_inv {St : Type} (P : St → Prop) (cond : St → bool)
    (body : St → option St) (fuel : nat) (s s' : St) :
  P s →
  (∀ t t', P t → cond t = true → body t = Some t' → P t') →
  while_loop fuel cond body s = Some s' →
  P s' ∧ cond s' = false.
Proof.
  intros Hs Hbody. revert s Hs.
  induction fuel as [|f IH]; intros s Hs Hrun; [done|].
  simpl in Hrun. destruct (cond s) eqn:Hc.
  - destruct (body s) as [t|] eqn:Hb; [|done]. simpl in Hrun.
    apply (IH t); [|done]. by apply (Hbody s).
  - by injection Hrun as <-.
Qed.

Lemma carry a u h :
  (0 < h)%Z →
  ((a mod h + u) mod h = (a + u) mod h ∧
   a / h + (a mod h + u) / h = (a + u) / h)%Z.
Proof.
  intros Hh.
  replace (a + u)%Z with (a mod h + u + a / h * h)%Z
    by (pose proof (Z.div_mod a h); lia).
  rewrite Z.mod_add, Z.div_add by lia. lia.
Qed.

Section MicrosecondFacts.
Local Open Scope float_scope.

(** A non-negative increment has a non-negative microsecond count. *)
Lemma Math_round_nonneg a u :
  (0 <=? a) = true → JS.Math_round a = Some u → (0 ≤ u)%Z.
Proof.
  rewrite leb_0_nonneg. unfold JS.Math_round.
  destruct (Prim2SF a) as [s|s| |s m e]; simpl; try done.
  - intros _ [= <-]. done.
  - intros Hs [= <-]. destruct s; [done|].
    destruct (0 <=? e)%Z eqn:He.
    + apply Z.leb_le in He. apply Z.mul_nonneg_nonneg; [lia|].
      by apply Z.pow_nonneg.
    + apply Z.leb_gt in He. apply Z.div_pos.
      * assert (0 ≤ 2 ^ (- e - 1))%Z by (by apply Z.pow_nonneg). lia.
      * apply Z.pow_pos_nonneg; lia.
Qed.

Lemma microseconds_nonneg d u :
  (0 <=? d) = true → JS.Math_round (d * 1000000) = Some u → (0 ≤ u)%Z.
Proof.
  intros Hd Hu. destruct (0 <=? d * 1000000) eqn:E.
  - by apply (Math_round_nonneg _ _ E).
  - exfalso. rewrite leb_0_nonneg in Hd, E. rewrite mul_spec in E.
    unfold JS.Math_round in Hu.
    destruct (SFmul_nonneg (Prim2SF d) (Prim2SF 1000000) Hd eq_refl) as [N|N].
    + rewrite mul_spec in Hu. unfold SF64mul in Hu. by rewrite N in Hu.
    + unfold SF64mul in E. congruence.
Qed.
End MicrosecondFacts.

Section IntegerAccumulator.
Import IntegerAccumulatorTest.

Lemma drain fuel : ∀ acc steps,
  (0 ≤ acc)%Z → Z.to_nat (acc / 10000) < fuel →
  while_loop fuel
    (λ this, (fixedStepUs this <=? accumulatorUs this)%Z)
    (λ this, Some (mk (fixedStepUs this)
                      (accumulatorUs this - fixedStepUs this)
                      (stepsTaken this + 1)))
    (mk 10000 acc steps)
  = Some (mk 10000 (acc mod 10000) (steps + acc / 10000)).
Proof.
  induction fuel as [|f IH]; intros acc steps Hacc Hfuel; [lia|].
  simpl. destruct (10000 <=? acc)%Z eqn:Hc.
  - apply Z.leb_le in Hc.
    assert (Hm : ((acc - 10000) mod 10000 = acc mod 10000)%Z).
    { replace (acc - 10000)%Z with (acc + (-1) * 10000)%Z by lia.
      apply Z.mod_add. lia. }
    assert (Hd : ((acc - 10000) / 10000 = acc / 10000 - 1)%Z).
    { replace (acc - 10000)%Z with (acc + (-1) * 10000)%Z by lia.
      rewrite Z.div_add by lia. lia. }
    assert (1 ≤ acc / 10000)%Z by (apply Z.div_le_lower_bound; lia).
    rewrite IH; [|lia|lia]. rewrite Hm, Hd. f_equal. f_equal. lia.
  - apply Z.leb_gt in Hc.
    rewrite Z.mod_small, Z.div_small by lia. f_equal. f_equal. lia.
Qed.

Lemma step_exact fuel dt u acc steps :
  JS.Math_round (dt * 1000000)%float = Some u →
  (0 ≤ u)%Z → (0 ≤ acc)%Z → (acc + u ≤ 2 ^ 53)%Z →
  Z.to_nat ((acc + u) / 10000) < fuel →
  step fuel dt (mk 10000 acc steps)
  = Some (mk 10000 ((acc + u) mod 10000) (steps + (acc + u) / 10000)).
Proof.
  intros Hu Hu0 Hacc Hsafe Hfuel. unfold step. rewrite Hu. simpl.
  unfold exactInt. rewrite Z.abs_eq by lia.
  replace (acc + u <=? 2 ^ 53)%Z with true by (symmetry; apply Z.leb_le; lia).
  simpl. apply drain; [lia|done].
Qed.

Lemma total_nonneg dts us : microseconds dts us → (0 ≤ total us)%Z.
Proof.
  induction 1 as [|d u dts us [_ Hu] _ IH]; simpl; [done|].
  lia.
Qed.

Lemma run_exact fuel dts us : microseconds dts us → ∀ acc steps,
  (0 ≤ acc < 10000)%Z → (acc + total us ≤ 2 ^ 53)%Z →
  Z.to_nat ((acc + total us) / 10000) < fuel →
  run fuel dts (mk 10000 acc steps)
  = Some (mk 10000 ((acc + total us) mod 10000)
                   (steps + (acc + total us) / 10000)).
Proof.
  induction 1 as [|d u dts us [Hd Hu] Hrest IH]; intros acc steps Hacc Hsafe Hfuel.
  - simpl. rewrite Z.add_0_r.
    rewrite Z.mod_small, Z.div_small by lia. by rewrite Z.add_0_r.
  - pose proof (total_nonneg _ _ Hrest) as Hnn.
    change (total (u :: us)) with (u + total us)%Z in *.
    rewrite Z.add_assoc in Hsafe, Hfuel.
    destruct (carry (acc + u) (total us) 10000 ltac:(lia)) as [Hm Hq].
    pose proof (Z.mod_pos_bound (acc + u) 10000 ltac:(lia)) as Hb.
    assert (0 ≤ (acc + u) / 10000)%Z by (apply Z.div_pos; lia).
    assert (0 ≤ ((acc + u) mod 10000 + total us) / 10000)%Z
      by (apply Z.div_pos; lia).
    assert ((acc + u) mod 10000 ≤ acc + u)%Z by (apply Z.mod_le; lia).
    simpl. rewrite (step_exact fuel d u acc steps); [|done|done|lia|lia|lia].
    simpl. rewrite IH; [|lia|lia|lia].
    rewrite Z.add_assoc. rewrite <- Hm, <- Hq. f_equal. f_equal. lia.
Qed.
End IntegerAccumulator.

Section IntegerInvariant.
Import IntegerAccumulatorTest.
Local Open Scope Z_scope.

Lemma step_residual fuel dt this this' :
  (0 <=? dt)%float = true → 0 ≤ accumulatorUs this →
  step fuel dt this = Some this' →
  fixedStepUs this' = fixedStepUs this ∧
  0 ≤ accumulatorUs this' < fixedStepUs this'.
Proof.
  intros Hdt Hacc. unfold step.
  destruct (JS.Math_round (dt * 1000000)) as [u|] eqn:Hu; [|done]. simpl.
  pose proof (microseconds_nonneg dt u Hdt Hu) as Hu0.
  unfold exactInt. destruct (Z.abs _ <=? 2 ^ 53); [|done]. simpl.
  intros Hrun.
  apply (while_loop_inv
           (λ t, fixedStepUs t = fixedStepUs this ∧ 0 ≤ accumulatorUs t))
    in Hrun as [[Hh Hnn] Hexit].
  - apply Z.leb_gt in Hexit. lia.
  - simpl. lia.
  - intros t t' [Hh Hnn] Hc [= <-]. simpl. apply Z.leb_le in Hc. lia.
Qed.

Lemma run_residual fuel dts : ∀ this this',
  Forall (λ d, (0 <=? d)%float = true) dts →
  0 ≤ accumulatorUs this < fixedStepUs this →
  run fuel dts this = Some this' →
  fixedStepUs this' = fixedStepUs this ∧
  0 ≤ accumulatorUs this' < fixedStepUs this'.
Proof.
  induction dts as [|d rest IH]; intros this this' Hall Hacc Hrun.
  - injection Hrun as <-. done.
  - apply Forall_cons in Hall as [Hd Hall]. simpl in Hrun.
    destruct (step fuel d this) as [this1|] eqn:Hstep; [|done]. simpl in Hrun.
    destruct (step_residual fuel d this this1 Hd ltac:(lia) Hstep) as [Hh Hr].
    destruct (IH this1 this' Hall Hr Hrun) as [Hh' Hr'].
    split; [congruence|done].
Qed.
End IntegerInvariant.

(** ** The engine with the microsecond accumulator *)

Lemma rk4Step_total G softening h bodies :
  ∃ bodies', rk4Step G softening h bodies = Some bodies' ∧
             length bodies' = length bodies.
Proof.
  destruct (rk4Step_stages G softening h bodies)
    as (Hrun & H1 & H2 & H3 & H4 & H5 & H6 & H7 & H8).
  rewrite Hrun.
  destruct (commit_loop _ _ _ _ _ _ _ _ h bodies H1 H2 H3 H4 H5 H6 H7 H8)
    as (bodies' & Hloop & Hlen & _).
  by exists bodies'.
Qed.

Lemma rk4Steps_total G softening h n : ∀ bodies,
  ∃ bodies', rk4Steps G softening h n bodies = Some bodies'.
Proof.
  induction n as [|n IH]; intros bodies; simpl; [by eexists|].
  destruct (rk4Step_total G softening h bodies) as (bs & -> & _). simpl.
  apply IH.
Qed.

Lemma rk4Steps_add G softening h n m : ∀ bodies,
  rk4Steps G softening h (n + m) bodies
  = rk4Steps G softening h n bodies ≫= rk4Steps G softening h m.
Proof.
  induction n as [|n IH]; intros bodies; simpl; [done|].
  destruct (rk4Step G softening h bodies) as [bs|]; simpl; [apply IH|done].
Qed.

Section EngineUs.
Import SimUs.
Variables (G0 softening0 fixedDt0 : float) (h : Z).
Hypothesis Hh : (0 < h)%Z.

Lemma drainUs fuel : ∀ bodies0 dt0 acc,
  (0 ≤ acc)%Z → Z.to_nat (acc / h) < fuel →
  while_loop fuel
    (λ this, (fixedStepUs this <=? accumulatorUs this)%Z)
    (λ this,
       '(_, this2) ← integrate (fixedDt this) this;
       Some (set_accumulatorUs (accumulatorUs this2 - fixedStepUs this2) this2))
    (mk bodies0 G0 softening0 dt0 fixedDt0 h acc)
  = (bodies' ← rk4Steps G0 softening0 fixedDt0 (Z.to_nat (acc / h)) bodies0;
     Some (mk bodies' G0 softening0 dt0 fixedDt0 h (acc mod h)%Z)).
Proof.
  induction fuel as [|f IH]; intros bodies0 dt0 acc Hacc Hfuel; [lia|].
  simpl. destruct (h <=? acc)%Z eqn:Hc.
  - apply Z.leb_le in Hc.
    assert (Hm : ((acc - h) mod h = acc mod h)%Z).
    { replace (acc - h)%Z with (acc + (-1) * h)%Z by lia.
      apply Z.mod_add. lia. }
    assert (Hd : ((acc - h) / h = acc / h - 1)%Z).
    { replace (acc - h)%Z with (acc + (-1) * h)%Z by lia.
      rewrite Z.div_add by lia. lia. }
    assert (1 ≤ acc / h)%Z by (apply Z.div_le_lower_bound; lia).
    replace (Z.to_nat (acc / h)) with (S (Z.to_nat ((acc - h) / h))) by lia.
    unfold integrate. simpl.
    destruct (rk4Step G0 softening0 fixedDt0 bodies0) as [bs|]; [|done].
    simpl. unfold set_accumulatorUs, set_bodies. simpl.
    rewrite IH; [|lia|lia]. by rewrite Hm.
  - apply Z.leb_gt in Hc.
    rewrite Z.mod_small, Z.div_small by lia. done.
Qed.

Lemma stepUs_exact fuel bodies0 dt0 u acc :
  JS.Math_round (dt0 * 1000000)%float = Some u →
  (0 ≤ u)%Z → (0 ≤ acc)%Z → (acc + u ≤ 2 ^ 53)%Z →
  Z.to_nat ((acc + u) / h) < fuel →
  step fuel (mk bodies0 G0 softening0 dt0 fixedDt0 h acc)
  = (bodies' ← rk4Steps G0 softening0 fixedDt0 (Z.to_nat ((acc + u) / h)) bodies0;
     Some (tt, mk bodies' G0 softening0 dt0 fixedDt0 h ((acc + u) mod h)%Z)).
Proof.
  intros Hu Hu0 Hacc Hsafe Hfuel. unfold step. simpl. rewrite Hu. simpl.
  unfold exactInt. rewrite Z.abs_eq by lia.
  replace (acc + u <=? 2 ^ 53)%Z with true by (symmetry; apply Z.leb_le; lia).
  simpl. unfold set_accumulatorUs at 2. simpl.
  rewrite drainUs; [|lia|done].
  by destruct (rk4Steps _ _ _ _ _).
Qed.

Lemma runUs_exact fuel dts us : microseconds dts us → ∀ bodies0 dt0 acc bodies',
  (0 ≤ acc < h)%Z → (acc + total us ≤ 2 ^ 53)%Z →
  Z.to_nat ((acc + total us) / h) < fuel →
  rk4Steps G0 softening0 fixedDt0 (Z.to_nat ((acc + total us) / h)) bodies0
    = Some bodies' →
  ∃ dt', run fuel dts (mk bodies0 G0 softening0 dt0 fixedDt0 h acc)
         = Some (mk bodies' G0 softening0 dt' fixedDt0 h ((acc + total us) mod h)%Z).
Proof.
  induction 1 as [|d u dts us [Hd Hu] Hrest IH];
    intros bodies0 dt0 acc bodies' Hacc Hsafe Hfuel Hsteps.
  - simpl in *. rewrite Z.add_0_r in *.
    rewrite Z.div_small in Hsteps by lia. injection Hsteps as <-.
    rewrite Z.mod_small by lia. by exists dt0.
  - pose proof (total_nonneg _ _ Hrest) as Hnn.
    change (total (u :: us)) with (u + total us)%Z in *.
    rewrite Z.add_assoc in Hsafe, Hfuel, Hsteps |- *.
    destruct (carry (acc + u) (total us) h Hh) as [Hm Hq].
    pose proof (Z.mod_pos_bound (acc + u) h Hh) as Hb.
    assert (0 ≤ (acc + u) / h)%Z by (apply Z.div_pos; lia).
    assert (0 ≤ ((acc + u) mod h + total us) / h)%Z by (apply Z.div_pos; lia).
    assert ((acc + u) mod h ≤ acc + u)%Z by (apply Z.mod_le; lia).
    rewrite <- Hq, Z2Nat.inj_add, rk4Steps_add in Hsteps by lia.
    destruct (rk4Steps G0 softening0 fixedDt0 (Z.to_nat ((acc + u) / h)) bodies0)
      as [bs1|] eqn:E1; [|done]. simpl in Hsteps.
    simpl. unfold set_dt at 1. simpl.
    rewrite (stepUs_exact fuel bodies0 d u acc); [|done|done|lia|lia|lia].
    rewrite E1. simpl.
    destruct (IH bs1 d ((acc + u) mod h)%Z bodies') as [dt' Hrun];
      [lia|lia|lia|done|].
    exists dt'. rewrite Hrun. by rewrite Hm.
Qed.
End EngineUs.

Section EngineUsInvariant.
Import SimUs.
Local Open Scope Z_scope.

Lemma integrateUs_fields hh this r :
  integrate hh this = Some r →
  fixedStepUs r.2 = fixedStepUs this ∧ accumulatorUs r.2 = accumulatorUs this.
Proof.
  unfold integrate.
  destruct (rk4Step _ _ _ _) as [bs|]; [|done]. by intros [= <-].
Qed.

Lemma stepUs_residual fuel this r :
  (0 <=? dt this)%float = true → 0 ≤ accumulatorUs this →
  step fuel this = Some r →
  fixedStepUs r.2 = fixedStepUs this ∧
  0 ≤ accumulatorUs r.2 < fixedStepUs r.2.
Proof.
  intros Hdt Hacc. unfold step.
  destruct (JS.Math_round (dt this * 1000000)) as [u|] eqn:Hu; [|done]. simpl.
  pose proof (microseconds_nonneg _ u Hdt Hu) as Hu0.
  unfold exactInt. destruct (Z.abs _ <=? 2 ^ 53); [|done]. simpl.
  destruct (while_loop _ _ _ _) as [this'|] eqn:Hrun; [|done].
  intros [= <-]. simpl.
  apply (while_loop_inv
           (λ t, fixedStepUs t = fixedStepUs this ∧ 0 ≤ accumulatorUs t))
    in Hrun as [[Hh Hnn] Hexit].
  - apply Z.leb_gt in Hexit. lia.
  - simpl. lia.
  - intros t t' [Hh Hnn] Hc Hbody. apply Z.leb_le in Hc.
    destruct (integrate (fixedDt t) t) as [[[] t2]|] eqn:Hint; [|done].
    injection Hbody as <-.
    destruct (integrateUs_fields _ _ _ Hint) as [E1 E2]. simpl in *. lia.
Qed.

Lemma runUs_residual fuel dts : ∀ this this',
  Forall (λ d, (0 <=? d)%float = true) dts →
  0 ≤ accumulatorUs this < fixedStepUs this →
  run fuel dts this = Some this' →
  fixedStepUs this' = fixedStepUs this ∧
  0 ≤ accumulatorUs this' < fixedStepUs this'.
Proof.
  induction dts as [|d rest IH]; intros this this' Hall Hacc Hrun.
  - injection Hrun as <-. done.
  - apply Forall_cons in Hall as [Hd Hall]. simpl in Hrun.
    destruct (step fuel (set_dt d this)) as [[[] this1]|] eqn:Hstep; [|done].
    simpl in Hrun.
    destruct (stepUs_residual fuel (set_dt d this) (tt, this1) Hd
                ltac:(simpl; lia) Hstep) as [Hh Hr].
    simpl in Hh, Hr.
    destruct (IH this1 this' Hall Hr Hrun) as [Hh' Hr'].
    split; [congruence|done].
Qed.
End EngineUsInvariant.

Section EngineFloatInvariant.
Import Sim.
Local Open Scope float_scope.

Lemma integrate_fields hh this r :
  integrate hh this = Some r →
  fixedDt r.2 = fixedDt this ∧ accumulator r.2 = accumulator this.
Proof.
  unfold integrate.
  destruct (rk4Step _ _ _ _) as [bs|]; [|done]. by intros [= <-].
Qed.

Lemma step_float_residual fuel this r :
  is_finite (fixedDt this) = true → (0 <? fixedDt this) = true →
  (0 <=? dt this) = true → (0 <=? accumulator this) = true →
  step fuel this = Some r →
  fixedDt r.2 = fixedDt this ∧
  (0 <=? accumulator r.2) = true ∧ (accumulator r.2 <? fixedDt r.2) = true.
Proof.
  intros Hfin Hpos Hdt Hacc. unfold step.
  destruct (while_loop _ _ _ _) as [this'|] eqn:Hrun; [|done].
  intros [= <-]. simpl.
  apply (while_loop_inv
           (λ t, fixedDt t = fixedDt this ∧ (0 <=? accumulator t) = true))
    in Hrun as [[Hh Hnn] Hexit].
  - split; [done|]. split; [done|]. unfold JS.ge in Hexit.
    rewrite Hh in Hexit |- *. by apply not_leb_ltb.
  - split; [done|]. simpl. by apply add_nonneg.
  - intros t t' [Hh Hnn] Hc Hbody. unfold JS.ge in Hc.
    destruct (integrate (fixedDt t) t) as [[[] t2]|] eqn:Hint; [|done].
    injection Hbody as <-.
    destruct (integrate_fields _ _ _ Hint) as [E1 E2]. simpl in *.
    split; [congruence|]. rewrite E1, E2, Hh. rewrite Hh in Hc.
    by apply sub_nonneg.
Qed.

Lemma run_float_residual fuel dts : ∀ this this',
  is_finite (fixedDt this) = true → (0 <? fixedDt this) = true →
  Forall (λ d, (0 <=? d) = true) dts →
  (0 <=? accumulator this) = true → (accumulator this <? fixedDt this) = true →
  run fuel dts this = Some this' →
  fixedDt this' = fixedDt this ∧
  (0 <=? accumulator this') = true ∧ (accumulator this' <? fixedDt this') = true.
Proof.
  induction dts as [|d rest IH]; intros this this' Hfin Hpos Hall Hacc Hlt Hrun.
  - injection Hrun as <-. done.
  - apply Forall_cons in Hall as [Hd Hall]. simpl in Hrun.
    destruct (step fuel (set_dt d this)) as [[[] this1]|] eqn:Hstep; [|done].
    simpl in Hrun.
    destruct (step_float_residual fuel (set_dt d this) (tt, this1)
                Hfin Hpos Hd Hacc Hstep) as (Hh & Hnn & Hr).
    simpl in Hh, Hnn, Hr.
    destruct (IH this1 this') as (Hh' & Hnn' & Hr'); try done; try congruence.
    split; [congruence|done].
Qed.
End EngineFloatInvariant.

(** ** Coincident bodies in the sweep *)

Section Coincident.
Local Open Scope float_scope.
Import HeatmapExplorer.

Lemma sub_self a : is_finite a = true → a - a = 0.
Proof.
  intros H. apply Prim2SF_inj. rewrite sub_spec.
  change (Prim2SF 0) with (S754_zero false).
  unfold is_finite, is_nan, is_infinity in H.
  rewrite !FloatAxioms.eqb_spec, abs_spec in H.
  change (Prim2SF infinity) with (S754_infinity false) in H.
  destruct (Prim2SF a) as [s|s| |s m e]; try destruct s; try done;
    try (by vm_compute in H);
    unfold SF64sub, SFsub; by rewrite Z.sub_diag.
Qed.

End Coincident.

(** ** The perturbed clone *)

Section Perturbed.
Import HeatmapExplorer.

Lemma applyParam_total bodies type val :
  1 ≤ paramIndex type ≤ length bodies →
  ∃ bodies', applyParam bodies type val = Some bodies' ∧
             length bodies' = length bodies.
Proof.
  intros Hn.
  destruct type as [[|i]|f a [|i]]; simpl in Hn; try lia;
    destruct (lookup_lt_is_Some_2 bodies i) as [b Hb]; try lia;
    simpl; try destruct f; rewrite Hb; simpl;
    eexists; (split; [done|]); by rewrite length_insert.
Qed.

Lemma perturbed_total gridX gridY this base :
  baseConfig this = Some base →
  1 ≤ paramIndex (xAxis this) ≤ length base →
  1 ≤ paramIndex (yAxis this) ≤ length base →
  ∃ bodies, perturbed gridX gridY this = Some bodies ∧
            length bodies = length base.
Proof.
  intros Hbase Hx Hy. unfold perturbed. rewrite Hbase. simpl.
  destruct (applyParam_total (jsonBody <$> base) (xAxis this)
              (centerX this
               + (gridX / res this - 0.5) * 2 * (baseRange this / zoom this))%float)
    as (b1 & -> & Hl1); [by rewrite length_fmap|]. simpl.
  destruct (applyParam_total b1 (yAxis this)
              (centerY this
               + (gridY / res this - 0.5) * 2 * (baseRange this / zoom this))%float)
    as (b2 & -> & Hl2); [by rewrite Hl1, length_fmap|].
  exists b2. split; [done|]. by rewrite Hl2, Hl1, length_fmap.
Qed.
End Perturbed.

(** ** Not-a-number and infinities *)

Section NonFinite.
Local Open Scope float_scope.

Lemma is_finite_spec a :
  is_finite a = match Prim2SF a with
                | S754_zero _ | S754_finite _ _ _ => true
                | _ => false
                end.
Proof.
  unfold is_finite, is_infinity. rewrite is_nan_spec.
  rewrite FloatAxioms.eqb_spec, abs_spec.
  change (Prim2SF infinity) with (S754_infinity false).
  by destruct (Prim2SF a) as [s|s| |s m e].
Qed.

Lemma is_nan_eq a : is_nan a = true → a = nan.
Proof.
  rewrite is_nan_spec. intros H. apply Prim2SF_inj.
  change (Prim2SF nan) with S754_nan.
  by destruct (Prim2SF a).
Qed.

Lemma add_nan_l a : nan + a = nan.
Proof. apply Prim2SF_inj. rewrite add_spec. reflexivity. Qed.

Lemma add_nan_r a : a + nan = nan.
Proof.
  apply Prim2SF_inj. rewrite add_spec.
  change (Prim2SF nan) with S754_nan. by destruct (Prim2SF a).
Qed.

Lemma sub_nan_l a : nan - a = nan.
Proof. apply Prim2SF_inj. rewrite sub_spec. reflexivity. Qed.

Lemma sub_nan_r a : a - nan = nan.
Proof.
  apply Prim2SF_inj. rewrite sub_spec.
  change (Prim2SF nan) with S754_nan. by destruct (Prim2SF a).
Qed.

Lemma mul_nan_l a : nan * a = nan.
Proof. apply Prim2SF_inj. rewrite mul_spec. reflexivity. Qed.

Lemma mul_nan_r a : a * nan = nan.
Proof.
  apply Prim2SF_inj. rewrite mul_spec.
  change (Prim2SF nan) with S754_nan. by destruct (Prim2SF a).
Qed.

(** Zero times a quotient by zero is not a number. *)
Lemma zero_mul_div_zero f : 0 * (f / 0) = nan.
Proof.
  apply Prim2SF_inj. rewrite mul_spec, div_spec.
  change (Prim2SF 0) with (S754_zero false).
  change (Prim2SF nan) with S754_nan.
  by destruct (Prim2SF f) as [s|s| |s m e].
Qed.

Lemma leb_nan_r a : (a <=? nan) = false.
Proof.
  rewrite FloatAxioms.leb_spec. change (Prim2SF nan) with S754_nan.
  unfold SFleb. by destruct (Prim2SF a).
Qed.

Lemma ltb_nan_l a : (nan <? a) = false.
Proof. rewrite FloatAxioms.ltb_spec. reflexivity. Qed.

(** A sum or a difference with a term that is not finite is not finite. *)
Lemma add_not_finite a b :
  is_finite a = false ∨ is_finite b = false → is_finite (a + b) = false.
Proof.
  rewrite !is_finite_spec, add_spec.
  destruct (Prim2SF a) as [sa|sa| |sa ma ea], (Prim2SF b) as [sb|sb| |sb mb eb];
    simpl; intros [H|H]; try done; by destruct sa, sb.
Qed.

Lemma div_zero_not_finite a : is_finite (a / 0) = false.
Proof.
  rewrite is_finite_spec, div_spec. change (Prim2SF 0) with (S754_zero false).
  by destruct (Prim2SF a) as [s|s| |s m e].
Qed.

Lemma opp_not_finite a : is_finite a = false → is_finite (- a) = false.
Proof.
  rewrite !is_finite_spec, opp_spec. by destruct (Prim2SF a).
Qed.
End NonFinite.

(** ** The stages of the RK4 step, read off the bodies themselves *)

Lemma clone_id v : Vector.clone v = v.
Proof. by destruct v. Qed.

Section StagesOfBodies.
Local Open Scope float_scope.
Variables G softening : float.

Lemma contribution_clone state k cur j :
  contribution G softening (cloneState state) k cur j
  = contribution G softening state k cur j.
Proof.
  unfold contribution, cloneState. rewrite !list_lookup_fmap.
  by destruct (state !! k) as [bk|], (state !! j) as [bj|].
Qed.

Lemma pull_clone state k upto :
  pull G softening (cloneState state) k upto = pull G softening state k upto.
Proof.
  induction upto as [|m IH]; [done|].
  by rewrite !pull_S, IH, contribution_clone.
Qed.

Lemma accelerations_clone state :
  accelerations G softening (cloneState state) = accelerations G softening state.
Proof.
  unfold accelerations. rewrite length_cloneState.
  apply list_fmap_ext. intros i k _. apply pull_clone.
Qed.

Lemma vel_clone state : vel <$> cloneState state = vel <$> state.
Proof.
  unfold cloneState. rewrite <- list_fmap_compose.
  apply list_fmap_ext. intros i b _. simpl. apply clone_id.
Qed.

Lemma advanced_clone state v a h :
  advanced (cloneState state) v a h = advanced state v a h.
Proof.
  unfold advanced, cloneState. generalize (zip v a). 
  induction state as [|s state IH]; intros [|[vi ai] l]; simpl; try done.
  rewrite !clone_id. f_equal. apply IH.
Qed.

Lemma rk4Stages_bodies dt bodies :
  rk4Stages G softening dt bodies
  = let a1 := accelerations G softening bodies in
    let v1 := vel <$> bodies in
    let s2 := advanced bodies v1 a1 (dt * 0.5) in
    let a2 := accelerations G softening s2 in
    let v2 := vel <$> s2 in
    let s3 := advanced bodies v2 a2 (dt * 0.5) in
    let a3 := accelerations G softening s3 in
    let v3 := vel <$> s3 in
    let s4 := advanced bodies v3 a3 dt in
    let a4 := accelerations G softening s4 in
    let v4 := vel <$> s4 in
    mkStages a1 v1 a2 v2 a3 v3 a4 v4.
Proof.
  unfold rk4Stages. cbv zeta.
  by rewrite accelerations_clone, vel_clone, !advanced_clone.
Qed.
End StagesOfBodies.

(** ** Zeros and non-finite magnitudes in a sum *)

Section ZeroTerms.
Local Open Scope float_scope.


End ZeroTerms.

(** * The claims *)


(** C5.  One RK4 step of duration [dt] never fails and leaves, for every
    body [i], on each axis, the position
    [pos + (v1 + v2 * 2 + v3 * 2 + v4) * (dt / 6)] and the velocity
    [vel + (a1 + a2 * 2 + a3 * 2 + a4) * (dt / 6)], both taken from the
    original body and summed in this order, where [a1, v1] are the
    accelerations and the velocities of the bodies as they are, [a2, v2]
    those of the bodies advanced by [(v1, a1) * (dt * 0.5)], [a3, v3]
    those of the bodies advanced by [(v2, a2) * (dt * 0.5)] and [a4, v4]
    those of the bodies advanced by [(v3, a3) * dt], every advance
    starting from the original bodies; mass and rendering hints are
    unchanged. *)
Theorem rk4Step_formula (G softening dt : float) (bodies : list Body) :
  let a1 := accelerations G softening bodies in
  let v1 := vel <$> bodies in
  let s2 := advanced bodies v1 a1 (dt * 0.5)%float in
  let a2 := accelerations G softening s2 in
  let v2 := vel <$> s2 in
  let s3 := advanced bodies v2 a2 (dt * 0.5)%float in
  let a3 := accelerations G softening s3 in
  let v3 := vel <$> s3 in
  let s4 := advanced bodies v3 a3 dt in
  let a4 := accelerations G softening s4 in
  let v4 := vel <$> s4 in
  ∃ bodies',
    rk4Step G softening dt bodies = Some bodies' ∧
    length bodies' = length bodies ∧
    ∀ i b, bodies !! i = Some b →
      ∃ a1i a2i a3i a4i v1i v2i v3i v4i,
        a1 !! i = Some a1i ∧ a2 !! i = Some a2i ∧
        a3 !! i = Some a3i ∧ a4 !! i = Some a4i ∧
        v1 !! i = Some v1i ∧ v2 !! i = Some v2i ∧
        v3 !! i = Some v3i ∧ v4 !! i = Some v4i ∧
        v1i = vel b ∧
        bodies' !! i =
          Some (mkBody
                  (Vector.mk
                     (Vector.x (pos b)
                      + (Vector.x v1i + Vector.x v2i * 2 + Vector.x v3i * 2
                         + Vector.x v4i) * (dt / 6))
                     (Vector.y (pos b)
                      + (Vector.y v1i + Vector.y v2i * 2 + Vector.y v3i * 2
                         + Vector.y v4i) * (dt / 6))
                     (Vector.z (pos b)
                      + (Vector.z v1i + Vector.z v2i * 2 + Vector.z v3i * 2
                         + Vector.z v4i) * (dt / 6)))
                  (Vector.mk
                     (Vector.x (vel b)
                      + (Vector.x a1i + Vector.x a2i * 2 + Vector.x a3i * 2
                         + Vector.x a4i) * (dt / 6))
                     (Vector.y (vel b)
                      + (Vector.y a1i + Vector.y a2i * 2 + Vector.y a3i * 2
                         + Vector.y a4i) * (dt / 6))
                     (Vector.z (vel b)
                      + (Vector.z a1i + Vector.z a2i * 2 + Vector.z a3i * 2
                         + Vector.z a4i) * (dt / 6)))
                  (mass b) (radius b) (color b))%float.
Proof.
  intros a1' v1' s2 a2' v2' s3 a3' v3' s4 a4' v4'.
  destruct (rk4Step_stages G softening dt bodies)
    as (Hrun & H1 & H2 & H3 & H4 & H5 & H6 & H7 & H8).
  destruct (commit_loop _ _ _ _ _ _ _ _ dt bodies H1 H2 H3 H4 H5 H6 H7 H8)
    as (bodies' & Hloop & Hlen & Hupd).
  exists bodies'. split; [by rewrite Hrun|]. split; [done|].
  intros i b Hb.
  destruct (Hupd i b Hb)
    as (a1i & a2i & a3i & a4i & v1i & v2i & v3i & v4i &
        E1 & E2 & E3 & E4 & F1 & F2 & F3 & F4 & Hnew).
  rewrite rk4Stages_bodies in E1, E2, E3, E4, F1, F2, F3, F4.
  cbn [a1 a2 a3 a4 v1 v2 v3 v4] in E1, E2, E3, E4, F1, F2, F3, F4.
  exists a1i, a2i, a3i, a4i, v1i, v2i, v3i, v4i.
  repeat (split; [assumption|]).
  split.
  - unfold v1' in F1. rewrite list_lookup_fmap, Hb in F1. by injection F1 as <-.
  - exact Hnew.
Qed.





(** C2, as the claim states it, fails: on the initial configuration one
    step of the sweep and one RK4 step of 0.2 (same G, softening 5) leave
    different bodies. *)
Lemma sweepStep_is_not_rk4 :
  ¬ (∀ bodies : list Body,
       length bodies = 3 →
       fst <$> HeatmapExplorer.sweepStep bodies
       = rk4Step HeatmapExplorer.G 5 HeatmapExplorer.dt bodies).
Proof.
  intros H. specialize (H INITIAL_CONFIG eq_refl).
  apply (f_equal (λ o, match o with
                       | Some (b :: _) => Vector.x (pos b)
                       | _ => 0%float
                       end)) in H.
  vm_compute in H.
  apply (proj2 (FloatAxioms.Leibniz.eqb_spec _ _)) in H.
  vm_compute in H. discriminate.
Qed.

(** C2, amended.  A step of the sweep is a semi-implicit Euler step with
    an accelerator of its own: for each of the first three bodies the
    acceleration is the sum over the two others of
    [G m_b / (d^2 + 25)] along [r / sqrt (d^2 + 25)], all read at the
    positions before the step; the velocity becomes [vel + acc * 0.2] and
    the position [pos + vel' * 0.2] with the new velocity; [maxD2] is the
    [Math.max] of 0 and the three new squared distances.  Bodies beyond
    the third are left alone, and with fewer than three bodies the step
    raises. *)
Theorem sweepStep_semi_implicit_euler :
  (∀ (b0 b1 b2 : Body) (rest : list Body),
     let zero3 := (0, 0, 0)%float in
     let e0 := HeatmapExplorer.eulerBody
                 (HeatmapExplorer.plus3
                    (HeatmapExplorer.plus3 zero3 (HeatmapExplorer.softPull b0 b1))
                    (HeatmapExplorer.softPull b0 b2)) b0 in
     let e1 := HeatmapExplorer.eulerBody
                 (HeatmapExplorer.plus3
                    (HeatmapExplorer.plus3 zero3 (HeatmapExplorer.softPull b1 b0))
                    (HeatmapExplorer.softPull b1 b2)) b1 in
     let e2 := HeatmapExplorer.eulerBody
                 (HeatmapExplorer.plus3
                    (HeatmapExplorer.plus3 zero3 (HeatmapExplorer.softPull b2 b0))
                    (HeatmapExplorer.softPull b2 b1)) b2 in
     HeatmapExplorer.sweepStep (b0 :: b1 :: b2 :: rest)
     = Some (e0 :: e1 :: e2 :: rest,
             JS.Math_max
               (JS.Math_max
                  (JS.Math_max 0 (HeatmapExplorer.squaredDistance e0))
                  (HeatmapExplorer.squaredDistance e1))
               (HeatmapExplorer.squaredDistance e2))) ∧
  (∀ bodies : list Body,
     length bodies < 3 → HeatmapExplorer.sweepStep bodies = None).
Proof.
  split.
  - intros b0 b1 b2 rest. reflexivity.
  - intros bodies Hlen.
    destruct bodies as [|b0 [|b1 [|b2 rest]]]; simpl in Hlen; try lia;
      reflexivity.
Qed.

(** C3, as the claim states it, fails: at cell (100, 100) of the explorer
    on [COINCIDENT_CONFIG], whose bodies are all well formed, the first
    iteration already leaves a body whose squared distance from the
    origin exceeds the threshold (it is infinite), no iteration came
    before it, and yet the score is 1 and not [0 / 1000]: the squared
    distance of another body is [NaN], [Math.max] keeps the [NaN], and
    [NaN > esc] is false at every iteration. *)
Lemma simStability_misses_escape :
  ¬ (∀ (this : HeatmapExplorer.t) (gridX gridY : float) (bodies : list Body)
       (k : nat),
       HeatmapExplorer.perturbed gridX gridY this = Some bodies →
       forallb wellFormed bodies = true →
       k < 1000 →
       (∀ j, j < k → HeatmapExplorer.someBodyBeyond j bodies = false) →
       HeatmapExplorer.someBodyBeyond k bodies = true →
       HeatmapExplorer.simStability gridX gridY this
       = Some (HeatmapExplorer.counter k / 1000)%float).
Proof.
  intros H.
  specialize (H COINCIDENT_EXPLORER 100%float 100%float COINCIDENT_CONFIG 0).
  assert (Hscore : HeatmapExplorer.simStability 100 100 COINCIDENT_EXPLORER
                   = Some 1%float) by (vm_compute; reflexivity).
  rewrite Hscore in H.
  assert (Some 1%float = Some (HeatmapExplorer.counter 0 / 1000)%float) as Heq.
  { apply H.
    - vm_compute. reflexivity.
    - vm_compute. reflexivity.
    - lia.
    - intros j Hj. lia.
    - vm_compute. reflexivity. }
  apply (f_equal (λ o, match o with Some x => x | None => 0%float end)) in Heq.
  apply (proj2 (FloatAxioms.Leibniz.eqb_spec _ _)) in Heq.
  vm_compute in Heq. discriminate.
Qed.

(** C3, amended.  For every explorer whose base configuration has at
    least three bodies and whose two parameters name bodies of it, and
    for every grid cell, [simStability] returns a score: [k / 1000] when [k] iterations
    end without [maxD2 > 6000 * 6000] and the next one, of index [k], is
    the first to end with it, for some [k < 1000]; and 1 when none of the
    1000 iterations ends with it.  The score is within [0, 1].  An
    iteration that ends with [maxD2 > esc] has a body whose squared
    distance exceeds [esc]; the converse is shown when none of the three
    squared distances is [NaN], and fails on the input above, where one
    is. *)
Theorem simStability_score (this : HeatmapExplorer.t) (gridX gridY : float)
    (base : list Body) :
  HeatmapExplorer.baseConfig this = Some base →
  3 ≤ length base →
  1 ≤ HeatmapExplorer.paramIndex (HeatmapExplorer.xAxis this) ≤ length base →
  1 ≤ HeatmapExplorer.paramIndex (HeatmapExplorer.yAxis this) ≤ length base →
  ∃ bodies score,
    HeatmapExplorer.perturbed gridX gridY this = Some bodies ∧
    HeatmapExplorer.simStability gridX gridY this = Some score ∧
    ((∃ k, k < 1000 ∧
           (∀ j, j < k → HeatmapExplorer.escapesAt j bodies = false) ∧
           HeatmapExplorer.escapesAt k bodies = true ∧
           score = (HeatmapExplorer.counter k / 1000)%float) ∨
     ((∀ j, j < 1000 → HeatmapExplorer.escapesAt j bodies = false) ∧
      score = 1%float)) ∧
    (0 <=? score)%float = true ∧ (score <=? 1)%float = true ∧
    (∀ k, (HeatmapExplorer.escapesAt k bodies = true →
           HeatmapExplorer.someBodyBeyond k bodies = true) ∧
          (HeatmapExplorer.noNaN k bodies = true →
           HeatmapExplorer.escapesAt k bodies
           = HeatmapExplorer.someBodyBeyond k bodies)).
Proof.
  intros Hbase Hlen Hx Hy.
  destruct (perturbed_total gridX gridY this base Hbase Hx Hy)
    as (bodies & Hpert & Hlen').
  destruct (sweep_outcome 1000 0 bodies ltac:(lia)) as (score & Hrun & Hscore).
  exists bodies, score. split; [done|]. split.
  { unfold HeatmapExplorer.simStability. by rewrite Hpert. }
  assert (Hcases :
    (∃ k, k < 1000 ∧
          (∀ j, j < k → HeatmapExplorer.escapesAt j bodies = false) ∧
          HeatmapExplorer.escapesAt k bodies = true ∧
          score = (HeatmapExplorer.counter k / 1000)%float) ∨
    ((∀ j, j < 1000 → HeatmapExplorer.escapesAt j bodies = false) ∧
     score = 1%float)).
  { destruct Hscore as [(k & Hk & Hbefore & Hat & ->)|[Hnone ->]].
    - left. exists k. destruct (counter_spec k Hk) as (-> & _ & _). done.
    - by right. }
  split; [done|]. split; [|split].
  - destruct Hcases as [(k & Hk & _ & _ & ->)|[_ ->]]; [|done].
    by destruct (counter_spec k Hk) as (_ & H0 & _).
  - destruct Hcases as [(k & Hk & _ & _ & ->)|[_ ->]]; [|done].
    by destruct (counter_spec k Hk) as (_ & _ & H1).
  - intros k. apply escapesAt_someBodyBeyond.
Qed.

(** The initial configuration in a fresh explorer, cell (0, 0): the
    hypotheses of [simStability_score] hold. *)
Lemma simStability_score_witness :
  let this := HeatmapExplorer.mk 200 0 0 1 8
                (HeatmapExplorer.ComponentOf HeatmapExplorer.f_vel HeatmapExplorer.ax_x 3)
                (HeatmapExplorer.ComponentOf HeatmapExplorer.f_vel HeatmapExplorer.ax_y 3)
                (Some INITIAL_CONFIG) in
  ∃ bodies score,
    HeatmapExplorer.perturbed 0 0 this = Some bodies ∧
    HeatmapExplorer.simStability 0 0 this = Some score ∧
    (0 <=? score)%float = true ∧ (score <=? 1)%float = true.
Proof.
  intros this.
  destruct (simStability_score this 0 0 INITIAL_CONFIG)
    as (bodies & score & H1 & H2 & _ & H3 & H4 & _).
  - reflexivity.
  - simpl. lia.
  - simpl. lia.
  - simpl. lia.
  - exists bodies, score. exact (conj H1 (conj H2 (conj H3 H4))).
Defined.



(** C6.  Residual invariant.  For an engine with the floating accumulator
    at 0 and a finite positive [fixedDt], and for every sequence of
    non-negative increments, if the calls of [step] return then the
    accumulator ends in [0, fixedDt).  For an engine with the microsecond
    accumulator at 0 and a positive [fixedStepUs], and for the
    accumulator test, if the calls return then [accumulatorUs] ends in
    [0, fixedStepUs).  The calls of the microsecond variants do return
    when the increments round to microsecond counts whose total is at
    most [2^53], given fuel beyond the number of sub-steps. *)
Theorem accumulator_residual :
  (∀ (fuel : nat) (dts : list float) (this this' : Sim.PhysicsEngine),
     Sim.accumulator this = 0%float →
     is_finite (Sim.fixedDt this) = true →
     (0 <? Sim.fixedDt this)%float = true →
     Forall (λ d, (0 <=? d)%float = true) dts →
     Sim.run fuel dts this = Some this' →
     Sim.fixedDt this' = Sim.fixedDt this ∧
     (0 <=? Sim.accumulator this')%float = true ∧
     (Sim.accumulator this' <? Sim.fixedDt this')%float = true) ∧
  (∀ (fuel : nat) (dts : list float) (this this' : SimUs.PhysicsEngine),
     SimUs.accumulatorUs this = 0%Z →
     (0 < SimUs.fixedStepUs this)%Z →
     Forall (λ d, (0 <=? d)%float = true) dts →
     SimUs.run fuel dts this = Some this' →
     SimUs.fixedStepUs this' = SimUs.fixedStepUs this ∧
     (0 ≤ SimUs.accumulatorUs this' < SimUs.fixedStepUs this')%Z) ∧
  (∀ (fuel : nat) (dts : list float) (this' : IntegerAccumulatorTest.t),
     Forall (λ d, (0 <=? d)%float = true) dts →
     IntegerAccumulatorTest.run fuel dts IntegerAccumulatorTest.new = Some this' →
     (0 ≤ IntegerAccumulatorTest.accumulatorUs this' < 10000)%Z) ∧
  (∀ (fuel : nat) (dts : list float) (us : list Z),
     microseconds dts us → (total us ≤ 2 ^ 53)%Z →
     Z.to_nat (total us / 10000) < fuel →
     (∃ this', IntegerAccumulatorTest.run fuel dts IntegerAccumulatorTest.new
               = Some this') ∧
     (∀ this : SimUs.PhysicsEngine,
        SimUs.accumulatorUs this = 0%Z → SimUs.fixedStepUs this = 10000%Z →
        ∃ this', SimUs.run fuel dts this = Some this')).
Proof.
  split; [|split; [|split]].
  - intros fuel dts this this' Hacc Hfin Hpos Hall Hrun.
    apply (run_float_residual fuel dts this this'); try done.
    + by rewrite Hacc.
    + by rewrite Hacc.
  - intros fuel dts this this' Hacc Hh Hall Hrun.
    apply (runUs_residual fuel dts this this'); try done. lia.
  - intros fuel dts this' Hall Hrun.
    destruct (run_residual fuel dts IntegerAccumulatorTest.new this' Hall
                ltac:(simpl; lia) Hrun) as [Hh Hr].
    simpl in Hh. by rewrite Hh in Hr.
  - intros fuel dts us Hus Hsafe Hfuel. split.
    + eexists. apply (run_exact fuel dts us Hus 0 0); [lia|done|done].
    + intros [bodies0 G0 soft0 dt0 fixedDt0 h acc]. simpl. intros -> ->.
      destruct (rk4Steps_total G0 soft0 fixedDt0
                  (Z.to_nat ((0 + total us) / 10000)) bodies0) as [bs Hbs].
      destruct (runUs_exact G0 soft0 fixedDt0 10000 ltac:(lia) fuel dts us Hus
                  bodies0 dt0 0%Z bs) as [dt' Hrun]; try done; try lia.
      eauto.
Qed.

(** C1, as the claim states it, fails: the increments 0.005859375,
    0.005859375, 0.23828125 and the single increment 0.25 are
    non-negative and have the same exact total, a quarter of a second,
    yet the first sequence executes 24 sub-steps and the second 25; each
    call rounds its own increment to whole microseconds. *)
Lemma reslicing_by_exact_total_fails :
  ¬ (∀ (fuel : nat) (dts1 dts2 : list float)
       (s1 s2 : IntegerAccumulatorTest.t),
       Forall (λ d, (0 <=? d)%float = true) dts1 →
       Forall (λ d, (0 <=? d)%float = true) dts2 →
       exactTotal dts1 = exactTotal dts2 →
       IntegerAccumulatorTest.run fuel dts1 IntegerAccumulatorTest.new = Some s1 →
       IntegerAccumulatorTest.run fuel dts2 IntegerAccumulatorTest.new = Some s2 →
       IntegerAccumulatorTest.stepsTaken s1 = IntegerAccumulatorTest.stepsTaken s2).
Proof.
  intros H.
  specialize (H 100 [0.005859375; 0.005859375; 0.23828125]%float [0.25]%float
                (IntegerAccumulatorTest.mk 10000 9999 24)
                (IntegerAccumulatorTest.mk 10000 0 25)).
  assert (24 = 25)%Z as Habsurd; [|lia].
  apply H.
  - repeat constructor.
  - repeat constructor.
  - vm_compute. reflexivity.
  - vm_compute. reflexivity.
  - vm_compute. reflexivity.
Qed.

(** C1, amended.  The number of sub-steps depends only on the total of
    the increments as each call rounds them to whole microseconds: for
    every sequence of increments whose microsecond counts [us] are
    non-negative with a total [U] of at most [2^53], and with fuel beyond
    [U / 10000], the accumulator test started afresh ends with
    [stepsTaken = U / 10000] and [accumulatorUs = U mod 10000], and an
    engine started with an empty accumulator and [fixedStepUs = 10000]
    ends with its bodies advanced by exactly [U / 10000] RK4 sub-steps of
    [fixedDt]; so two sequences with the same microsecond total execute
    the same number of sub-steps.  30 calls of 0.1 and 10 calls of 0.3
    each execute exactly 300. *)
Theorem reslicing_by_microsecond_total :
  (∀ (fuel : nat) (dts : list float) (us : list Z),
     microseconds dts us → (total us ≤ 2 ^ 53)%Z →
     Z.to_nat (total us / 10000) < fuel →
     IntegerAccumulatorTest.run fuel dts IntegerAccumulatorTest.new
     = Some (IntegerAccumulatorTest.mk 10000 (total us mod 10000)
                                       (total us / 10000))) ∧
  (∀ (fuel : nat) (dts : list float) (us : list Z) (this : SimUs.PhysicsEngine),
     microseconds dts us → (total us ≤ 2 ^ 53)%Z →
     Z.to_nat (total us / 10000) < fuel →
     SimUs.accumulatorUs this = 0%Z → SimUs.fixedStepUs this = 10000%Z →
     ∃ this' bodies',
       SimUs.run fuel dts this = Some this' ∧
       rk4Steps (SimUs.G this) (SimUs.softening this) (SimUs.fixedDt this)
                (Z.to_nat (total us / 10000)) (SimUs.bodies this) = Some bodies' ∧
       SimUs.bodies this' = bodies' ∧
       SimUs.accumulatorUs this' = (total us mod 10000)%Z) ∧
  (∀ (fuel : nat) (dts1 dts2 : list float) (us1 us2 : list Z),
     microseconds dts1 us1 → microseconds dts2 us2 →
     total us1 = total us2 → (total us1 ≤ 2 ^ 53)%Z →
     Z.to_nat (total us1 / 10000) < fuel →
     ∃ s1 s2,
       IntegerAccumulatorTest.run fuel dts1 IntegerAccumulatorTest.new = Some s1 ∧
       IntegerAccumulatorTest.run fuel dts2 IntegerAccumulatorTest.new = Some s2 ∧
       IntegerAccumulatorTest.stepsTaken s1 = IntegerAccumulatorTest.stepsTaken s2) ∧
  IntegerAccumulatorTest.run 301 (replicate 30 0.1%float) IntegerAccumulatorTest.new
    = Some (IntegerAccumulatorTest.mk 10000 0 300) ∧
  IntegerAccumulatorTest.run 301 (replicate 10 0.3%float) IntegerAccumulatorTest.new
    = Some (IntegerAccumulatorTest.mk 10000 0 300).
Proof.
  assert (Hrun : ∀ (fuel : nat) (dts : list float) (us : list Z),
     microseconds dts us → (total us ≤ 2 ^ 53)%Z →
     Z.to_nat (total us / 10000) < fuel →
     IntegerAccumulatorTest.run fuel dts IntegerAccumulatorTest.new
     = Some (IntegerAccumulatorTest.mk 10000 (total us mod 10000)
                                       (total us / 10000))).
  { intros fuel dts us Hus Hsafe Hfuel.
    apply (run_exact fuel dts us Hus 0 0); [lia|done|done]. }
  split; [exact Hrun|]. split; [|split; [|split]].
  - intros fuel dts us [bodies0 G0 soft0 dt0 fixedDt0 h acc] Hus Hsafe Hfuel.
    simpl. intros -> ->.
    destruct (rk4Steps_total G0 soft0 fixedDt0
                (Z.to_nat (total us / 10000)) bodies0) as [bs Hbs].
    destruct (runUs_exact G0 soft0 fixedDt0 10000 ltac:(lia) fuel dts us Hus
                bodies0 dt0 0%Z bs) as [dt' Hr]; try done; try lia.
    eexists. exists bs. split; [exact Hr|]. done.
  - intros fuel dts1 dts2 us1 us2 H1 H2 Heq Hsafe Hfuel.
    eexists. eexists.
    split; [by apply (Hrun fuel dts1 us1)|].
    split; [apply (Hrun fuel dts2 us2); [done|lia|by rewrite <- Heq]|].
    simpl. by rewrite Heq.
  - vm_compute. reflexivity.
  - vm_compute. reflexivity.
Qed.

(** Thirty increments of 0.1: their microsecond counts are thirty times
    100000, and the general statement gives 300 sub-steps. *)
Lemma reslicing_by_microsecond_total_witness :
  IntegerAccumulatorTest.run 301 (replicate 30 0.1%float) IntegerAccumulatorTest.new
  = Some (IntegerAccumulatorTest.mk 10000 0 300).
Proof.
  apply (proj1 reslicing_by_microsecond_total 301 (replicate 30 0.1%float)
           (replicate 30 100000%Z)).
  - unfold microseconds. simpl.
    repeat (constructor; [split; [vm_compute; reflexivity|lia]|]).
    constructor.
  - vm_compute. discriminate.
  - vm_compute. lia.
Defined.

(** The engine loaded with the initial configuration, driven by the
    increments 0.15 and 0.3: the calls return and the hypotheses of the
    floating part of [accumulator_residual] hold. *)
Lemma accumulator_residual_witness :
  let this := Sim.mk INITIAL_CONFIG 1000 5 0.15 0.01 0 in
  ∃ this',
    Sim.run 100 [0.15; 0.3]%float this = Some this' ∧
    (0 <=? Sim.accumulator this')%float = true ∧
    (Sim.accumulator this' <? Sim.fixedDt this')%float = true.
Proof.
  intros this.
  destruct (Sim.run 100 [0.15; 0.3]%float this) as [this'|] eqn:Hrun;
    [|by vm_compute in Hrun].
  exists this'. split; [reflexivity|].
  destruct (proj1 accumulator_residual 100 [0.15; 0.3]%float this this')
    as (_ & H0 & H1).
  - reflexivity.
  - reflexivity.
  - reflexivity.
  - repeat constructor.
  - exact Hrun.
  - by split.
Defined.

(** * Further properties of the code *)

(** ** Coincident bodies in the engine *)

Section CoincidentEngine.
Local Open Scope float_scope.
Variables G softening : float.

Lemma mult_nanVector s : Vector.mult nanVector s = nanVector.
Proof. unfold Vector.mult, nanVector. simpl. by rewrite mul_nan_l. Qed.

Lemma add_nanVector_r v : Vector.add v nanVector = nanVector.
Proof. unfold Vector.add, nanVector. simpl. by rewrite !add_nan_r. Qed.

Lemma add_nanVector_l v : Vector.add nanVector v = nanVector.
Proof. unfold Vector.add, nanVector. simpl. by rewrite !add_nan_l. Qed.

Lemma sub_nanVector_r v : Vector.sub v nanVector = nanVector.
Proof. unfold Vector.sub, nanVector. simpl. by rewrite !sub_nan_r. Qed.

Lemma sub_nanVector_l v : Vector.sub nanVector v = nanVector.
Proof. unfold Vector.sub, nanVector. simpl. by rewrite !sub_nan_l. Qed.

Lemma forceVector_coincident bi bj :
  pos bi = pos bj → finiteVector (pos bi) = true →
  forceVector G softening bi bj = nanVector.
Proof.
  intros Hpos Hfin. unfold finiteVector in Hfin.
  apply andb_prop in Hfin as [Hfin Hz]. apply andb_prop in Hfin as [Hx Hy].
  unfold forceVector, forceMagnitude, separation, Vector.sub.
  rewrite <- Hpos, !sub_self by done.
  change (Vector.mag (Vector.mk 0 0 0)) with 0.
  unfold Vector.mult, nanVector. simpl. by rewrite !zero_mul_div_zero.
Qed.

Lemma contribution_nanVector state k j :
  contribution G softening state k nanVector j = nanVector.
Proof.
  unfold contribution.
  destruct (state !! k) as [bk|]; [|done].
  destruct (state !! j) as [bj|]; [|done].
  destruct (k <? j)%nat; [by rewrite add_nanVector_l|].
  destruct (j <? k)%nat; [by rewrite sub_nanVector_l|done].
Qed.

Lemma contribution_coincident state k j bk bj cur :
  k ≠ j → state !! k = Some bk → state !! j = Some bj →
  pos bk = pos bj → finiteVector (pos bk) = true →
  contribution G softening state k cur j = nanVector.
Proof.
  intros Hne Hk Hj Hpos Hfin. unfold contribution. rewrite Hk, Hj.
  destruct (k <? j)%nat eqn:E1.
  - rewrite (forceVector_coincident bk bj Hpos Hfin), mult_nanVector.
    apply add_nanVector_r.
  - destruct (j <? k)%nat eqn:E2.
    + rewrite (forceVector_coincident bj bk); [|done|by rewrite <- Hpos].
      rewrite mult_nanVector. apply sub_nanVector_r.
    + apply Nat.ltb_ge in E1, E2. lia.
Qed.

Lemma pull_coincident state k j bk bj upto :
  k ≠ j → state !! k = Some bk → state !! j = Some bj →
  pos bk = pos bj → finiteVector (pos bk) = true →
  (j < upto)%nat →
  pull G softening state k upto = nanVector.
Proof.
  intros Hne Hk Hj Hpos Hfin.
  induction upto as [|m IH]; intros Hlt; [lia|].
  rewrite pull_S. destruct (decide (m = j)) as [->|Hm].
  - by apply (contribution_coincident state k j bk bj).
  - rewrite IH by lia. apply contribution_nanVector.
Qed.

Lemma accelerations_coincident state k j bk bj :
  k ≠ j → state !! k = Some bk → state !! j = Some bj →
  pos bk = pos bj → finiteVector (pos bk) = true →
  accelerations G softening state !! k = Some nanVector.
Proof.
  intros Hne Hk Hj Hpos Hfin. unfold accelerations.
  pose proof (lookup_lt_Some _ _ _ Hk) as Hlk.
  pose proof (lookup_lt_Some _ _ _ Hj) as Hlj.
  rewrite list_lookup_fmap, lookup_seq_lt by done. simpl. f_equal.
  by apply (pull_coincident state k j bk bj).
Qed.
End CoincidentEngine.

(** X1.  In the engine's accelerator a pair of bodies at the same finite
    position gets accelerations that are not numbers on every axis,
    whatever the masses, [G] and the softening: the direction is
    normalised by the unsoftened distance, which is zero. *)
Theorem getAccelerations_coincident_nan (G softening : float)
    (state : list Body) (i j : nat) (bi bj : Body) :
  i ≠ j → state !! i = Some bi → state !! j = Some bj →
  pos bi = pos bj → finiteVector (pos bi) = true →
  ∃ acc, getAccelerations G softening state = Some acc ∧
         acc !! i = Some nanVector ∧ acc !! j = Some nanVector.
Proof.
  intros Hne Hi Hj Hpos Hfin.
  exists (accelerations G softening state).
  split; [apply getAccelerations_accelerations|]. split.
  - by apply (accelerations_coincident G softening state i j bi bj).
  - apply (accelerations_coincident G softening state j i bj bi); try done.
    by rewrite <- Hpos.
Qed.

(** Two bodies of mass 20 at the origin, a third elsewhere. *)
Lemma getAccelerations_coincident_nan_witness :
  let b := mkBody Vector.zero Vector.zero 20 None None in
  let c := mkBody (Vector.mk 3 4 0) Vector.zero 15 None None in
  ∃ acc, getAccelerations 1000 5 [b; c; b] = Some acc ∧
         acc !! 0 = Some nanVector ∧ acc !! 2 = Some nanVector.
Proof.
  intros b c.
  apply (getAccelerations_coincident_nan 1000 5 [b; c; b] 0 2 b b);
    [lia|reflexivity|reflexivity|reflexivity|reflexivity].
Defined.

Section CoincidentStep.
Local Open Scope float_scope.

Lemma advanced_lookup state v a h i s vi ai :
  state !! i = Some s → v !! i = Some vi → a !! i = Some ai →
  advanced state v a h !! i
  = Some (mkBody (Vector.add (pos s) (Vector.mult vi h))
                 (Vector.add (vel s) (Vector.mult ai h)) (mass s) None None).
Proof.
  intros Hs Hv Ha. unfold advanced.
  rewrite list_lookup_fmap, !lookup_zip_with, Hs, Hv, Ha. done.
Qed.

Lemma weighted_nan_1 k2 k3 k4 dt : weighted nanVector k2 k3 k4 dt = nanVector.
Proof.
  unfold weighted. by rewrite !add_nanVector_l, mult_nanVector.
Qed.

Lemma weighted_nan_2 k1 k3 k4 dt : weighted k1 nanVector k3 k4 dt = nanVector.
Proof.
  unfold weighted.
  by rewrite mult_nanVector, add_nanVector_r, !add_nanVector_l, mult_nanVector.
Qed.
End CoincidentStep.

(** X2.  One RK4 step on a state in which two bodies share a finite
    position leaves each of the two with a position and a velocity that
    are not numbers on every axis; the step itself does not fail and the
    mass is kept. *)
Theorem rk4Step_coincident_nan (G softening dt : float) (bodies : list Body)
    (i j : nat) (bi bj : Body) :
  i ≠ j → bodies !! i = Some bi → bodies !! j = Some bj →
  pos bi = pos bj → finiteVector (pos bi) = true →
  ∃ bodies' bi',
    rk4Step G softening dt bodies = Some bodies' ∧
    bodies' !! i = Some bi' ∧
    pos bi' = nanVector ∧ vel bi' = nanVector ∧ mass bi' = mass bi.
Proof.
  intros Hne Hi Hj Hpos Hfin.
  destruct (rk4Step_stages G softening dt bodies)
    as (Hrun & H1 & H2 & H3 & H4 & H5 & H6 & H7 & H8).
  destruct (commit_loop _ _ _ _ _ _ _ _ dt bodies H1 H2 H3 H4 H5 H6 H7 H8)
    as (bodies' & Hloop & Hlen & Hupd).
  destruct (Hupd i bi Hi)
    as (a1i & a2i & a3i & a4i & v1i & v2i & v3i & v4i &
        E1 & E2 & E3 & E4 & F1 & F2 & F3 & F4 & Hb).
  set (base := cloneState bodies) in *.
  assert (Hbi : base !! i
                = Some (mkBody (Vector.clone (pos bi)) (Vector.clone (vel bi))
                               (mass bi) None None)).
  { unfold base, cloneState. by rewrite list_lookup_fmap, Hi. }
  assert (Hbj : base !! j
                = Some (mkBody (Vector.clone (pos bj)) (Vector.clone (vel bj))
                               (mass bj) None None)).
  { unfold base, cloneState. by rewrite list_lookup_fmap, Hj. }
  assert (Ha1 : accelerations G softening base !! i = Some nanVector).
  { apply (accelerations_coincident G softening base i j _ _ Hne Hbi Hbj);
      simpl; rewrite !clone_id; done. }
  simpl in E1, F2.
  fold base in E1, F2.
  assert (a1i = nanVector) as -> by congruence.
  assert (v2i = nanVector) as ->.
  { rewrite list_lookup_fmap in F2.
    rewrite (advanced_lookup base (vel <$> base) _ (dt * 0.5) i _
               (Vector.clone (vel bi)) nanVector Hbi) in F2.
    - simpl in F2. rewrite mult_nanVector, add_nanVector_r in F2. congruence.
    - by rewrite list_lookup_fmap, Hbi.
    - done. }
  rewrite weighted_nan_1, weighted_nan_2, !add_nanVector_r in Hb.
  exists bodies'. eexists. split; [by rewrite Hrun|]. split; [exact Hb|]. done.
Qed.

(** The same three bodies as for the accelerator. *)
Lemma rk4Step_coincident_nan_witness :
  let b := mkBody Vector.zero Vector.zero 20 None None in
  let c := mkBody (Vector.mk 3 4 0) Vector.zero 15 None None in
  ∃ bodies' b',
    rk4Step 1000 5 0.01 [b; c; b] = Some bodies' ∧
    bodies' !! 0 = Some b' ∧
    pos b' = nanVector ∧ vel b' = nanVector ∧ mass b' = 20%float.
Proof.
  intros b c.
  apply (rk4Step_coincident_nan 1000 5 0.01 [b; c; b] 0 2 b b);
    [lia|reflexivity|reflexivity|reflexivity|reflexivity].
Defined.

(** ** The energy of coincident bodies *)

Section CoincidentEnergy.
Local Open Scope float_scope.
Variable G : float.

Lemma pairs_lookup bodies : ∀ i j bi bj,
  (i < j)%nat → bodies !! i = Some bi → bodies !! j = Some bj →
  (bi, bj) ∈ pairs bodies.
Proof.
  induction bodies as [|b rest IH]; intros i j bi bj Hij Hi Hj; [done|].
  destruct j as [|j]; [lia|]. simpl in Hj. simpl.
  apply elem_of_app. destruct i as [|i].
  - injection Hi as ->. left. apply list_elem_of_fmap.
    exists bj. split; [done|]. by apply list_elem_of_lookup_2 with j.
  - right. apply (IH i j); [lia|done|done].
Qed.

Lemma potential_coincident bi bj :
  pos bi = pos bj → finiteVector (pos bi) = true →
  is_finite (potential G bi bj) = false.
Proof.
  intros Hpos Hfin. unfold finiteVector in Hfin.
  apply andb_prop in Hfin as [Hfin Hz]. apply andb_prop in Hfin as [Hx Hy].
  unfold potential, Vector.dist. rewrite <- Hpos, !sub_self by done.
  change (sqrt (JS.sq 0 + JS.sq 0 + JS.sq 0)) with 0.
  apply opp_not_finite, div_zero_not_finite.
Qed.

Lemma potential_fold_not_finite l : ∀ s,
  is_finite s = false ∨
  (∃ p, p ∈ l ∧ is_finite (potential G p.1 p.2) = false) →
  is_finite (foldl (λ s '(bi, bj), s + potential G bi bj) s l) = false.
Proof.
  induction l as [|[bi bj] l IH]; intros s H; simpl.
  - destruct H as [H|(p & Hp & _)]; [done|]. by apply elem_of_nil in Hp.
  - apply IH. destruct H as [H|(p & Hp & Hnf)].
    + left. apply add_not_finite. by left.
    + apply elem_of_cons in Hp as [->|Hp].
      * left. apply add_not_finite. by right.
      * right. by exists p.
Qed.
End CoincidentEnergy.

(** X3.  The energy diagnostic of a state in which two bodies share a
    finite position is not finite (an infinity or not a number), whatever
    the masses and [G]: the potential divides by the unsoftened distance.
    The call still returns and leaves the engine as it was. *)
Theorem getTotalEnergy_coincident_not_finite (this : Physics.PhysicsEngine)
    (i j : nat) (bi bj : Body) :
  (i < j)%nat →
  Physics.bodies this !! i = Some bi → Physics.bodies this !! j = Some bj →
  pos bi = pos bj → finiteVector (pos bi) = true →
  ∃ e, Physics.getTotalEnergy this = Some (e, this) ∧ is_finite e = false.
Proof.
  intros Hij Hi Hj Hpos Hfin. unfold Physics.getTotalEnergy.
  rewrite totalEnergy_sums. simpl. eexists. split; [done|].
  apply add_not_finite. right. unfold potentialSum.
  apply potential_fold_not_finite. right. exists (bi, bj).
  split; [by apply (pairs_lookup _ i j)|].
  by apply potential_coincident.
Qed.

Lemma getTotalEnergy_coincident_not_finite_witness :
  let b := mkBody Vector.zero Vector.zero 20 None None in
  let c := mkBody (Vector.mk 3 4 0) Vector.zero 15 None None in
  let this := Physics.new [b; c; b] None None in
  ∃ e, Physics.getTotalEnergy this = Some (e, this) ∧ is_finite e = false.
Proof.
  intros b c this.
  apply (getTotalEnergy_coincident_not_finite this 0 2 b b);
    [lia|reflexivity|reflexivity|reflexivity|reflexivity].
Defined.

(** ** Not-a-number positions in the sweep *)

Section SweepNaN.
Local Open Scope float_scope.
Import HeatmapExplorer.

Lemma Math_max_nan_l b : JS.Math_max nan b = nan.
Proof. reflexivity. Qed.

Lemma Math_max_nan_r a : JS.Math_max a nan = nan.
Proof. unfold JS.Math_max. by rewrite orb_true_r. Qed.

Lemma eulerBody_hasNaN acc b :
  hasNaN (pos b) = true →
  hasNaN (pos (eulerBody acc b)) = true ∧ squaredDistance (eulerBody acc b) = nan.
Proof.
  unfold hasNaN, squaredDistance, eulerBody, JS.sq. simpl. intros H.
  apply orb_prop in H as [H|H]; [apply orb_prop in H as [H|H]|];
    apply is_nan_eq in H; rewrite H;
    rewrite ?add_nan_l, ?mul_nan_l, ?add_nan_r, ?add_nan_l;
    split; try reflexivity; by rewrite ?orb_true_r.
Qed.

Lemma sweepStep_hasNaN bodies a b :
  (a < 3)%nat → bodies !! a = Some b → hasNaN (pos b) = true →
  (3 ≤ length bodies)%nat →
  ∃ r b', sweepStep bodies = Some r ∧ r.2 = nan ∧
          length r.1 = length bodies ∧
          r.1 !! a = Some b' ∧ hasNaN (pos b') = true ∧
          squaredDistance b' = nan.
Proof.
  intros Ha Hb Hnan Hlen.
  destruct bodies as [|b0 [|b1 [|b2 rest]]]; simpl in Hlen; try lia.
  rewrite sweepStep_three. cbv zeta.
  destruct a as [|[|[|a]]]; try lia; simpl in Hb; injection Hb as <-;
    eexists (_, _), _; (split; [reflexivity|]); cbn [fst snd];
    (split; [rewrite (proj2 (eulerBody_hasNaN _ _ Hnan));
             by rewrite ?Math_max_nan_r, ?Math_max_nan_l|]);
    (split; [reflexivity|]); (split; [reflexivity|]);
    (split; [apply (proj1 (eulerBody_hasNaN _ _ Hnan))
            |apply (proj2 (eulerBody_hasNaN _ _ Hnan))]).
Qed.

Lemma sweep_hasNaN remaining : ∀ i bodies a b,
  (a < 3)%nat → bodies !! a = Some b → hasNaN (pos b) = true →
  (3 ≤ length bodies)%nat →
  sweep remaining i bodies = Some 1.
Proof.
  induction remaining as [|r IH]; intros i bodies a b Ha Hb Hnan Hlen; [done|].
  destruct (sweepStep_hasNaN bodies a b Ha Hb Hnan Hlen)
    as ([bodies' maxD2] & b' & Hstep & Hmax & Hlen' & Hb' & Hnan' & _).
  simpl in *. rewrite Hstep. simpl. subst maxD2.
  unfold JS.gt. rewrite ltb_nan_r.
  apply (IH _ bodies' a b'); try done. lia.
Qed.

Lemma noNaN_false_escapesAt k bodies :
  noNaN k bodies = false → escapesAt k bodies = false.
Proof.
  unfold noNaN, escapesAt, distancesAt.
  destruct (bodiesAfter k bodies ≫= sweepStep) as [r|] eqn:E; [|done].
  destruct (bodiesAfter k bodies) as [bs|]; [|done]. simpl in E.
  destruct bs as [|b0 [|b1 [|b2 rest]]]; try done.
  rewrite sweepStep_three in E. injection E as <-. simpl.
  set (d0 := squaredDistance _). set (d1 := squaredDistance _).
  set (d2 := squaredDistance _). intros H.
  unfold JS.gt.
  destruct (is_nan d0) eqn:E0.
  { apply is_nan_eq in E0. rewrite E0.
    by rewrite Math_max_nan_r, !Math_max_nan_l, ltb_nan_r. }
  destruct (is_nan d1) eqn:E1.
  { apply is_nan_eq in E1. rewrite E1.
    by rewrite Math_max_nan_r, !Math_max_nan_l, ltb_nan_r. }
  destruct (is_nan d2) eqn:E2.
  { apply is_nan_eq in E2. rewrite E2.
    by rewrite Math_max_nan_r, ltb_nan_r. }
  done.
Qed.
End SweepNaN.

(** X4.  A squared distance that is not a number hides the escape test:
    an iteration of the sweep in which one of the three squared distances
    is [NaN] never ends with [maxD2 > esc], and once one of the three
    bodies has a position with a [NaN] component the sweep runs through
    its whole budget and returns 1, wherever the other bodies are.  There
    is a well-formed base configuration for which the first iteration
    leaves a body beyond the threshold and [simStability] still returns
    1. *)
Theorem sweep_nan_hides_escape :
  (∀ (k : nat) (bodies : list Body),
     HeatmapExplorer.noNaN k bodies = false →
     HeatmapExplorer.escapesAt k bodies = false) ∧
  (∀ (remaining : nat) (i : float) (bodies : list Body) (a : nat) (b : Body),
     a < 3 → bodies !! a = Some b → hasNaN (pos b) = true →
     3 ≤ length bodies →
     HeatmapExplorer.sweep remaining i bodies = Some 1%float) ∧
  (∃ (this : HeatmapExplorer.t) (gridX gridY : float) (bodies : list Body),
     HeatmapExplorer.perturbed gridX gridY this = Some bodies ∧
     forallb wellFormed bodies = true ∧
     HeatmapExplorer.someBodyBeyond 0 bodies = true ∧
     HeatmapExplorer.simStability gridX gridY this = Some 1%float).
Proof.
  split; [|split].
  - apply noNaN_false_escapesAt.
  - intros remaining i bodies a b. apply sweep_hasNaN.
  - exists COINCIDENT_EXPLORER, 100%float, 100%float, COINCIDENT_CONFIG.
    split; [vm_compute; reflexivity|].
    split; [vm_compute; reflexivity|].
    split; vm_compute; reflexivity.
Qed.

(** ** The colour of a heatmap cell *)

Section PixelColor.
Local Open Scope float_scope.
Import HeatmapExplorer.

Lemma colors_checked :
  forallb (λ k, color_ok (counter k / steps)) (seq 0 1000) && color_ok 1 = true.
Proof. vm_compute. reflexivity. Qed.

Lemma color_ok_spec pixelSize x y score :
  color_ok score = true →
  ∃ r g : Z,
    red (drawPixel pixelSize x y score) = Some r ∧
    green (drawPixel pixelSize x y score) = Some g ∧
    (0 ≤ r ≤ 255)%Z ∧ (0 ≤ g ≤ 255)%Z ∧ (r = 255 ∨ g = 255)%Z.
Proof.
  unfold color_ok.
  change (red (drawPixel 0 0 0 score)) with (red (drawPixel pixelSize x y score)).
  change (green (drawPixel 0 0 0 score))
    with (green (drawPixel pixelSize x y score)).
  destruct (red _) as [r|]; [|done]. destruct (green _) as [g|]; [|done].
  intros H. exists r, g.
  repeat (apply andb_prop in H as [H ?]).
  split; [done|]. split; [done|].
  assert (r = 255 ∨ g = 255)%Z by (apply orb_prop in H0 as [E|E]; lia).
  lia.
Qed.
End PixelColor.

(** X5.  Every score that [simStability] returns is drawn with a valid
    colour: for an explorer whose base configuration has at least three
    bodies and whose parameters name bodies of it, the red and green
    channels that [drawPixel] computes from the score of any cell are
    integers between 0 and 255, and one of them is 255. *)
Theorem drawPixel_of_simStability (this : HeatmapExplorer.t)
    (gridX gridY pixelSize : float) (base : list Body) :
  HeatmapExplorer.baseConfig this = Some base →
  3 ≤ length base →
  1 ≤ HeatmapExplorer.paramIndex (HeatmapExplorer.xAxis this) ≤ length base →
  1 ≤ HeatmapExplorer.paramIndex (HeatmapExplorer.yAxis this) ≤ length base →
  ∃ (score : float) (r g : Z),
    HeatmapExplorer.simStability gridX gridY this = Some score ∧
    HeatmapExplorer.red
      (HeatmapExplorer.drawPixel pixelSize gridX gridY score) = Some r ∧
    HeatmapExplorer.green
      (HeatmapExplorer.drawPixel pixelSize gridX gridY score) = Some g ∧
    (0 ≤ r ≤ 255)%Z ∧ (0 ≤ g ≤ 255)%Z ∧ (r = 255 ∨ g = 255)%Z.
Proof.
  intros Hbase Hlen Hx Hy.
  destruct (perturbed_total gridX gridY this base Hbase Hx Hy)
    as (bodies & Hpert & Hlen').
  destruct (sweep_outcome 1000 0 bodies ltac:(lia)) as (score & Hrun & Hscore).
  pose proof colors_checked as Hc. apply andb_prop in Hc as [Hall Hone].
  assert (Hok : HeatmapExplorer.color_ok score = true).
  { destruct Hscore as [(k & Hk & _ & _ & ->)|[_ ->]]; [|exact Hone].
    destruct (counter_spec k Hk) as (-> & _ & _).
    exact (proj1 (forallb_forall _ _) Hall k ltac:(apply in_seq; lia)). }
  destruct (color_ok_spec pixelSize gridX gridY score Hok)
    as (r & g & Hr & Hg & Hbounds).
  exists score, r, g. split; [|exact (conj Hr (conj Hg Hbounds))].
  unfold HeatmapExplorer.simStability. rewrite Hpert. exact Hrun.
Qed.

Lemma drawPixel_of_simStability_witness :
  let this := HeatmapExplorer.mk 200 0 0 1 8
                (HeatmapExplorer.ComponentOf HeatmapExplorer.f_vel HeatmapExplorer.ax_x 3)
                (HeatmapExplorer.ComponentOf HeatmapExplorer.f_vel HeatmapExplorer.ax_y 3)
                (Some INITIAL_CONFIG) in
  ∃ (score : float) (r g : Z),
    HeatmapExplorer.simStability 10 20 this = Some score ∧
    HeatmapExplorer.red (HeatmapExplorer.drawPixel 2.5 10 20 score) = Some r ∧
    HeatmapExplorer.green (HeatmapExplorer.drawPixel 2.5 10 20 score) = Some g ∧
    (0 ≤ r ≤ 255)%Z ∧ (0 ≤ g ≤ 255)%Z ∧ (r = 255 ∨ g = 255)%Z.
Proof.
  intros this.
  refine (drawPixel_of_simStability this 10 20 2.5 INITIAL_CONFIG
            eq_refl _ _ _); simpl; lia.
Defined.

(** ** The floating accumulator *)

Section FloatAccumulator.
Import Sim.
Local Open Scope float_scope.

Lemma loop_passes G0 softening0 dt0 h fuel : ∀ bodies0 acc,
  while_loop fuel
    (λ this, JS.ge (accumulator this) (fixedDt this))
    (λ this,
       '(_, this2) ← integrate (fixedDt this) this;
       Some (set_accumulator (accumulator this2 - fixedDt this2) this2))
    (mk bodies0 G0 softening0 dt0 h acc)
  = '(n, r) ← passes fuel acc h;
    bodies' ← rk4Steps G0 softening0 h n bodies0;
    Some (mk bodies' G0 softening0 dt0 h r).
Proof.
  induction fuel as [|f IH]; intros bodies0 acc; [done|].
  cbn [while_loop passes accumulator fixedDt].
  destruct (JS.ge acc h); [|done].
  destruct (rk4Step_total G0 softening0 h bodies0) as (bs & Hbs & _).
  assert (Hint : integrate h (mk bodies0 G0 softening0 dt0 h acc)
                 = Some (tt, mk bs G0 softening0 dt0 h acc)).
  { unfold integrate. cbn [G softening bodies]. by rewrite Hbs. }
  rewrite Hint.
  cbn [mbind option_bind set_accumulator accumulator fixedDt bodies G
       softening dt].
  unfold set_accumulator at 2.
  cbn [accumulator fixedDt bodies G softening dt].
  rewrite IH.
  destruct (passes f (acc - h) h) as [[n r]|]; [|done].
  cbn. by rewrite Hbs.
Qed.

Lemma step_passes fuel this :
  step fuel this
  = '(n, r) ← passes fuel (accumulator this + dt this) (fixedDt this);
    bodies' ← rk4Steps (G this) (softening this) (fixedDt this) n (bodies this);
    Some (tt, mk bodies' (G this) (softening this) (dt this) (fixedDt this) r).
Proof.
  destruct this as [bodies0 G0 softening0 dt0 h acc].
  unfold step, set_accumulator. cbn [bodies G softening dt fixedDt accumulator].
  rewrite loop_passes.
  destruct (passes fuel (acc + dt0) h) as [[n r]|]; [|done]. cbn.
  by destruct (rk4Steps G0 softening0 h n bodies0).
Qed.

Lemma run_passes fuel dts : ∀ this n r,
  runPasses fuel dts (accumulator this) (fixedDt this) = Some (n, r) →
  ∃ this',
    run fuel dts this = Some this' ∧
    rk4Steps (G this) (softening this) (fixedDt this) n (bodies this)
    = Some (bodies this') ∧
    accumulator this' = r ∧ G this' = G this ∧
    softening this' = softening this ∧ fixedDt this' = fixedDt this.
Proof.
  induction dts as [|d rest IH]; intros this n r Hp.
  - injection Hp as <- <-. by exists this.
  - cbn [runPasses] in Hp.
    destruct (passes fuel (accumulator this + d) (fixedDt this))
      as [[n1 r1]|] eqn:H1; [|done].
    cbn in Hp.
    destruct (runPasses fuel rest r1 (fixedDt this)) as [[m r']|] eqn:H2; [|done].
    injection Hp as <- <-.
    destruct (rk4Steps_total (G this) (softening this) (fixedDt this) n1
                (bodies this)) as [bs Hbs].
    set (this1 := mk bs (G this) (softening this) d (fixedDt this) r1).
    destruct (IH this1 m r' H2) as (this' & Hrun & Hsteps & Hacc & HG & Hs & Hh).
    exists this'. cbn [run]. rewrite step_passes.
    destruct this as [bodies0 G0 softening0 dt0 h acc].
    cbn [set_dt bodies G softening dt fixedDt accumulator] in *.
    rewrite H1. cbn. rewrite Hbs. cbn. fold this1.
    split; [done|]. split; [|done].
    rewrite rk4Steps_add, Hbs. done.
Qed.

Lemma run_passes_none fuel dts : ∀ this,
  runPasses fuel dts (accumulator this) (fixedDt this) = None →
  run fuel dts this = None.
Proof.
  induction dts as [|d rest IH]; intros this Hp; [done|].
  cbn [runPasses] in Hp. cbn [run]. rewrite step_passes.
  destruct this as [bodies0 G0 softening0 dt0 h acc].
  cbn [set_dt bodies G softening dt fixedDt accumulator] in *.
  destruct (passes fuel (acc + d) h) as [[n1 r1]|] eqn:H1; [|done].
  cbn in Hp |- *.
  destruct (rk4Steps_total G0 softening0 h n1 bodies0) as [bs Hbs].
  rewrite Hbs. cbn.
  apply IH. cbn.
  by destruct (runPasses fuel rest r1 h) as [[m r']|].
Qed.

Lemma passes_mono fuel : ∀ fuel' acc h res,
  fuel ≤ fuel' → passes fuel acc h = Some res → passes fuel' acc h = Some res.
Proof.
  induction fuel as [|f IH]; intros fuel' acc h res Hle Hp; [done|].
  destruct fuel' as [|f']; [lia|]. cbn [passes] in *.
  destruct (JS.ge acc h); [|done].
  destruct (passes f (acc - h) h) as [[n r]|] eqn:E; [|done].
  by rewrite (IH f' _ _ (n, r) ltac:(lia) E).
Qed.

Lemma runPasses_mono fuel fuel' dts : ∀ acc h res,
  fuel ≤ fuel' →
  runPasses fuel dts acc h = Some res → runPasses fuel' dts acc h = Some res.
Proof.
  induction dts as [|d rest IH]; intros acc h res Hle Hp; [done|].
  cbn [runPasses] in *.
  destruct (passes fuel (acc + d) h) as [[n r]|] eqn:E; [|done].
  rewrite (passes_mono fuel fuel' _ _ (n, r) Hle E). cbn in *.
  destruct (runPasses fuel rest r h) as [[m r']|] eqn:E2; [|done].
  by rewrite (IH _ _ (m, r') Hle E2).
Qed.

Lemma frames_run fuel n : ∀ this,
  frames fuel n this = run fuel (replicate n (dt this)) this.
Proof.
  induction n as [|k IH]; intros this; [done|].
  cbn [frames replicate run].
  replace (set_dt (dt this) this) with this by (by destruct this).
  rewrite step_passes.
  destruct (passes _ _ _) as [[m r]|]; [|done]. cbn.
  destruct (rk4Steps _ _ _ _ _) as [bs|]; [|done]. cbn.
  by rewrite IH.
Qed.

(** A loop whose subtraction is absorbed never leaves. *)
Lemma passes_stuck acc h :
  JS.ge acc h = true → acc - h = acc → ∀ fuel, passes fuel acc h = None.
Proof.
  intros Hge Hsub fuel. induction fuel as [|f IH]; [done|].
  cbn [passes]. by rewrite Hge, Hsub, IH.
Qed.
End FloatAccumulator.

Section ConsistencyScript.
Import Sim.
Local Open Scope float_scope.

Lemma slow_passes :
  ∃ r, runPasses 31 (replicate 100 0.15) 0 0.01 = Some (1499%nat, r).
Proof. eexists. vm_compute. reflexivity. Qed.

Lemma fast_passes :
  ∃ r, runPasses 31 (replicate 50 0.30) 0 0.01 = Some (1499%nat, r).
Proof. eexists. vm_compute. reflexivity. Qed.

Lemma abs_sub_self s : (abs (s - s) <? 1e-5) = is_finite s.
Proof.
  rewrite is_finite_spec, FloatAxioms.ltb_spec, abs_spec.
  destruct (is_finite s) eqn:Hfin.
  - rewrite (sub_self s Hfin). rewrite is_finite_spec in Hfin.
    destruct (Prim2SF s) as [b|b| |b m e]; try done; vm_compute; reflexivity.
  - rewrite is_finite_spec in Hfin. rewrite sub_spec.
    destruct (Prim2SF s) as [b|b| |b m e]; try done. by destruct b.
Qed.

Lemma microseconds_replicate n d u :
  JS.Math_round (d * 1000000) = Some u → (0 ≤ u)%Z →
  microseconds (replicate n d) (replicate n u) ∧
  total (replicate n u) = (Z.of_nat n * u)%Z.
Proof.
  intros Hd Hu. induction n as [|k [IH1 IH2]].
  - split; [constructor|done].
  - split; [by constructor|].
    cbn [replicate total foldr]. fold (total (replicate k u)). lia.
Qed.
End ConsistencyScript.

(** X6.  A call of [step] of the engine with the floating accumulator
    advances the bodies by a whole number of RK4 sub-steps of [fixedDt].
    That number and the accumulator left behind are those of the
    accumulator loop run on its own: they depend on [accumulator], [dt]
    and [fixedDt] and on nothing else, [G], [softening], [dt] and
    [fixedDt] are unchanged and the body count is kept.  The call gives no
    result exactly when that loop does not end within the fuel. *)
Theorem step_whole_substeps (fuel : nat) (this : Sim.PhysicsEngine) :
  match Sim.passes fuel (Sim.accumulator this + Sim.dt this)%float
                   (Sim.fixedDt this) with
  | Some (n, r) =>
      ∃ bodies',
        Sim.step fuel this
        = Some (tt, Sim.mk bodies' (Sim.G this) (Sim.softening this)
                           (Sim.dt this) (Sim.fixedDt this) r) ∧
        rk4Steps (Sim.G this) (Sim.softening this) (Sim.fixedDt this) n
                 (Sim.bodies this) = Some bodies' ∧
        length bodies' = length (Sim.bodies this)
  | None => Sim.step fuel this = None
  end.
Proof.
  rewrite step_passes.
  destruct (Sim.passes _ _ _) as [[n r]|]; [|done]. cbn.
  destruct (rk4Steps_total (Sim.G this) (Sim.softening this) (Sim.fixedDt this)
              n (Sim.bodies this)) as [bs Hbs].
  exists bs. rewrite Hbs. split; [done|]. split; [done|].
  clear -Hbs. revert Hbs. generalize (Sim.bodies this).
  induction n as [|k IH]; intros l Hl.
  - by injection Hl as <-.
  - cbn [rk4Steps] in Hl.
    destruct (rk4Step_total (Sim.G this) (Sim.softening this)
                (Sim.fixedDt this) l) as (l1 & H1 & Hlen).
    rewrite H1 in Hl. cbn in Hl. rewrite (IH l1 Hl). done.
Qed.

(** X7.  The script of verify_consistency.js, run on any configuration
    with fuel beyond 1500 passes: the run of 100 frames at 0.15 and the
    run of 50 frames at 0.30 both advance the installed bodies by the
    same 1499 sub-steps of 0.01, not 1500, so the script's test
    [diff < 1e-5] succeeds exactly when the sum of the final coordinates
    is finite.  The engine with the microsecond accumulator executes 1500
    sub-steps on the same 100 frames. *)
Theorem determinismCheck_outcome (fuel : nat) (config : list Body) :
  1500 < fuel →
  ∃ bodies' thisUs bodiesUs,
    rk4Steps 1000 5 0.01 1499 (Sim.install <$> config) = Some bodies' ∧
    Sim.determinismCheck fuel config = Some (is_finite (Sim.stateSum bodies')) ∧
    SimUs.run fuel (replicate 100 0.15%float)
      (SimUs.mk (Sim.install <$> config) 1000 5 0.45 0.01 10000 0) = Some thisUs ∧
    rk4Steps 1000 5 0.01 1500 (Sim.install <$> config) = Some bodiesUs ∧
    SimUs.bodies thisUs = bodiesUs.
Proof.
  intros Hfuel.
  destruct slow_passes as [r1 H1]. destruct fast_passes as [r2 H2].
  apply (runPasses_mono 31 fuel _ _ _ _ ltac:(lia)) in H1, H2.
  set (loaded := Sim.set_bodies (Sim.install <$> config) Sim.new).
  destruct (run_passes fuel _ (Sim.set_dt 0.15 loaded) _ _ H1)
    as (s1 & Hrun1 & Hsteps1 & _).
  destruct (run_passes fuel _ (Sim.set_dt 0.30 loaded) _ _ H2)
    as (s2 & Hrun2 & Hsteps2 & _).
  change (rk4Steps 1000 5 0.01 1499 (Sim.install <$> config)
          = Some (Sim.bodies s1)) in Hsteps1.
  change (rk4Steps 1000 5 0.01 1499 (Sim.install <$> config)
          = Some (Sim.bodies s2)) in Hsteps2.
  assert (Hsame : Sim.bodies s2 = Sim.bodies s1) by congruence.
  destruct (rk4Steps_total 1000 5 0.01 1500 (Sim.install <$> config))
    as [bodiesUs HUs].
  destruct (microseconds_replicate 100 0.15 150000) as [Hus Htot];
    [vm_compute; reflexivity|lia|].
  change (Z.of_nat 100 * 150000)%Z with 15000000%Z in Htot.
  destruct (runUs_exact 1000 5 0.01 10000 ltac:(lia) fuel _ _ Hus
              (Sim.install <$> config) 0.45%float 0%Z bodiesUs)
    as [dt' HrunUs].
  { lia. }
  { rewrite Htot. lia. }
  { rewrite Htot. change ((0 + 15000000) / 10000)%Z with 1500%Z. lia. }
  { rewrite Htot. exact HUs. }
  eexists (Sim.bodies s1), _, bodiesUs.
  split; [exact Hsteps1|]. split; [|split; [exact HrunUs|by split]].
  unfold Sim.determinismCheck, Sim.loadConfig.
  cbn [mbind option_bind]. fold loaded.
  rewrite !frames_run.
  change (Sim.dt (Sim.set_dt 0.15 loaded)) with 0.15%float.
  change (Sim.dt (Sim.set_dt 0.30 loaded)) with 0.30%float.
  rewrite Hrun1, Hrun2. cbn [mbind option_bind Sim.getTotalState].
  rewrite Hsame. f_equal. apply abs_sub_self.
Qed.

Lemma determinismCheck_outcome_witness :
  ∃ bodies' thisUs bodiesUs,
    rk4Steps 1000 5 0.01 1499 (Sim.install <$> INITIAL_CONFIG) = Some bodies' ∧
    Sim.determinismCheck 1501 INITIAL_CONFIG
    = Some (is_finite (Sim.stateSum bodies')) ∧
    SimUs.run 1501 (replicate 100 0.15%float)
      (SimUs.mk (Sim.install <$> INITIAL_CONFIG) 1000 5 0.45 0.01 10000 0)
    = Some thisUs ∧
    rk4Steps 1000 5 0.01 1500 (Sim.install <$> INITIAL_CONFIG) = Some bodiesUs ∧
    SimUs.bodies thisUs = bodiesUs.
Proof. apply (determinismCheck_outcome 1501 INITIAL_CONFIG). lia. Defined.

(** X8.  When the subtraction of [fixedDt] from the accumulator is
    absorbed by rounding ([acc - fixedDt] is [acc] again) and the loop
    condition holds, the loop of [step] never ends: the call gives no
    result whatever the fuel.  So it is for [dt = 1e300] in a fresh
    engine. *)
Theorem step_absorbed_never_returns (this : Sim.PhysicsEngine) :
  JS.ge (Sim.accumulator this + Sim.dt this)%float (Sim.fixedDt this) = true →
  (Sim.accumulator this + Sim.dt this - Sim.fixedDt this
   = Sim.accumulator this + Sim.dt this)%float →
  ∀ fuel, Sim.step fuel this = None.
Proof.
  intros Hge Habs fuel. rewrite step_passes.
  by rewrite (passes_stuck _ _ Hge Habs fuel).
Qed.

Lemma step_absorbed_never_returns_witness :
  Sim.step 1000 (Sim.set_dt 1e300 Sim.new) = None.
Proof.
  apply (step_absorbed_never_returns (Sim.set_dt 1e300 Sim.new));
    vm_compute; reflexivity.
Defined.

(** X9.  A [dt] that is not a number poisons the accumulator for good: the
    call of [step] returns without a sub-step and leaves the accumulator
    [NaN], and from a [NaN] accumulator every later sequence of calls,
    whatever the increments, returns with the bodies as they were. *)
Theorem nan_dt_freezes_engine (fuel : nat) (this : Sim.PhysicsEngine) :
  0 < fuel →
  (is_nan (Sim.dt this) = true →
   Sim.step fuel this = Some (tt, Sim.set_accumulator nan this)) ∧
  (is_nan (Sim.accumulator this) = true →
   ∀ dts, ∃ this',
     Sim.run fuel dts this = Some this' ∧
     Sim.bodies this' = Sim.bodies this ∧
     Sim.accumulator this' = nan).
Proof.
  intros Hfuel.
  assert (Hp : ∀ d h, Sim.passes fuel (nan + d) h = Some (0, nan)).
  { intros d h. destruct fuel as [|f]; [lia|].
    cbn [Sim.passes]. rewrite add_nan_l. unfold JS.ge. by rewrite leb_nan_r. }
  split.
  - intros Hnan. apply is_nan_eq in Hnan. rewrite step_passes.
    rewrite Hnan, add_nan_r. rewrite <- (add_nan_l 0) at 1. rewrite Hp. cbn.
    destruct this; cbn in *. by subst.
  - intros Hnan dts. apply is_nan_eq in Hnan. revert this Hnan.
    induction dts as [|d rest IH]; intros this Hnan; [by exists this|].
    cbn [Sim.run]. rewrite step_passes.
    destruct this as [bodies0 G0 softening0 dt0 h acc]. cbn in Hnan. subst acc.
    cbn [Sim.set_dt Sim.bodies Sim.G Sim.softening Sim.dt Sim.fixedDt
         Sim.accumulator].
    rewrite Hp. cbn.
    destruct (IH (Sim.mk bodies0 G0 softening0 d h nan) eq_refl)
      as (this' & Hrun & Hb & Ha).
    by exists this'.
Qed.

Lemma nan_dt_freezes_engine_witness :
  Sim.step 1 (Sim.set_dt nan Sim.new)
  = Some (tt, Sim.set_accumulator nan (Sim.set_dt nan Sim.new)).
Proof.
  apply (proj1 (nan_dt_freezes_engine 1 (Sim.set_dt nan Sim.new) ltac:(lia))).
  reflexivity.
Defined.

(** ** The miniature simulation of the matrix explorer *)

Section Threshold.
Local Open Scope float_scope.

Lemma leb_ltb_trans t1 t2 m :
  (t1 <=? t2) = true → (t2 <? m) = true → (t1 <? m) = true.
Proof.
  rewrite FloatAxioms.leb_spec, !FloatAxioms.ltb_spec. unfold SFleb, SFltb.
  intros H1 H2.
  destruct (SFcompare (Prim2SF t2) (Prim2SF m)) as [[]|] eqn:E2; try done.
  destruct (SFcompare (Prim2SF t1) (Prim2SF t2)) as [[]|] eqn:E1; try done.
  - rewrite (SFcompare_antisym (Prim2SF m) (Prim2SF t1)).
    rewrite (SFcompare_Eq_r (Prim2SF m) _ _ E1).
    by rewrite <- (SFcompare_antisym (Prim2SF m) (Prim2SF t2)), E2.
  - by rewrite (SFcompare_Lt_trans _ _ _ E1 E2).
Qed.

Lemma anyBeyond_threshold t1 t2 bodies :
  (t1 <=? t2) = true →
  anyBeyond t2 bodies = true → anyBeyond t1 bodies = true.
Proof.
  intros Hle. rewrite !anyBeyond_exists. intros (b & Hb & Hgt).
  exists b. split; [done|]. unfold JS.gt in *. by apply (leb_ltb_trans t1 t2).
Qed.
End Threshold.

(** X10.  [isUnstable] is monotone in its threshold: a state that is
    unstable for a threshold is unstable for every smaller one, so what
    the default 5000 reports the 3000 of [createMiniSim] reports too. *)
Theorem isUnstable_threshold (t1 t2 : float) (this : Physics.PhysicsEngine) :
  (t1 <=? t2)%float = true →
  Physics.isUnstable (Some t2) this = Some (true, this) →
  Physics.isUnstable (Some t1) this = Some (true, this).
Proof.
  unfold Physics.isUnstable. simpl. intros Hle [= H].
  by rewrite (anyBeyond_threshold t1 t2 _ Hle H).
Qed.

Lemma isUnstable_threshold_witness :
  let far := mkBody (Vector.mk 6000 0 0) Vector.zero 1 None None in
  let this := Physics.new [far] None None in
  Physics.isUnstable (Some 3000%float) this = Some (true, this).
Proof.
  intros far this.
  apply (isUnstable_threshold 3000 5000 this); reflexivity.
Defined.

Section MiniSim.
Import MatrixExplorer.

Lemma simLoop_outcome n : ∀ bodies0 G0 softening0,
  ∃ (stable : bool) (m : nat) (bodies' : list Body),
    simLoop n (Physics.mk bodies0 G0 softening0)
    = Some (stable, Physics.mk bodies' G0 softening0) ∧
    m ≤ n ∧
    rk4Steps G0 softening0 0.1%float m bodies0 = Some bodies' ∧
    (∀ k bs, 0 < k < m → rk4Steps G0 softening0 0.1%float k bodies0 = Some bs →
             anyBeyond 3000%float bs = false) ∧
    (if stable then m = n ∧ (0 < n → anyBeyond 3000%float bodies' = false)
     else 0 < m ∧ anyBeyond 3000%float bodies' = true).
Proof.
  induction n as [|n IH]; intros bodies0 G0 softening0.
  - exists true, 0, bodies0. split; [done|]. split; [done|]. split; [done|].
    split; [intros; lia|]. split; [done|lia].
  - destruct (rk4Step_total G0 softening0 0.1%float bodies0) as (bs & Hbs & _).
    cbn [simLoop]. unfold Physics.step, Physics.isUnstable.
    cbn [Physics.bodies Physics.G Physics.softening].
    rewrite Hbs. cbn [mbind option_bind Physics.bodies].
    change (default 5000%float (Some 3000%float)) with 3000%float.
    destruct (anyBeyond 3000%float bs) eqn:Hfar.
    + exists false, 1, bs. split; [done|]. split; [lia|].
      split; [cbn; by rewrite Hbs|]. split; [intros; lia|]. split; [lia|done].
    + destruct (IH bs G0 softening0)
        as (stable & m & bodies' & Hrun & Hm & Hsteps & Hbefore & Hend).
      exists stable, (S m), bodies'. split; [done|]. split; [lia|].
      split; [cbn; by rewrite Hbs|]. split.
      * intros k bs' Hk Hk'. destruct k as [|k]; [lia|].
        cbn [rk4Steps] in Hk'. rewrite Hbs in Hk'. cbn in Hk'.
        destruct k as [|k]; [by injection Hk' as <-|].
        apply (Hbefore (S k) bs'); [lia|done].
      * destruct stable.
        -- destruct Hend as [-> Hend]. split; [done|]. intros _.
           destruct n as [|n]; [|apply Hend; lia].
           cbn in Hsteps. by injection Hsteps as <-.
        -- split; [lia|tauto].
Qed.
End MiniSim.

(** X11.  The loop of [createMiniSim] never raises.  It ends after [m]
    RK4 steps of 0.1 with [m] at most the budget; no state reached before
    the [m]-th step has a body farther than 3000 from the origin; the
    verdict is STABLE exactly when the budget was used up without the last
    state having such a body either, and UNSTABLE exactly when the [m]-th
    state is the first that has one.  [G] and the softening are kept. *)
Theorem simLoop_verdict (n : nat) (physics : Physics.PhysicsEngine) :
  ∃ (stable : bool) (m : nat) (bodies' : list Body),
    MatrixExplorer.simLoop n physics
    = Some (stable, Physics.mk bodies' (Physics.G physics)
                               (Physics.softening physics)) ∧
    m ≤ n ∧
    rk4Steps (Physics.G physics) (Physics.softening physics) 0.1%float m
             (Physics.bodies physics) = Some bodies' ∧
    (∀ k bs, 0 < k < m →
             rk4Steps (Physics.G physics) (Physics.softening physics) 0.1%float k
                      (Physics.bodies physics) = Some bs →
             anyBeyond 3000%float bs = false) ∧
    (if stable then m = n ∧ (0 < n → anyBeyond 3000%float bodies' = false)
     else 0 < m ∧ anyBeyond 3000%float bodies' = true).
Proof. destruct physics as [bodies0 G0 softening0]. apply simLoop_outcome. Qed.

(** ** A collision in the miniature simulation *)

Section AllNaN.
Local Open Scope float_scope.
Variables G softening : float.

Lemma forceVector_nan_pos_r bk bi :
  pos bi = nanVector → forceVector G softening bk bi = nanVector.
Proof.
  intros Hp. unfold forceVector, separation.
  by rewrite Hp, sub_nanVector_l, mult_nanVector.
Qed.

Lemma forceVector_nan_pos_l bi bk :
  pos bi = nanVector → forceVector G softening bi bk = nanVector.
Proof.
  intros Hp. unfold forceVector, separation.
  by rewrite Hp, sub_nanVector_r, mult_nanVector.
Qed.

Lemma contribution_nan_pos state k i bk bi cur :
  k ≠ i → state !! k = Some bk → state !! i = Some bi →
  pos bi = nanVector →
  contribution G softening state k cur i = nanVector.
Proof.
  intros Hne Hk Hi Hp. unfold contribution. rewrite Hk, Hi.
  destruct (k <? i)%nat eqn:E1.
  - by rewrite (forceVector_nan_pos_r bk bi Hp), mult_nanVector, add_nanVector_r.
  - destruct (i <? k)%nat eqn:E2.
    + by rewrite (forceVector_nan_pos_l bi bk Hp), mult_nanVector,
        sub_nanVector_r.
    + apply Nat.ltb_ge in E1, E2. lia.
Qed.

Lemma pull_nan_pos state k i bk bi upto :
  k ≠ i → state !! k = Some bk → state !! i = Some bi →
  pos bi = nanVector → (i < upto)%nat →
  pull G softening state k upto = nanVector.
Proof.
  intros Hne Hk Hi Hp.
  induction upto as [|m IH]; intros Hlt; [lia|].
  rewrite pull_S. destruct (decide (m = i)) as [->|Hm].
  - by apply (contribution_nan_pos state k i bk bi).
  - rewrite IH by lia. apply contribution_nanVector.
Qed.

Lemma accelerations_nan_pos state k i bk bi :
  k ≠ i → state !! k = Some bk → state !! i = Some bi →
  pos bi = nanVector →
  accelerations G softening state !! k = Some nanVector.
Proof.
  intros Hne Hk Hi Hp. unfold accelerations.
  pose proof (lookup_lt_Some _ _ _ Hk) as Hlk.
  pose proof (lookup_lt_Some _ _ _ Hi) as Hli.
  rewrite list_lookup_fmap, lookup_seq_lt by done. simpl. f_equal.
  by apply (pull_nan_pos state k i bk bi).
Qed.

Lemma advanced_vel_nan state v a h m sm vm :
  state !! m = Some sm → v !! m = Some vm → a !! m = Some nanVector →
  (vel <$> advanced state v a h) !! m = Some nanVector.
Proof.
  intros Hs Hv Ha.
  rewrite list_lookup_fmap, (advanced_lookup state v a h m sm vm nanVector) by done.
  simpl. by rewrite mult_nanVector, add_nanVector_r.
Qed.

Lemma advanced_pos_nan state v a h m sm am :
  state !! m = Some sm → v !! m = Some nanVector → a !! m = Some am →
  ∃ s', advanced state v a h !! m = Some s' ∧ pos s' = nanVector.
Proof.
  intros Hs Hv Ha.
  rewrite (advanced_lookup state v a h m sm nanVector am) by done.
  eexists. split; [done|]. simpl. by rewrite mult_nanVector, add_nanVector_r.
Qed.

Lemma weighted_nan_4 k1 k2 k3 dt : weighted k1 k2 k3 nanVector dt = nanVector.
Proof. unfold weighted. by rewrite add_nanVector_r, mult_nanVector. Qed.
End AllNaN.

Section Collision.
Local Open Scope float_scope.
Variables G softening : float.

(** After one step from a state with two coincident bodies no body has a
    position left. *)
Lemma rk4Step_coincident_lost dt bodies i j bi bj :
  i ≠ j → bodies !! i = Some bi → bodies !! j = Some bj →
  pos bi = pos bj → finiteVector (pos bi) = true →
  ∃ bodies',
    rk4Step G softening dt bodies = Some bodies' ∧
    length bodies' = length bodies ∧
    Forall (λ b, pos b = nanVector) bodies'.
Proof.
  intros Hne Hi Hj Hpos Hfin.
  destruct (rk4Step_stages G softening dt bodies)
    as (Hrun & H1 & H2 & H3 & H4 & H5 & H6 & H7 & H8).
  destruct (commit_loop _ _ _ _ _ _ _ _ dt bodies H1 H2 H3 H4 H5 H6 H7 H8)
    as (bodies' & Hloop & Hlen & Hupd).
  exists bodies'. split; [by rewrite Hrun|]. split; [done|].
  apply Forall_lookup. intros k b' Hk.
  assert (Hlt : (k < length bodies)%nat)
    by (apply lookup_lt_Some in Hk; lia).
  destruct (lookup_lt_is_Some_2 bodies k Hlt) as [b Hb].
  destruct (Hupd k b Hb)
    as (a1k & a2k & a3k & a4k & v1k & v2k & v3k & v4k &
        E1 & E2 & E3 & E4 & F1 & F2 & F3 & F4 & Hb').
  rewrite Hk in Hb'. injection Hb' as ->. cbn [pos].
  enough (v4k = nanVector) as -> by (by rewrite weighted_nan_4, add_nanVector_r).
  clear E1 E2 E3 E4 F1 F2 F3 Hupd Hloop Hrun Hk.
  cbn [rk4Stages v4 a1 a2 a3 a4 v1 v2 v3] in *.
  set (base := cloneState bodies) in *.
  set (k1 := accelerations G softening base) in *.
  set (s2 := advanced base (vel <$> base) k1 (dt * 0.5)) in *.
  set (k2 := accelerations G softening s2) in *.
  set (s3 := advanced base (vel <$> s2) k2 (dt * 0.5)) in *.
  set (k3 := accelerations G softening s3) in *.
  set (s4 := advanced base (vel <$> s3) k3 dt) in *.
  assert (Hbase : ∀ n c, bodies !! n = Some c →
            base !! n = Some (mkBody (Vector.clone (pos c)) (Vector.clone (vel c))
                                     (mass c) None None)).
  { intros n c Hc. unfold base, cloneState. by rewrite list_lookup_fmap, Hc. }
  (* a partner [m] of the collision other than [k], with its own partner [p] *)
  assert (∃ m p bm bp, m ≠ k ∧ m ≠ p ∧ bodies !! m = Some bm ∧
            bodies !! p = Some bp ∧ pos bm = pos bp ∧
            finiteVector (pos bm) = true)
    as (m & p & bm & bp & Hmk & Hmp & Hm & Hp & Hposm & Hfinm).
  { destruct (decide (k = i)) as [->|Hki].
    - exists j, i, bj, bi. rewrite <- Hpos. by repeat split.
    - exists i, j, bi, bj. by repeat split. }
  assert (Hk1 : k1 !! m = Some nanVector).
  { apply (accelerations_coincident G softening base m p _ _ Hmp
             (Hbase _ _ Hm) (Hbase _ _ Hp)); simpl; rewrite !clone_id; done. }
  assert (Hv2 : (vel <$> s2) !! m = Some nanVector).
  { apply (advanced_vel_nan base _ _ _ m _ (Vector.clone (vel bm)) (Hbase _ _ Hm));
      [|done].
    by rewrite list_lookup_fmap, (Hbase _ _ Hm). }
  assert (Hlm : (m < length bodies)%nat) by (by apply lookup_lt_Some in Hm).
  destruct (lookup_lt_is_Some_2 k2 m) as [a2m Ha2m]; [lia|].
  destruct (advanced_pos_nan base (vel <$> s2) k2 (dt * 0.5) m _ a2m
              (Hbase _ _ Hm) Hv2 Ha2m) as (sm & Hsm & Hpm).
  fold s3 in Hsm.
  destruct (lookup_lt_is_Some_2 s3 k) as [sk Hsk].
  { unfold s3. rewrite length_advanced; unfold base;
      rewrite ?length_cloneState; [done|lia|lia]. }
  assert (Hk3 : k3 !! k = Some nanVector).
  { by apply (accelerations_nan_pos G softening s3 k m sk sm). }
  destruct (lookup_lt_is_Some_2 (vel <$> s3) k) as [v3k' Hv3k]; [lia|].
  pose proof (advanced_vel_nan base (vel <$> s3) k3 dt k _ v3k'
                (Hbase _ _ Hb) Hv3k Hk3) as Hv4.
  fold s4 in Hv4. congruence.
Qed.

Lemma rk4Step_lost dt bodies :
  Forall (λ b, pos b = nanVector) bodies →
  ∃ bodies',
    rk4Step G softening dt bodies = Some bodies' ∧
    length bodies' = length bodies ∧
    Forall (λ b, pos b = nanVector) bodies'.
Proof.
  intros Hall.
  destruct (rk4Step_stages G softening dt bodies)
    as (Hrun & H1 & H2 & H3 & H4 & H5 & H6 & H7 & H8).
  destruct (commit_loop _ _ _ _ _ _ _ _ dt bodies H1 H2 H3 H4 H5 H6 H7 H8)
    as (bodies' & Hloop & Hlen & Hupd).
  exists bodies'. split; [by rewrite Hrun|]. split; [done|].
  apply Forall_lookup. intros k b' Hk.
  assert (Hlt : (k < length bodies)%nat)
    by (apply lookup_lt_Some in Hk; lia).
  destruct (lookup_lt_is_Some_2 bodies k Hlt) as [b Hb].
  destruct (Hupd k b Hb)
    as (a1k & a2k & a3k & a4k & v1k & v2k & v3k & v4k &
        _ & _ & _ & _ & _ & _ & _ & _ & Hb').
  rewrite Hk in Hb'. injection Hb' as ->. cbn [pos].
  rewrite (proj1 (Forall_lookup _ _) Hall k b Hb). apply add_nanVector_l.
Qed.

Lemma anyBeyond_lost threshold bodies :
  Forall (λ b, pos b = nanVector) bodies → anyBeyond threshold bodies = false.
Proof.
  induction 1 as [|b rest Hb _ IH]; [done|].
  cbn [anyBeyond]. rewrite Hb.
  change (Vector.mag nanVector) with nan.
  unfold JS.gt. by rewrite ltb_nan_r.
Qed.

Lemma simLoop_lost n : ∀ bodies,
  Forall (λ b, pos b = nanVector) bodies →
  ∃ bodies',
    MatrixExplorer.simLoop n (Physics.mk bodies G softening)
    = Some (true, Physics.mk bodies' G softening) ∧
    length bodies' = length bodies ∧
    Forall (λ b, pos b = nanVector) bodies'.
Proof.
  induction n as [|n IH]; intros bodies Hall; [by exists bodies|].
  destruct (rk4Step_lost 0.1 bodies Hall) as (bs & Hbs & Hlen & Hall').
  cbn [MatrixExplorer.simLoop]. unfold Physics.step, Physics.isUnstable.
  cbn [Physics.bodies Physics.G Physics.softening].
  rewrite Hbs. cbn [mbind option_bind Physics.bodies].
  rewrite (anyBeyond_lost _ bs Hall').
  destruct (IH bs Hall') as (bodies' & Hrun & Hlen' & Hall'').
  exists bodies'. split; [done|]. split; [congruence|done].
Qed.
End Collision.

(** X12.  A configuration in which two bodies share a finite position is
    badged STABLE by [createMiniSim], whatever the masses, the
    velocities and the other bodies: the first step leaves every body
    without a position ([NaN] on each axis), the test [isUnstable(3000)]
    is then false at every step, and the loop runs through its whole
    budget. *)
Theorem createMiniSim_collision_stable (config : list Body) (i j : nat)
    (bi bj : Body) :
  i ≠ j → config !! i = Some bi → config !! j = Some bj →
  pos bi = pos bj → finiteVector (pos bi) = true →
  ∃ physics,
    MatrixExplorer.createMiniSim config = Some (true, physics) ∧
    length (Physics.bodies physics) = length config ∧
    Forall (λ b, pos b = nanVector) (Physics.bodies physics).
Proof.
  intros Hne Hi Hj Hpos Hfin. unfold MatrixExplorer.createMiniSim.
  set (copy := λ b : Body, _).
  assert (Hcopy : ∀ n c, config !! n = Some c →
            (copy <$> config) !! n = Some (copy c))
    by (intros n c Hc; by rewrite list_lookup_fmap, Hc).
  assert (Hp : ∀ c, pos (copy c) = pos c)
    by (intros c; unfold copy; simpl; by destruct (pos c)).
  destruct (rk4Step_coincident_lost 1000 5 0.1 (copy <$> config) i j
              (copy bi) (copy bj) Hne (Hcopy _ _ Hi) (Hcopy _ _ Hj))
    as (bs & Hbs & Hlen & Hall); [by rewrite !Hp|by rewrite Hp|].
  destruct (simLoop_lost 1000 5 799 bs Hall) as (bodies' & Hrun & Hlen' & Hall').
  exists (Physics.mk bodies' 1000 5).
  change 800 with (S 799). cbn [MatrixExplorer.simLoop].
  unfold Physics.step, Physics.isUnstable, Physics.new.
  cbn [Physics.bodies Physics.G Physics.softening default from_option id].
  rewrite Hbs. cbn [mbind option_bind Physics.bodies].
  change (default 5000 (Some 3000)) with 3000.
  rewrite (anyBeyond_lost _ bs Hall). split; [exact Hrun|]. split; [|done].
  cbn [Physics.bodies]. rewrite Hlen', Hlen. apply length_fmap.
Qed.

(** Two bodies of mass 20 at the origin and a third far away. *)
Lemma createMiniSim_collision_stable_witness :
  let b := mkBody Vector.zero (Vector.mk 0 5 0) 20 None None in
  let c := mkBody (Vector.mk 9000 0 0) Vector.zero 15 None None in
  ∃ physics,
    MatrixExplorer.createMiniSim [b; c; b] = Some (true, physics) ∧
    length (Physics.bodies physics) = 3 ∧
    Forall (λ b, pos b = nanVector) (Physics.bodies physics).
Proof.
  intros b c.
  apply (createMiniSim_collision_stable [b; c; b] 0 2 b b);
    [lia|reflexivity|reflexivity|reflexivity|reflexivity].
Defined.

(** ** The trail history *)

Section Trail.
Import VisualEngine.

Lemma updateHistory_window ps : ∀ h,
  foldl updateHistory h ps = drop (length ps) (h ++ ps).
Proof.
  induction ps as [|p ps IH]; intros h; simpl.
  - by rewrite app_nil_r.
  - rewrite IH. unfold updateHistory. rewrite clone_id.
    destruct h as [|q h]; simpl.
    + done.
    + rewrite ?drop_0. by rewrite <- app_assoc.
Qed.

Lemma updateHistoryBounded_full h p :
  length h = 1000 → updateHistoryBounded h p = updateHistory h p.
Proof.
  intros Hlen. unfold updateHistoryBounded, updateHistory.
  rewrite clone_id, length_app, Hlen. done.
Qed.

Lemma length_updateHistory h p :
  length (updateHistory h p) = length h.
Proof.
  unfold updateHistory. rewrite length_drop, length_app. simpl. lia.
Qed.

Lemma foldl_updateHistoryBounded ps : ∀ h,
  length h = 1000 →
  foldl updateHistoryBounded h ps = foldl updateHistory h ps.
Proof.
  induction ps as [|p ps IH]; intros h Hlen; [done|]. simpl.
  rewrite updateHistoryBounded_full by done.
  apply IH. by rewrite length_updateHistory.
Qed.
End Trail.

(** X13.  The trail of a body is a sliding window: after the positions
    [ps] have been shown, the history that [update] keeps for a body
    initialised at [p0] consists of the last 1000 entries of the initial
    1000 copies of [p0] followed by [ps], in order, so it always has 1000
    entries (the size of the vertex buffer) and, once 1000 positions have
    been shown, holds exactly the last 1000 of them.  The history of
    js/visuals.js and that of the stand-alone script are the same. *)
Theorem trail_window (p0 : Vector.t) (ps : list Vector.t) :
  foldl VisualEngine.updateHistory (VisualEngine.initHistory p0) ps
  = drop (length ps) (replicate 1000 p0 ++ ps) ∧
  foldl VisualEngine.updateHistoryBounded (VisualEngine.initHistory p0) ps
  = foldl VisualEngine.updateHistory (VisualEngine.initHistory p0) ps ∧
  length (foldl VisualEngine.updateHistory (VisualEngine.initHistory p0) ps)
  = 1000 ∧
  (1000 ≤ length ps →
   foldl VisualEngine.updateHistory (VisualEngine.initHistory p0) ps
   = drop (length ps - 1000) ps).
Proof.
  rewrite updateHistory_window.
  change (VisualEngine.initHistory p0) with (replicate 1000 p0).
  split; [done|]. split; [|split].
  - rewrite foldl_updateHistoryBounded by apply length_replicate.
    apply updateHistory_window.
  - rewrite length_drop, length_app, length_replicate. lia.
  - intros Hlen. rewrite drop_app_ge; rewrite length_replicate; [done|lia].
Qed.

(** ** Parameters of the heatmap *)

Section ApplyParam.
Import HeatmapExplorer.
Local Open Scope float_scope.

Lemma applyParam_perturbBody bodies type val :
  applyParam bodies type val
  = match paramIndex type with
    | O => None
    | S i => b ← bodies !! i; Some (<[ i := perturbBody type val b ]> bodies)
    end.
Proof. by destruct type as [[|i]|[] a [|i]]. Qed.

Lemma perturbBody_commute p q v w b :
  paramIndex p = paramIndex q → p ≠ q →
  perturbBody p v (perturbBody q w b) = perturbBody q w (perturbBody p v b).
Proof.
  intros Hidx Hne.
  destruct p as [n|[] [] n], q as [m|[] [] m]; simpl in Hidx; subst;
    try done; destruct b as [[] [] ? ? ?]; reflexivity.
Qed.

Lemma applyParam_commute bodies p q v w :
  p ≠ q →
  applyParam bodies p v ≫= (λ bs, applyParam bs q w)
  = applyParam bodies q w ≫= (λ bs, applyParam bs p v).
Proof.
  intros Hne. rewrite !applyParam_perturbBody.
  destruct (paramIndex p) as [|i] eqn:Hp, (paramIndex q) as [|j] eqn:Hq.
  - done.
  - simpl. destruct (bodies !! j); [|done]. simpl.
    by rewrite applyParam_perturbBody, Hp.
  - simpl. destruct (bodies !! i); [|done]. simpl.
    by rewrite applyParam_perturbBody, Hq.
  - destruct (bodies !! i) as [bi|] eqn:Hi; simpl.
    + rewrite applyParam_perturbBody, Hq.
      destruct (decide (i = j)) as [->|Hij].
      * rewrite Hi. simpl. rewrite applyParam_perturbBody, Hp.
        pose proof (lookup_lt_Some _ _ _ Hi) as Hlt.
        rewrite !list_lookup_insert_eq by done. simpl.
        rewrite !list_insert_insert_eq.
        rewrite (perturbBody_commute p q v w bi); [done|congruence|done].
      * rewrite list_lookup_insert_ne by done.
        destruct (bodies !! j) as [bj|] eqn:Hj; simpl; [|done].
        rewrite applyParam_perturbBody, Hp.
        rewrite list_lookup_insert_ne by done. rewrite Hi. simpl.
        by rewrite list_insert_insert_ne.
    + destruct (bodies !! j) as [bj|] eqn:Hj; simpl; [|done].
      rewrite applyParam_perturbBody, Hp.
      destruct (decide (i = j)) as [->|Hij]; [congruence|].
      rewrite list_lookup_insert_ne by done. by rewrite Hi.
Qed.
End ApplyParam.

(** X14.  [applyParam] raises exactly when the index in the parameter
    name is 0 or exceeds the number of bodies.  Otherwise it keeps the
    number of bodies, leaves every body but the addressed one as it
    was, and changes of the addressed body the named quantity only (the
    mass, or one component of the position or of the velocity), by adding
    the value. *)
Theorem applyParam_frame (bodies : list Body) (type : HeatmapExplorer.param)
    (val : float) :
  (HeatmapExplorer.applyParam bodies type val = None ↔
   ¬ (1 ≤ HeatmapExplorer.paramIndex type ≤ length bodies)) ∧
  (∀ bodies', HeatmapExplorer.applyParam bodies type val = Some bodies' →
     length bodies' = length bodies ∧
     (∀ k, S k ≠ HeatmapExplorer.paramIndex type →
           bodies' !! k = bodies !! k) ∧
     ∃ i b, HeatmapExplorer.paramIndex type = S i ∧ bodies !! i = Some b ∧
            bodies' !! i = Some (HeatmapExplorer.perturbBody type val b) ∧
            match type with
            | HeatmapExplorer.MassOf _ =>
                HeatmapExplorer.perturbBody type val b
                = mkBody (pos b) (vel b) (mass b + val) (radius b) (color b)
            | HeatmapExplorer.ComponentOf HeatmapExplorer.f_pos a _ =>
                HeatmapExplorer.perturbBody type val b
                = mkBody (HeatmapExplorer.addComponent a val (pos b)) (vel b)
                         (mass b) (radius b) (color b)
            | HeatmapExplorer.ComponentOf HeatmapExplorer.f_vel a _ =>
                HeatmapExplorer.perturbBody type val b
                = mkBody (pos b) (HeatmapExplorer.addComponent a val (vel b))
                         (mass b) (radius b) (color b)
            end).
Proof.
  rewrite applyParam_perturbBody. split.
  - destruct (HeatmapExplorer.paramIndex type) as [|i]; [split; [lia|done]|].
    destruct (bodies !! i) as [b|] eqn:Hb; simpl.
    + apply lookup_lt_Some in Hb. split; [done|lia].
    + apply lookup_ge_None in Hb. split; [lia|done].
  - intros bodies'.
    destruct (HeatmapExplorer.paramIndex type) as [|i] eqn:Hidx; [done|].
    destruct (bodies !! i) as [b|] eqn:Hb; [|done]. simpl. intros [= <-].
    pose proof (lookup_lt_Some _ _ _ Hb) as Hlt.
    split; [by rewrite length_insert|]. split.
    + intros k Hk. rewrite list_lookup_insert_ne; [done|lia].
    + exists i, b. split; [done|]. split; [done|].
      split; [by rewrite list_lookup_insert_eq|].
      by destruct type as [n|[] a n].
Qed.

(** X15.  Transposing the heatmap transposes its cells: when the two axes
    name different parameters, exchanging the axes together with the two
    centres and the two grid coordinates gives the same perturbed
    configuration and so the same score; the order of the two calls of
    [applyParam] does not matter. *)
Theorem simStability_transpose (res centerX centerY zoom baseRange : float)
    (xAxis yAxis : HeatmapExplorer.param) (baseConfig : option (list Body))
    (gridX gridY : float) :
  xAxis ≠ yAxis →
  HeatmapExplorer.simStability gridX gridY
    (HeatmapExplorer.mk res centerX centerY zoom baseRange xAxis yAxis baseConfig)
  = HeatmapExplorer.simStability gridY gridX
      (HeatmapExplorer.mk res centerY centerX zoom baseRange yAxis xAxis baseConfig).
Proof.
  intros Hne. unfold HeatmapExplorer.simStability. f_equal.
  unfold HeatmapExplorer.perturbed.
  cbn [HeatmapExplorer.res HeatmapExplorer.centerX HeatmapExplorer.centerY
       HeatmapExplorer.zoom HeatmapExplorer.baseRange HeatmapExplorer.xAxis
       HeatmapExplorer.yAxis HeatmapExplorer.baseConfig].
  destruct baseConfig as [base|]; [|done]. cbn [mbind option_bind].
  by apply applyParam_commute.
Qed.

Lemma simStability_transpose_witness :
  HeatmapExplorer.simStability 10 20
    (HeatmapExplorer.mk 200 0 1 1 8
       (HeatmapExplorer.ComponentOf HeatmapExplorer.f_vel HeatmapExplorer.ax_x 3)
       (HeatmapExplorer.MassOf 3) (Some INITIAL_CONFIG))
  = HeatmapExplorer.simStability 20 10
      (HeatmapExplorer.mk 200 1 0 1 8
         (HeatmapExplorer.MassOf 3)
         (HeatmapExplorer.ComponentOf HeatmapExplorer.f_vel HeatmapExplorer.ax_x 3)
         (Some INITIAL_CONFIG)).
Proof. apply simStability_transpose. discriminate. Defined.

(** ** The microsecond accumulator with signed increments *)

Section SignedAccumulator.
Import IntegerAccumulatorTest.

Lemma drain_signed h fuel : ∀ acc steps,
  (0 < h)%Z → Z.to_nat (acc / h) < fuel →
  while_loop fuel
    (λ this, (fixedStepUs this <=? accumulatorUs this)%Z)
    (λ this, Some (mk (fixedStepUs this)
                      (accumulatorUs this - fixedStepUs this)
                      (stepsTaken this + 1)))
    (mk h acc steps)
  = Some (mk h (acc - h * Z.max 0 (acc / h)) (steps + Z.max 0 (acc / h))).
Proof.
  induction fuel as [|f IH]; intros acc steps Hh Hfuel; [lia|].
  simpl. destruct (h <=? acc)%Z eqn:Hc.
  - apply Z.leb_le in Hc.
    assert (Hd : ((acc - h) / h = acc / h - 1)%Z).
    { replace (acc - h)%Z with (acc + (-1) * h)%Z by lia.
      rewrite Z.div_add by lia. lia. }
    assert (1 ≤ acc / h)%Z by (apply Z.div_le_lower_bound; lia).
    rewrite IH; [|done|rewrite Hd; lia]. rewrite Hd.
    rewrite (Z.max_r 0 (acc / h - 1)), (Z.max_r 0 (acc / h)) by lia.
    f_equal. f_equal; lia.
  - apply Z.leb_gt in Hc.
    assert (acc / h ≤ 0)%Z.
    { destruct (Z.le_gt_cases 0 acc) as [Hnn|Hneg].
      - rewrite Z.div_small by lia. lia.
      - pose proof (Z.div_lt_upper_bound acc h 0 Hh ltac:(lia)). lia. }
    rewrite Z.max_l by lia. f_equal. f_equal; lia.
Qed.
End SignedAccumulator.

(** X16.  A call of [step] of the accumulator test with a positive
    [fixedStepUs] [h], for an increment of [u] microseconds of either
    sign, from a state whose three fields are exact integers (at most
    [2^53] in magnitude): with [a = accumulatorUs + u] and the new count
    of sub-steps within the exact integers too, and fuel beyond [a / h],
    the call returns, takes [q = max 0 (a / h)] sub-steps and leaves
    [a - h q] in the accumulator.  Time is conserved
    ([accumulatorUs + h * stepsTaken] grows by exactly [u]); a negative
    increment never takes a sub-step back, the debt stays in the
    accumulator; the residual is below [h] and, when [a] is not negative,
    is [a mod h]. *)
Theorem step_signed (fuel : nat) (dt : float) (u h acc steps : Z) :
  (0 < h ≤ 2 ^ 53)%Z →
  (Z.abs acc ≤ 2 ^ 53)%Z →
  (- 2 ^ 53 ≤ steps)%Z →
  JS.Math_round (dt * 1000000)%float = Some u →
  (Z.abs (acc + u) ≤ 2 ^ 53)%Z →
  (steps + Z.max 0 ((acc + u) / h) ≤ 2 ^ 53)%Z →
  Z.to_nat ((acc + u) / h) < fuel →
  ∃ q r,
    IntegerAccumulatorTest.step fuel dt (IntegerAccumulatorTest.mk h acc steps)
    = Some (IntegerAccumulatorTest.mk h r (steps + q)) ∧
    (r + h * (steps + q) = acc + u + h * steps)%Z ∧
    (0 ≤ q)%Z ∧ (r < h)%Z ∧
    (Z.abs r ≤ 2 ^ 53)%Z ∧ (Z.abs (steps + q) ≤ 2 ^ 53)%Z ∧
    (acc + u < h → q = 0)%Z ∧
    (0 ≤ acc + u → r = (acc + u) mod h ∧ q = (acc + u) / h)%Z.
Proof.
  intros [Hh Hhmax] Hacc Hsteps Hu Hsafe Hcount Hfuel.
  exists (Z.max 0 ((acc + u) / h)), (acc + u - h * Z.max 0 ((acc + u) / h))%Z.
  split.
  - unfold IntegerAccumulatorTest.step. rewrite Hu. simpl.
    unfold exactInt.
    replace (Z.abs (acc + u) <=? 2 ^ 53)%Z with true
      by (symmetry; by apply Z.leb_le).
    simpl. by apply drain_signed.
  - pose proof (Z.div_mod (acc + u) h ltac:(lia)) as Hdm.
    pose proof (Z.mod_pos_bound (acc + u) h Hh) as Hmod.
    assert (Hr : (acc + u < 0 ∧ Z.max 0 ((acc + u) / h) = 0 ∨
                  0 ≤ acc + u ∧ Z.max 0 ((acc + u) / h) = (acc + u) / h ∧
                  acc + u - h * ((acc + u) / h) = (acc + u) mod h)%Z).
    { destruct (Z.le_gt_cases 0 (acc + u)) as [Hnn|Hneg].
      - right. pose proof (Z.div_pos (acc + u) h Hnn Hh). lia.
      - left. pose proof (Z.div_lt_upper_bound (acc + u) h 0 Hh ltac:(lia)).
        lia. }
    split; [lia|]. split; [lia|].
    split; [destruct Hr as [[? ->]|(? & -> & ->)]; lia|].
    split; [destruct Hr as [[? ->]|(? & -> & ->)]; lia|].
    split; [lia|]. split.
    + intros Hlt. destruct Hr as [[? ->]|(? & -> & _)]; [done|].
      rewrite Z.div_small by lia. done.
    + intros Hnn. destruct Hr as [[? _]|(_ & -> & ->)]; [lia|done].
Qed.

(** An increment of minus a quarter of a second on top of 3000
    microseconds. *)
Lemma step_signed_witness :
  ∃ q r,
    IntegerAccumulatorTest.step 1 (-0.25)
      (IntegerAccumulatorTest.mk 10000 3000 7)
    = Some (IntegerAccumulatorTest.mk 10000 r (7 + q)) ∧
    (r + 10000 * (7 + q) = 3000 + -250000 + 10000 * 7)%Z ∧
    (0 ≤ q)%Z ∧ (r < 10000)%Z ∧
    (Z.abs r ≤ 2 ^ 53)%Z ∧ (Z.abs (7 + q) ≤ 2 ^ 53)%Z ∧
    (3000 + -250000 < 10000 → q = 0)%Z ∧
    (0 ≤ 3000 + -250000 →
     r = (3000 + -250000) mod 10000 ∧ q = (3000 + -250000) / 10000)%Z.
Proof.
  apply (step_signed 1 (-0.25) (-250000) 10000 3000 7);
    [lia|lia|lia|vm_compute; reflexivity|vm_compute; discriminate
    |vm_compute; discriminate|vm_compute; lia].
Defined.

(** ** The drift script *)

Section DriftScript.
Import IntegerAccumulatorTest.

Lemma run_uniform fuel d u :
  JS.Math_round (d * 1000000)%float = Some u → (0 ≤ u)%Z →
  Z.to_nat ((9999 + u) / 10000) < fuel →
  ∀ n acc steps,
    (0 ≤ acc < 10000)%Z → (acc + Z.of_nat n * u ≤ 2 ^ 53)%Z →
    run fuel (replicate n d) (mk 10000 acc steps)
    = Some (mk 10000 ((acc + Z.of_nat n * u) mod 10000)
                     (steps + (acc + Z.of_nat n * u) / 10000)).
Proof.
  intros Hd Hu Hfuel.
  induction n as [|n IH]; intros acc steps Hacc Hsafe.
  - simpl. rewrite Z.add_0_r.
    rewrite Z.mod_small, Z.div_small by lia. by rewrite Z.add_0_r.
  - replace (acc + Z.of_nat (S n) * u)%Z with (acc + u + Z.of_nat n * u)%Z
      in * by lia.
    destruct (carry (acc + u) (Z.of_nat n * u) 10000 ltac:(lia)) as [Hm Hq].
    pose proof (Z.mod_pos_bound (acc + u) 10000 ltac:(lia)) as Hb.
    assert (0 ≤ Z.of_nat n * u)%Z by nia.
    assert ((acc + u) mod 10000 ≤ acc + u)%Z by (apply Z.mod_le; lia).
    assert ((acc + u) / 10000 ≤ (9999 + u) / 10000)%Z
      by (apply Z.div_le_mono; lia).
    assert (0 ≤ (acc + u) / 10000)%Z by (apply Z.div_pos; lia).
    cbn [replicate run].
    rewrite (step_exact fuel d u acc steps); [|done|done|lia|lia|lia].
    cbn [mbind option_bind]. rewrite IH; [|lia|lia].
    rewrite <- Hm, <- Hq. f_equal. f_equal. lia.
Qed.
End DriftScript.

(** X17.  The drift script that follows js/physics.js, for any target
    time and any two increments: when the increments round to [u1] and
    [u2] microseconds, not negative, and the frame counts
    [Math.ceil(targetTime / dt)] are [n1] and [n2], the two objects end
    with [n1 u1 / 10000] and [n2 u2 / 10000] sub-steps, the total of the
    frames and not the target time deciding.  With the script's own
    constants (10000, 0.15, 0.35) the counts are 1000005 and 1000020:
    they differ, which is the branch that prints FAIL. *)
Theorem driftTest_counts (fuel : nat) (targetTime slowDt fastDt : float)
    (n1 n2 u1 u2 : Z) :
  JS.Math_ceil (targetTime / slowDt)%float = Some n1 →
  JS.Math_ceil (targetTime / fastDt)%float = Some n2 →
  JS.Math_round (slowDt * 1000000)%float = Some u1 →
  JS.Math_round (fastDt * 1000000)%float = Some u2 →
  (0 ≤ u1)%Z → (0 ≤ u2)%Z →
  (Z.max 0 n1 * u1 ≤ 2 ^ 53)%Z → (Z.max 0 n2 * u2 ≤ 2 ^ 53)%Z →
  Z.to_nat ((9999 + Z.max u1 u2) / 10000) < fuel →
  IntegerAccumulatorTest.driftTest fuel targetTime slowDt fastDt
  = Some ((Z.max 0 n1 * u1 / 10000)%Z, (Z.max 0 n2 * u2 / 10000)%Z).
Proof.
  intros Hn1 Hn2 Hu1 Hu2 H1 H2 Hs1 Hs2 Hfuel.
  unfold IntegerAccumulatorTest.driftTest. rewrite Hn1, Hn2.
  cbn [mbind option_bind].
  assert ((9999 + u1) / 10000 ≤ (9999 + Z.max u1 u2) / 10000)%Z
    by (apply Z.div_le_mono; lia).
  assert ((9999 + u2) / 10000 ≤ (9999 + Z.max u1 u2) / 10000)%Z
    by (apply Z.div_le_mono; lia).
  assert (0 ≤ (9999 + u1) / 10000)%Z by (apply Z.div_pos; lia).
  assert (0 ≤ (9999 + u2) / 10000)%Z by (apply Z.div_pos; lia).
  assert (Hz : ∀ n, Z.of_nat (Z.to_nat n) = Z.max 0 n) by lia.
  unfold IntegerAccumulatorTest.new.
  rewrite (run_uniform fuel slowDt u1 Hu1 H1 ltac:(lia) (Z.to_nat n1) 0 0);
    [|lia|rewrite Hz; lia].
  cbn [mbind option_bind].
  rewrite (run_uniform fuel fastDt u2 Hu2 H2 ltac:(lia) (Z.to_nat n2) 0 0);
    [|lia|rewrite Hz; lia].
  cbn [mbind option_bind IntegerAccumulatorTest.stepsTaken].
  by rewrite !Hz, !Z.add_0_l.
Qed.

(** The script as written. *)
Lemma driftTest_counts_witness :
  IntegerAccumulatorTest.driftTest 36 10000 0.15 0.35
  = Some (1000005%Z, 1000020%Z).
Proof.
  apply (driftTest_counts 36 10000 0.15 0.35 66667 28572 150000 350000);
    try (vm_compute; reflexivity); try (vm_compute; discriminate);
    vm_compute; lia.
Defined.

(** ** What the integrator never touches *)

Section Kept.

Local Abbreviation kept :=
  (λ b b' : Body, mass b' = mass b ∧ radius b' = radius b ∧ color b' = color b).

Lemma rk4Step_kept G softening dt bodies bodies' :
  rk4Step G softening dt bodies = Some bodies' → Forall2 kept bodies bodies'.
Proof.
  intros Hstep.
  destruct (rk4Step_stages G softening dt bodies)
    as (Hrun & H1 & H2 & H3 & H4 & H5 & H6 & H7 & H8).
  destruct (commit_loop _ _ _ _ _ _ _ _ dt bodies H1 H2 H3 H4 H5 H6 H7 H8)
    as (bs & Hloop & Hlen & Hupd).
  assert (bs = bodies') as -> by congruence.
  apply Forall2_same_length_lookup_2; [done|].
  intros i b b' Hb Hb'.
  destruct (Hupd i b Hb)
    as (a1i & a2i & a3i & a4i & v1i & v2i & v3i & v4i &
        _ & _ & _ & _ & _ & _ & _ & _ & Hnew).
  rewrite Hb' in Hnew. by injection Hnew as ->.
Qed.

Lemma kept_trans l1 l2 l3 :
  Forall2 kept l1 l2 → Forall2 kept l2 l3 → Forall2 kept l1 l3.
Proof.
  intros H12. revert l3.
  induction H12 as [|b1 b2 l1 l2 (Hm & Hr & Hc) _ IH]; intros l3 H23.
  - by inversion H23.
  - inversion H23 as [|? b3 ? l3' (Hm' & Hr' & Hc') Hrest]; subst.
    constructor; [|by apply IH]. repeat split; congruence.
Qed.

Lemma kept_refl l : Forall2 kept l l.
Proof. induction l; by constructor. Qed.

Lemma rk4Steps_kept G softening h n : ∀ bodies bodies',
  rk4Steps G softening h n bodies = Some bodies' → Forall2 kept bodies bodies'.
Proof.
  induction n as [|n IH]; intros bodies bodies' Hrun.
  - injection Hrun as <-. apply kept_refl.
  - cbn [rk4Steps] in Hrun.
    destruct (rk4Step G softening h bodies) as [bs|] eqn:Hbs; [|done].
    apply (kept_trans _ bs); [by apply (rk4Step_kept G softening h)|by apply IH].
Qed.
End Kept.

(** X18.  The integrator changes positions and velocities only.  Any
    number of RK4 sub-steps, any sequence of calls of [step] of the
    accumulating engine and any run of the loop of [createMiniSim] keep
    the number of bodies, their order and, body by body, the mass, the
    radius and the colour; the engine's [G], softening and [fixedDt] are
    kept too. *)
Theorem integrator_keeps_bodies :
  (∀ (G softening h : float) (n : nat) (bodies bodies' : list Body),
     rk4Steps G softening h n bodies = Some bodies' →
     Forall2 (λ b b', mass b' = mass b ∧ radius b' = radius b ∧
                      color b' = color b) bodies bodies') ∧
  (∀ (fuel : nat) (dts : list float) (this this' : Sim.PhysicsEngine),
     Sim.run fuel dts this = Some this' →
     Forall2 (λ b b', mass b' = mass b ∧ radius b' = radius b ∧
                      color b' = color b)
             (Sim.bodies this) (Sim.bodies this') ∧
     Sim.G this' = Sim.G this ∧ Sim.softening this' = Sim.softening this ∧
     Sim.fixedDt this' = Sim.fixedDt this) ∧
  (∀ (n : nat) (physics physics' : Physics.PhysicsEngine) (stable : bool),
     MatrixExplorer.simLoop n physics = Some (stable, physics') →
     Forall2 (λ b b', mass b' = mass b ∧ radius b' = radius b ∧
                      color b' = color b)
             (Physics.bodies physics) (Physics.bodies physics') ∧
     Physics.G physics' = Physics.G physics ∧
     Physics.softening physics' = Physics.softening physics).
Proof.
  split; [apply rk4Steps_kept|]. split.
  - intros fuel dts this this' Hrun.
    destruct (Sim.runPasses fuel dts (Sim.accumulator this) (Sim.fixedDt this))
      as [[n r]|] eqn:Hp.
    + destruct (run_passes fuel dts this n r Hp)
        as (this'' & Hrun' & Hsteps & _ & HG & Hs & Hh).
      assert (this'' = this') as -> by congruence.
      split; [|done]. by apply (rk4Steps_kept _ _ _ _ _ _ Hsteps).
    + by rewrite (run_passes_none fuel dts this Hp) in Hrun.
  - intros n [bodies0 G0 softening0] physics' stable Hrun.
    destruct (simLoop_outcome n bodies0 G0 softening0)
      as (stable' & m & bodies' & Hrun' & _ & Hsteps & _).
    rewrite Hrun' in Hrun. injection Hrun as _ <-.
    split; [|done]. by apply (rk4Steps_kept _ _ _ _ _ _ Hsteps).
Qed.

(** ** A step whose duration is not a number *)

Section NaNStep.
Local Open Scope float_scope.

Lemma weighted_nan_dt k1 k2 k3 k4 : weighted k1 k2 k3 k4 nan = nanVector.
Proof.
  unfold weighted. change (nan / 6) with nan.
  unfold Vector.mult, nanVector. by rewrite !mul_nan_r.
Qed.
End NaNStep.

(** X19.  A step of js/physics.js whose duration is not a number (as
    [parseFloat] gives for an empty input) wipes the state: the call
    returns, and every body is left with a position and a velocity that
    are [NaN] on each axis.  The accumulating engine, by contrast, takes
    no sub-step at all for such an increment. *)
Theorem step_nan_duration (this : Physics.PhysicsEngine) :
  ∃ bodies',
    Physics.step nan this
    = Some (tt, Physics.mk bodies' (Physics.G this) (Physics.softening this)) ∧
    length bodies' = length (Physics.bodies this) ∧
    Forall (λ b, pos b = nanVector ∧ vel b = nanVector) bodies'.
Proof.
  destruct this as [bodies G softening]. unfold Physics.step.
  cbn [Physics.bodies Physics.G Physics.softening].
  destruct (rk4Step_stages G softening nan bodies)
    as (Hrun & H1 & H2 & H3 & H4 & H5 & H6 & H7 & H8).
  destruct (commit_loop _ _ _ _ _ _ _ _ nan bodies H1 H2 H3 H4 H5 H6 H7 H8)
    as (bodies' & Hloop & Hlen & Hupd).
  exists bodies'. rewrite Hrun, Hloop. split; [done|]. split; [done|].
  apply Forall_lookup. intros k b' Hk.
  assert (Hlt : k < length bodies) by (apply lookup_lt_Some in Hk; lia).
  destruct (lookup_lt_is_Some_2 bodies k Hlt) as [b Hb].
  destruct (Hupd k b Hb)
    as (a1k & a2k & a3k & a4k & v1k & v2k & v3k & v4k &
        _ & _ & _ & _ & _ & _ & _ & _ & Hb').
  rewrite Hk in Hb'. injection Hb' as ->. cbn [pos vel].
  by rewrite !weighted_nan_dt, !add_nanVector_r.
Qed.

(** ** The grid of the matrix explorer *)

Section Grid.
Import MatrixExplorerGrid.
Local Open Scope float_scope.

Lemma jsonNumber_add_zero a :
  HeatmapExplorer.jsonNumber a + 0 = HeatmapExplorer.jsonNumber a.
Proof.
  unfold HeatmapExplorer.jsonNumber.
  destruct (is_finite a) eqn:Hfin; [|reflexivity].
  destruct (is_zero a) eqn:Hz; [reflexivity|].
  apply Prim2SF_inj. rewrite add_spec.
  rewrite is_finite_spec in Hfin. unfold is_zero in Hz.
  rewrite FloatAxioms.eqb_spec in Hz.
  change (Prim2SF 0) with (S754_zero false) in *.
  by destruct (Prim2SF a) as [s|s| |s m e].
Qed.

Lemma generateGrid_three b0 b1 b2 rest :
  generateGrid (b0 :: b1 :: b2 :: rest)
  = Some ((λ k, mkVariation (shifted (b0 :: b1 :: b2 :: rest) (k / 5) (k mod 5))
                            ((HeatmapExplorer.counter (k mod 5) - 2) * 0.4,
                             (HeatmapExplorer.counter (k / 5) - 1) * 0.4) k)
            <$> seq 0 15).
Proof. reflexivity. Qed.
End Grid.

(** X20.  [generateGrid] raises exactly when the base configuration has
    fewer than three bodies.  Otherwise it builds 15 variations, numbered
    0 to 14 row by row; the variation in row [r] and column [c] is the
    copy of the base configuration in which the velocity of the third
    body, and nothing else, is shifted by [(c - 2) * 0.4] along x and by
    [(r - 1) * 0.4] along y; the middle cell (row 1, column 2) is the
    unshifted copy; and [createMiniSim] returns a verdict for every
    variation. *)
Theorem generateGrid_cells (baseConfig : list Body) :
  (MatrixExplorerGrid.generateGrid baseConfig = None ↔ length baseConfig < 3) ∧
  (∀ variations,
     MatrixExplorerGrid.generateGrid baseConfig = Some variations →
     length variations = 15 ∧
     (∀ r c, r < 3 → c < 5 →
        variations !! (r * 5 + c)
        = Some (MatrixExplorerGrid.mkVariation
                  (MatrixExplorerGrid.shifted baseConfig r c)
                  (((HeatmapExplorer.counter c - 2) * 0.4)%float,
                   ((HeatmapExplorer.counter r - 1) * 0.4)%float)
                  (r * 5 + c))) ∧
     (∀ r c,
        length (MatrixExplorerGrid.shifted baseConfig r c) = length baseConfig ∧
        ∀ k, k ≠ 2 →
             MatrixExplorerGrid.shifted baseConfig r c !! k
             = (HeatmapExplorer.jsonBody <$> baseConfig) !! k) ∧
     MatrixExplorerGrid.shifted baseConfig 1 2
     = HeatmapExplorer.jsonBody <$> baseConfig ∧
     Forall (λ v, ∃ stable physics,
                MatrixExplorer.createMiniSim (MatrixExplorerGrid.config v)
                = Some (stable, physics)) variations).
Proof.
  split.
  - destruct baseConfig as [|b0 [|b1 [|b2 rest]]]; simpl;
      try (split; [lia|done]).
    rewrite generateGrid_three. split; [done|lia].
  - intros variations Hgrid.
    split; [|split; [|split; [|split]]].
    + destruct baseConfig as [|b0 [|b1 [|b2 rest]]]; try done.
      rewrite generateGrid_three in Hgrid. by injection Hgrid as <-.
    + intros r c Hr Hc.
      destruct baseConfig as [|b0 [|b1 [|b2 rest]]]; try done.
      rewrite generateGrid_three in Hgrid. injection Hgrid as <-.
      destruct r as [|[|[|r]]]; [| | |lia];
        (destruct c as [|[|[|[|[|c]]]]]; [| | | | |lia]); reflexivity.
    + intros r c. unfold MatrixExplorerGrid.shifted.
      destruct ((HeatmapExplorer.jsonBody <$> baseConfig) !! 2) as [b|].
      * rewrite length_insert, length_fmap. split; [done|].
        intros k Hk. by rewrite list_lookup_insert_ne.
      * by rewrite length_fmap.
    + unfold MatrixExplorerGrid.shifted.
      destruct ((HeatmapExplorer.jsonBody <$> baseConfig) !! 2) as [b|] eqn:Hb;
        [|done].
      change ((HeatmapExplorer.counter 2 - 2) * 0.4)%float with 0%float.
      change ((HeatmapExplorer.counter 1 - 1) * 0.4)%float with 0%float.
      rewrite list_lookup_fmap in Hb.
      destruct (baseConfig !! 2) as [b2|] eqn:Hb2; [|done].
      injection Hb as <-. cbn [vel HeatmapExplorer.jsonBody
                               HeatmapExplorer.jsonVector Vector.x Vector.y
                               Vector.z].
      rewrite !jsonNumber_add_zero.
      apply list_insert_id. by rewrite list_lookup_fmap, Hb2.
    + apply Forall_forall. intros v _. unfold MatrixExplorer.createMiniSim.
      unfold Physics.new.
      match goal with
      | |- context [MatrixExplorer.simLoop ?n (Physics.mk ?bs ?g ?s)] =>
          destruct (simLoop_outcome n bs g s) as (stable & m & bodies' & Hrun & _)
      end.
      rewrite Hrun. eauto.
Qed.

(** ** The animation frame *)

(** X21.  A frame of [animate] never raises.  While the simulation is
    paused, or before a configuration is loaded, it changes nothing.
    Otherwise it advances the bodies by exactly four RK4 steps of
    [simulationSpeed * 0.1 / 4], keeps [G] and the softening, and shows
    the energy of the bodies it has just advanced, the sum of their
    kinetic and potential terms. *)
Theorem animate_frame (s : Main.State) :
  match Main.physics s with
  | None => Main.animate s = Some s
  | Some p =>
      if Main.isPaused s then Main.animate s = Some s
      else
        ∃ bodies',
          rk4Steps (Physics.G p) (Physics.softening p)
                   (Main.simulationSpeed s * 0.1 / 4)%float 4 (Physics.bodies p)
          = Some bodies' ∧
          length bodies' = length (Physics.bodies p) ∧
          Main.animate s
          = Some (Main.mk
                    (Some (Physics.mk bodies' (Physics.G p) (Physics.softening p)))
                    false (Main.simulationSpeed s)
                    (Some (kineticSum bodies'
                           + potentialSum (Physics.G p) bodies')%float))
  end.
Proof.
  destruct s as [[[bodies G softening]|] paused speed energy];
    cbn [Main.physics Main.isPaused Main.simulationSpeed]; [|done].
  destruct paused; [done|].
  set (dt := (speed * 0.1 / 4)%float).
  destruct (rk4Step_total G softening dt bodies) as (b1 & H1 & L1).
  destruct (rk4Step_total G softening dt b1) as (b2 & H2 & L2).
  destruct (rk4Step_total G softening dt b2) as (b3 & H3 & L3).
  destruct (rk4Step_total G softening dt b3) as (b4 & H4 & L4).
  exists b4. cbn [Physics.G Physics.softening Physics.bodies].
  split.
  { cbn [rk4Steps]. rewrite H1. cbn [mbind option_bind].
    rewrite H2. cbn [mbind option_bind]. rewrite H3. cbn [mbind option_bind].
    by rewrite H4. }
  split; [congruence|].
  assert (Hstep : ∀ b b', rk4Step G softening dt b = Some b' →
            ('(_, p') ← Physics.step dt (Physics.mk b G softening); Some p')
            = Some (Physics.mk b' G softening)).
  { intros b b' Hb. unfold Physics.step.
    cbn [Physics.G Physics.softening Physics.bodies]. by rewrite Hb. }
  unfold Main.animate.
  cbn [Main.physics Main.isPaused Main.simulationSpeed for_range].
  fold dt.
  rewrite (Hstep _ _ H1). cbn [mbind option_bind].
  rewrite (Hstep _ _ H2). cbn [mbind option_bind].
  rewrite (Hstep _ _ H3). cbn [mbind option_bind].
  rewrite (Hstep _ _ H4). cbn [mbind option_bind].
  unfold Physics.getTotalEnergy.
  cbn [Physics.G Physics.softening Physics.bodies].
  by rewrite totalEnergy_sums.
Qed.

(** ** When the sweep raises *)

Section SweepRaises.
Import HeatmapExplorer.

Lemma sweepStep_short bodies : length bodies < 3 → sweepStep bodies = None.
Proof.
  intros Hlen.
  destruct bodies as [|b0 [|b1 [|b2 rest]]]; simpl in Hlen; try lia; reflexivity.
Qed.

Lemma sweep_short r i bodies :
  length bodies < 3 → sweep (S r) i bodies = None.
Proof. intros Hlen. cbn [sweep]. by rewrite sweepStep_short. Qed.

Lemma applyParam_none bodies type val :
  applyParam bodies type val = None ↔ ¬ (1 ≤ paramIndex type ≤ length bodies).
Proof.
  rewrite applyParam_perturbBody.
  destruct (paramIndex type) as [|i]; [split; [lia|done]|].
  destruct (bodies !! i) as [b|] eqn:Hb; simpl.
  - apply lookup_lt_Some in Hb. split; [done|lia].
  - apply lookup_ge_None in Hb. split; [lia|done].
Qed.
Lemma applyParam_some bodies type val bs :
  applyParam bodies type val = Some bs →
  1 ≤ paramIndex type ≤ length bodies ∧ length bs = length bodies.
Proof.
  intros Hsome.
  destruct (decide (1 ≤ paramIndex type ≤ length bodies)) as [Hok|Hbad].
  - split; [done|].
    destruct (applyParam_total bodies type val Hok) as (bs' & Hbs & Hlen).
    congruence.
  - apply applyParam_none with (val := val) in Hbad. congruence.
Qed.
End SweepRaises.

(** X22.  [simStability] raises exactly when there is no base
    configuration, when the base configuration has fewer than three
    bodies, or when the index in the name of one of the two axis
    parameters is 0 or exceeds the number of bodies; in every other case
    it returns a score. *)
Theorem simStability_raises_iff (this : HeatmapExplorer.t) (gridX gridY : float) :
  HeatmapExplorer.simStability gridX gridY this = None ↔
  match HeatmapExplorer.baseConfig this with
  | None => True
  | Some base =>
      length base < 3 ∨
      ¬ (1 ≤ HeatmapExplorer.paramIndex (HeatmapExplorer.xAxis this) ≤ length base) ∨
      ¬ (1 ≤ HeatmapExplorer.paramIndex (HeatmapExplorer.yAxis this) ≤ length base)
  end.
Proof.
  unfold HeatmapExplorer.simStability, HeatmapExplorer.perturbed.
  destruct (HeatmapExplorer.baseConfig this) as [base|]; [|done].
  cbn [mbind option_bind].
  set (valX := (HeatmapExplorer.centerX this + _)%float).
  set (valY := (HeatmapExplorer.centerY this + _)%float).
  destruct (HeatmapExplorer.applyParam (HeatmapExplorer.jsonBody <$> base)
              (HeatmapExplorer.xAxis this) valX) as [b1|] eqn:H1.
  - destruct (applyParam_some _ _ _ _ H1) as [Hx Hl1].
    rewrite length_fmap in Hx, Hl1. cbn [mbind option_bind].
    destruct (HeatmapExplorer.applyParam b1 (HeatmapExplorer.yAxis this) valY)
      as [b2|] eqn:H2.
    + destruct (applyParam_some _ _ _ _ H2) as [Hy Hl2].
      rewrite Hl1 in Hy, Hl2. cbn [mbind option_bind].
      destruct (decide (length base < 3)) as [Hshort|Hlong].
      * split; [by left|]. intros _.
        apply (sweep_short 999). lia.
      * destruct (sweep_outcome 1000 0 b2 ltac:(lia)) as (score & Hrun & _).
        rewrite Hrun. split; [done|]. intros [?|[?|?]]; done.
    + apply applyParam_none in H2. rewrite Hl1 in H2. cbn [mbind option_bind].
      split; [by right; right|done].
  - apply applyParam_none in H1. rewrite length_fmap in H1.
    split; [by right; left|done].
Qed.

Lemma simStability_raises_iff_witness :
  HeatmapExplorer.simStability 10 20
    (HeatmapExplorer.mk 200 0 0 1 8
       (HeatmapExplorer.ComponentOf HeatmapExplorer.f_vel HeatmapExplorer.ax_x 4)
       (HeatmapExplorer.MassOf 3) (Some INITIAL_CONFIG)) = None.
Proof.
  apply simStability_raises_iff. simpl. right. left. lia.
Defined.
